(** * Schema diff and migration of the konstellio server

    A shallow embedding of the schema-evolution code of the konstellio
    server: [matchLocalizedHandle], [schemaToSchemaDescription],
    [databaseDescriptionToSchemaDescription], [getSchemaDiff] and
    [executeSchemaMigration], together with the few values of the
    JavaScript runtime and of the [@konstellio/db] package they rely on.

    Strings are [string]; arrays are lists, [push] appends at the end;
    plain objects used as dictionaries are association lists kept in the
    property order of the runtime; exceptions are the [Throw] case of
    [Result]; the asynchronous functions thread a [World] that records
    the queries sent to the database and the questions put to the
    operator. *)

From Stdlib Require Import String Ascii List ZArith Bool Arith Lia DecimalString.
Import ListNotations.
Open Scope string_scope.
Open Scope list_scope.

(* ================================================================== *)
(** * The JavaScript runtime *)
(* ================================================================== *)

Module JS.

(** ** Exceptions *)

Inductive Result (E A : Type) : Type :=
| Return (a : A)
| Throw (e : E).
Arguments Return {E A} a.
Arguments Throw {E A} e.

Definition bindR {E A B} (r : Result E A) (k : A -> Result E B) : Result E B :=
  match r with
  | Return a => k a
  | Throw e => Throw e
  end.

(** [array.reduce] / [array.forEach] with a callback that may throw. *)
Fixpoint foldR {E A B} (f : A -> B -> Result E A) (l : list B) (acc : A) : Result E A :=
  match l with
  | [] => Return acc
  | x :: rest => bindR (f acc x) (foldR f rest)
  end.

(** [array.map] with a callback that may throw: the first exception wins. *)
Fixpoint mapR {E A B} (f : A -> Result E B) (l : list A) : Result E (list B) :=
  match l with
  | [] => Return []
  | x :: rest => bindR (f x) (fun y => bindR (mapR f rest) (fun ys => Return (y :: ys)))
  end.

(** ** Arrays *)

(** [array.push(x)] *)
Definition push {A} (array : list A) (x : A) : list A := array ++ [x].

(** [array.indexOf(s) === -1] on an array of strings. *)
Definition lacks (array : list string) (s : string) : bool :=
  negb (existsb (String.eqb s) array).

(** [Array.prototype.sort] is a stable sort: an element moves in front of
    an earlier one only when the comparator says the earlier one is
    greater. *)
Fixpoint insert_sorted {A} (cmp : A -> A -> Z) (x : A) (sorted : list A) : list A :=
  match sorted with
  | [] => [x]
  | y :: ys => if (0 <? cmp y x)%Z then x :: y :: ys else y :: insert_sorted cmp x ys
  end.

Definition sort {A} (cmp : A -> A -> Z) (array : list A) : list A :=
  fold_left (fun sorted x => insert_sorted cmp x sorted) array [].

(** ** Numbers *)

(** [ToInt32], the conversion applied to both operands of [&]. *)
Definition ToInt32 (z : Z) : Z := ((z + 2 ^ 31) mod 2 ^ 32 - 2 ^ 31)%Z.

(** [a & b] *)
Definition bitand (a b : Z) : Z := Z.land (ToInt32 a) (ToInt32 b).

(** ** Plain objects used as dictionaries

    An object is the list of its own properties in the order in which
    [Object.keys] enumerates them: the keys that are canonical array
    indices first, in increasing numeric order, then the other keys in
    the order in which they were created. *)

Definition Obj (V : Type) : Type := list (string * V).

(** The array index a key denotes, if it is the canonical decimal
    writing of an integer below [2^32 - 1]. *)
Definition array_index (key : string) : option N :=
  match NilEmpty.uint_of_string key with
  | Some u =>
      let n := N.of_uint u in
      if String.eqb (NilEmpty.string_of_uint (N.to_uint n)) key && (n <? 4294967295)%N
      then Some n else None
  | None => None
  end.

Definition keys {V} (o : Obj V) : list string := map fst o.

(** [o[key]] *)
Fixpoint get {V} (key : string) (o : Obj V) : option V :=
  match o with
  | [] => None
  | (k, v) :: rest => if String.eqb k key then Some v else get key rest
  end.

Definition has {V} (key : string) (o : Obj V) : bool :=
  match get key o with Some _ => true | None => false end.

Fixpoint replace {V} (key : string) (v : V) (o : Obj V) : Obj V :=
  match o with
  | [] => []
  | (k, w) :: rest => if String.eqb k key then (k, v) :: rest else (k, w) :: replace key v rest
  end.

(** Where a property that does not exist yet is created. *)
Fixpoint create_index {V} (n : N) (key : string) (v : V) (o : Obj V) : Obj V :=
  match o with
  | [] => [(key, v)]
  | (k, w) :: rest =>
      match array_index k with
      | Some m => if (m <? n)%N then (k, w) :: create_index n key v rest
                  else (key, v) :: (k, w) :: rest
      | None => (key, v) :: (k, w) :: rest
      end
  end.

Definition create {V} (key : string) (v : V) (o : Obj V) : Obj V :=
  match array_index key with
  | Some n => create_index n key v o
  | None => o ++ [(key, v)]
  end.

(** [o[key] = v] *)
Definition set {V} (key : string) (v : V) (o : Obj V) : Obj V :=
  if has key o then replace key v o else create key v o.

(** ** [Map]

    A [Map] keeps its entries in insertion order, whatever the keys. *)

Definition Map (V : Type) : Type := list (string * V).

Definition Map_has {V} (key : string) (m : Map V) : bool := has key m.
Definition Map_get {V} (key : string) (m : Map V) : option V := get key m.

(** [m.set(key, v)] *)
Definition Map_set {V} (key : string) (v : V) (m : Map V) : Map V :=
  if has key m then replace key v m else m ++ [(key, v)].

(** [new Map(entries)] *)
Definition Map_new {V} (entries : list (string * V)) : Map V :=
  fold_left (fun m e => Map_set (fst e) (snd e) m) entries [].

(** [Array.from(m.values())] *)
Definition Map_values {V} (m : Map V) : list V := map snd m.

End JS.

Import JS.

Declare Scope result_scope.
Delimit Scope result_scope with result.
Notation "x <- c ;; k" := (bindR c (fun x => k))
  (at level 61, c at next level, right associativity) : result_scope.
Notation "' pat <- c ;; k" := (bindR c (fun x => match x with pat => k end))
  (at level 61, pat pattern, c at next level, right associativity) : result_scope.

(* ================================================================== *)
(** * The [@konstellio/db] package *)
(* ================================================================== *)

(** Modelled from the spec: the column types of [@konstellio/db], whose
    declaration is not part of the sources at hand; the spec lists the
    enumeration as Boolean, Int8/16/32/64, Float32/64, Text, Blob, Date,
    DateTime, and the driver tests add UInt64. *)
Module ColumnType.
Inductive t : Type :=
| Boolean | Int8 | Int16 | Int32 | Int64 | UInt64
| Float32 | Float64 | Text | Blob | Date | DateTime.
End ColumnType.

(** Modelled from the spec: the index types Primary, Unique, Index. *)
Module IndexType.
Inductive t : Type := Primary | Unique | Index.
End IndexType.

Inductive Direction : Type := asc | desc.

(** Modelled from the spec: [q.column(name, type)], of which the schema
    code reads [getName()] and [getType()] only. *)
Record Column : Type := q_column { getName : string; getType : ColumnType.t }.

(** Modelled from the spec: [q.sort(name, direction)]; the direction may
    be left out. *)
Record SortableField : Type := q_sort { name : string; direction : option Direction }.

(** Modelled from the spec: [q.index(handle, type).columns(...columns)]. *)
Record Index : Type :=
  q_index { index_getName : string; index_getType : IndexType.t; getColumns : list SortableField }.

(** Modelled from the spec: a collection reference and its textual
    identity, which joins the namespace and the name with a double
    underscore. *)
Record Collection : Type := q_collection { collection_name : string; namespace : option string }.

Definition Collection_toString (c : Collection) : string :=
  match namespace c with
  | Some ns => ns ++ "__" ++ collection_name c
  | None => collection_name c
  end.

(** Modelled from the spec: [q.createCollection(handle).columns(...).indexes(...)]. *)
Record CreateCollectionQuery : Type :=
  { create_collection : string; create_columns : list Column; create_indexes : list Index }.

(** Modelled from the spec: the sub-operations of an [AlterCollection]
    query. [AddColumn] carries the optional column to copy from. *)
Inductive Change : Type :=
| AddColumn (column : Column) (copyColumn : option string)
| AlterColumn (oldName : string) (column : Column)
| DropColumn (columnName : string)
| AddIndex (index : Index)
| DropIndex (indexName : string).

(** Modelled from the spec: an [AlterCollection] query carries the ordered
    list of its sub-operations; every builder method returns a new query
    with one more sub-operation at the end of the list. *)
Record AlterCollectionQuery : Type :=
  { alter_collection : string; changes : list Change }.

Definition q_alterCollection (handle : string) : AlterCollectionQuery :=
  {| alter_collection := handle; changes := [] |}.

Definition with_change (c : Change) (a : AlterCollectionQuery) : AlterCollectionQuery :=
  {| alter_collection := alter_collection a; changes := push (changes a) c |}.

Definition addColumn (column : Column) (copyColumn : option string) :=
  with_change (AddColumn column copyColumn).
Definition alterColumn (oldName : string) (column : Column) :=
  with_change (AlterColumn oldName column).
Definition dropColumn (columnName : string) := with_change (DropColumn columnName).
Definition addIndex (index : Index) := with_change (AddIndex index).
Definition dropIndex (indexName : string) := with_change (DropIndex indexName).

(** The result of a [DescribeCollection] query. *)
Record DescribeCollectionQueryResult : Type :=
  { collection : Collection; columns : list Column; indexes : list Index }.

(** The queries the schema code sends to the database. *)
Inductive Query : Type :=
| CollectionExists (handle : string)
| DescribeCollection (handle : string)
| CreateCollection (create : CreateCollectionQuery)
| AlterCollection (alter : AlterCollectionQuery).

(** The database as the schema code sees it: the answers of the two
    introspection queries, which are taken to answer always, the type
    comparison of the driver, and whether a DDL query is acknowledged or
    rejected. *)
Record Database : Type :=
  { collectionExists : string -> bool;
    describeCollection : string -> DescribeCollectionQueryResult;
    compareTypes : ColumnType.t -> ColumnType.t -> Z;
    acknowledges : Query -> bool }.

(* ================================================================== *)
(** * The declared schema and the plugin context *)
(* ================================================================== *)

(** Modelled from the spec: the logical schema source supplies, for each
    collection, the declared fields (handle, type, localized flag) and
    the declared indexes (handle, type, map from field to direction); the
    schema code reads [handle], [type] and [localized] of a field,
    [handle], [type] and [fields] of an index. *)
Record Field : Type :=
  { field_handle : string; field_type : string; localized : bool }.

Record SchemaIndex : Type :=
  { sindex_handle : string; sindex_type : string; fields_of : Obj Direction }.

Record Schema : Type :=
  { schema_handle : string; fields : list Field; schema_indexes : list SchemaIndex }.

(** [locales] is the object whose keys are the locale codes. *)
Record PluginInitContext (L : Type) : Type :=
  { database : Database; locales : Obj L }.
Arguments database {L} _.
Arguments locales {L} _.

(** The exceptions of the schema code. *)
Inductive Error : Type :=
| UnknownFieldType (type : string)      (* Unknown field type ${type}. *)
| UnknownColumnType (type : ColumnType.t) (* Unknown field type ${type}. *)
| UnknownIndexType (type : string)      (* Unknown index type ${type}. *)
| UserAborted                           (* User aborted migration. *)
| AdditionsNeedTTY   (* Schema has some new additions that requires your intervention. Please use a TTY terminal. *)
| DeletionsNeedTTY   (* Schema has some new deletions that requires your intervention. Please use a TTY terminal. *)
| PromptFailed                          (* the prompt itself failed *)
| Rejected (query : Query)              (* a query of the final batch was rejected *).

Definition Fallible (A : Type) : Type := Result Error A.

(* ================================================================== *)
(** * Schema descriptions *)
(* ================================================================== *)

Record SchemaDescriptionColumn : Type :=
  { column_handle : string; column_type : string }.

Record SchemaDescriptionIndex : Type :=
  { sdi_handle : string; sdi_type : string; sdi_columns : Obj Direction }.

Record SchemaDescription : Type :=
  { handle : string;
    sd_columns : list SchemaDescriptionColumn;
    sd_indexes : list SchemaDescriptionIndex }.

Inductive SchemaDiff : Type :=
| add_collection (collection : SchemaDescription)
| add_column (collection : SchemaDescription) (column : SchemaDescriptionColumn) (copyColumn : list string)
| drop_column (collection : SchemaDescription) (column : SchemaDescriptionColumn)
| alter_column (collection : SchemaDescription) (column : SchemaDescriptionColumn) (type : string)
| add_index (collection : SchemaDescription) (index : SchemaDescriptionIndex)
| drop_index (collection : SchemaDescription) (index : SchemaDescriptionIndex).

(** ** [matchLocalizedHandle]

    The pattern is [/^([a-zA-Z0-9_-]+)__([a-z]{2}(-[a-zA-Z]{2})?)$/i].
    It is anchored at both ends, so a match splits the whole handle into
    a base, two underscores and a locale of two or of five characters;
    the greedy first group is tried with the two-character locale first. *)

Definition is_letter (c : ascii) : bool :=
  let n := nat_of_ascii c in
  ((97 <=? n)%nat && (n <=? 122)%nat) || ((65 <=? n)%nat && (n <=? 90)%nat).

Definition is_digit (c : ascii) : bool :=
  let n := nat_of_ascii c in (48 <=? n)%nat && (n <=? 57)%nat.

(** [[a-zA-Z0-9_-]] *)
Definition is_handle_char (c : ascii) : bool :=
  is_letter c || is_digit c || Ascii.eqb c "_" || Ascii.eqb c "-".

Fixpoint all_chars (p : ascii -> bool) (s : string) : bool :=
  match s with
  | EmptyString => true
  | String c rest => p c && all_chars p rest
  end.

(** [[a-z]{2}(-[a-zA-Z]{2})?], case-insensitive. *)
Definition is_locale (s : string) : bool :=
  match s with
  | String a (String b EmptyString) => is_letter a && is_letter b
  | String a (String b (String d (String e (String f EmptyString)))) =>
      is_letter a && is_letter b && Ascii.eqb d "-" && is_letter e && is_letter f
  | _ => false
  end.

(** The groups 1 and 2 of a successful match. *)
Record RegExpMatch : Type := { group1 : string; group2 : string }.

(** The match whose locale has [n] characters. *)
Definition match_with_locale (n : nat) (handle : string) : option RegExpMatch :=
  let len := String.length handle in
  if (n + 2 <? len)%nat then
    let base := substring 0 (len - (n + 2)) handle in
    let sep := substring (len - (n + 2)) 2 handle in
    let locale := substring (len - n) n handle in
    if all_chars is_handle_char base && String.eqb sep "__" && is_locale locale
    then Some {| group1 := base; group2 := locale |}
    else None
  else None.

Definition matchLocalizedHandle (handle : string) : option RegExpMatch :=
  match match_with_locale 2 handle with
  | Some m => Some m
  | None => match_with_locale 5 handle
  end.

(** ** The type names of the schema and the column types of the database *)

Definition mapStringToColumnType (type : string) : Fallible ColumnType.t :=
  if String.eqb type "int" then Return ColumnType.Int64
  else if String.eqb type "float" then Return ColumnType.Float64
  else if String.eqb type "text" || String.eqb type "password"
          || String.eqb type "slug" || String.eqb type "html" then Return ColumnType.Text
  else if String.eqb type "date" then Return ColumnType.DateTime
  else if String.eqb type "datetime" then Return ColumnType.DateTime
  else Throw (UnknownFieldType type).

Definition mapStringToIndexType (type : string) : Fallible IndexType.t :=
  if String.eqb type "primary" then Return IndexType.Primary
  else if String.eqb type "unique" then Return IndexType.Unique
  else if String.eqb type "index" then Return IndexType.Index
  else Throw (UnknownIndexType type).

Definition mapColumnTypeToFieldType (type : ColumnType.t) : Fallible string :=
  match type with
  | ColumnType.Int8 | ColumnType.Int16 | ColumnType.Int32 | ColumnType.Int64 => Return "int"
  | ColumnType.Float32 | ColumnType.Float64 => Return "float"
  | ColumnType.Text => Return "text"
  | ColumnType.Date => Return "date"
  | ColumnType.DateTime => Return "datetime"
  | ColumnType.Blob => Return "blob"
  | _ => Throw (UnknownColumnType type)
  end.

Definition mapIndexTypeToString (type : IndexType.t) : string :=
  match type with
  | IndexType.Primary => "primary"
  | IndexType.Unique => "unique"
  | IndexType.Index => "index"
  end.

(** ** [schemaToSchemaDescription] *)

(** [schema.fields.find(f => f.handle === name)] *)
Definition find_field (schema : Schema) (name : string) : option Field :=
  find (fun f => String.eqb (field_handle f) name) (fields schema).

(** [field !== undefined && field.localized === true] *)
Definition is_localized (field : option Field) : bool :=
  match field with
  | Some f => localized f
  | None => false
  end.

(** The [columns] of one copy of a localized index: the inner [reduce]
    over [Object.keys(index.fields)], for the locale [code]. *)
Definition localized_fields (schema : Schema) (index : SchemaIndex) (code : string)
  : Obj Direction :=
  fold_left (fun fields name =>
    let field := find_field schema name in
    match get name (fields_of index) with
    | Some dir =>
        if is_localized field
        then set (name ++ "__" ++ code) dir fields
        else set name dir fields
    | None => fields (* [name] is a key of [index.fields] *)
    end) (keys (fields_of index)) [].

Definition schemaToSchemaDescription {L} (context : PluginInitContext L) (schema : Schema)
  : SchemaDescription :=
  let locales := keys (locales context) in
  {| handle := schema_handle schema;
     sd_columns :=
       fold_left (fun columns field =>
         if String.eqb (field_type field) "relation" then columns
         else if localized field then
           fold_left (fun columns code =>
             push columns {| column_handle := field_handle field ++ "__" ++ code;
                             column_type := field_type field |}) locales columns
         else
           push columns {| column_handle := field_handle field;
                           column_type := field_type field |})
         (fields schema) [];
     sd_indexes :=
       fold_left (fun indexes index =>
         let localized :=
           fold_left (fun localized name =>
             let field := find_field schema name in
             localized || is_localized field) (keys (fields_of index)) false in
         if localized then
           fold_left (fun indexes code =>
             push indexes
               {| sdi_handle := sindex_handle index ++ "__" ++ code;
                  sdi_type := sindex_type index;
                  sdi_columns := localized_fields schema index code |}) locales indexes
         else
           push indexes {| sdi_handle := sindex_handle index;
                           sdi_type := sindex_type index;
                           sdi_columns := fields_of index |})
         (schema_indexes schema) [] |}.

Section Embedding.

(** [Compare.Castable], the bit of the comparison flags that says that
    the values of one type can be converted to the other; the enumeration
    is declared in [@konstellio/db]. *)
Variable Castable : Z.

(** The value of an [IndexType] at run time, which the description of a
    live collection stores as the type of an index. *)
Variable IndexType_value : IndexType.t -> string.

(** ** [databaseDescriptionToSchemaDescription] *)

Definition databaseDescriptionToSchemaDescription {L} (context : PluginInitContext L)
    (description : DescribeCollectionQueryResult) : Fallible SchemaDescription :=
  let locales := keys (locales context) in
  (columns <-
     foldR (fun columns column =>
       (type <- mapColumnTypeToFieldType (getType column) ;;
        Return (push columns {| column_handle := getName column; column_type := type |}))%result)
       (columns description) [] ;;
   Return
     {| handle := Collection_toString (collection description);
        sd_columns := columns;
        sd_indexes :=
          fold_left (fun indexes index =>
            let type := index_getType index in
            let columns := getColumns index in
            let handle := index_getName index in
            let localized :=
              fold_left (fun (localized : bool) (column : SortableField) =>
                let match_ := matchLocalizedHandle (name column) in
                localized || match match_ with Some _ => true | None => false end)
                columns false in
            push indexes
              {| sdi_handle := handle;
                 sdi_type := IndexType_value type;
                 sdi_columns :=
                   fold_left (fun (columns : Obj Direction) (field : SortableField) =>
                     let dir := match direction field with Some d => d | None => asc end in
                     if localized then
                       match matchLocalizedHandle (name field) with
                       | Some m => set (group1 m) dir columns
                       | None => set (name field) dir columns
                       end
                     else set (name field) dir columns) columns [] |})
            (indexes description) [] |})%result.

(* ================================================================== *)
(** * Asynchronous code and the outside world *)
(* ================================================================== *)

(** What the operator answers to a question: one of the keys, or nothing
    (the promise of the prompt is rejected). *)
Inductive Answer : Type := Chosen (key : string) | NoAnswer.

Record Interaction : Type :=
  { question : string; selections : Map string; answer : Answer }.

(** The queries sent to the database and the questions put to the
    operator, each list in the order of the events. *)
Record World : Type :=
  { executed : list Query; asked : list Interaction }.

Definition Async (A : Type) : Type := World -> World * Fallible A.

Definition retA {A} (a : A) : Async A := fun w => (w, Return a).

Definition throwA {A} (e : Error) : Async A := fun w => (w, Throw e).

Definition bindA {A B} (c : Async A) (k : A -> Async B) : Async B :=
  fun w => match c w with
           | (w', Return a) => k a w'
           | (w', Throw e) => (w', Throw e)
           end.

(** A synchronous computation inside an asynchronous function. *)
Definition liftA {A} (r : Fallible A) : Async A := fun w => (w, r).

(** [try { c } catch (err) { throw e }] *)
Definition rethrowA {A} (c : Async A) (e : Error) : Async A :=
  fun w => match c w with
           | (w', Return a) => (w', Return a)
           | (w', Throw _) => (w', Throw e)
           end.

(** A [for] loop whose body awaits. *)
Fixpoint foldA {A B} (body : A -> B -> Async A) (l : list B) (acc : A) : Async A :=
  match l with
  | [] => retA acc
  | x :: rest => bindA (body acc x) (foldA body rest)
  end.

Declare Scope async_scope.
Delimit Scope async_scope with async.
Notation "x <- c ;; k" := (bindA c (fun x => k))
  (at level 61, c at next level, right associativity) : async_scope.
Notation "' pat <- c ;; k" := (bindA c (fun x => match x with pat => k end))
  (at level 61, pat pattern, c at next level, right associativity) : async_scope.

Definition sent (q : Query) (w : World) : World :=
  {| executed := push (executed w) q; asked := asked w |}.

(** [(await database.execute(q.collectionExists(handle))).exists] *)
Definition execute_collectionExists (db : Database) (handle : string) : Async bool :=
  fun w => (sent (CollectionExists handle) w, Return (collectionExists db handle)).

(** [await database.execute(q.describeCollection(handle))] *)
Definition execute_describeCollection (db : Database) (handle : string)
  : Async DescribeCollectionQueryResult :=
  fun w => (sent (DescribeCollection handle) w, Return (describeCollection db handle)).

(** The terminal. What is read from the input stream is what the
    operator answers, knowing the exchange so far. *)
Definition ReadStream : Type := list Interaction -> string -> Map string -> Answer.
Inductive WriteStream : Type := tty.

(** Modelled from the spec: [promptSelection] of the command line module,
    the interactive-choice collaborator: given a prompt and an ordered
    set of (key, label) choices it returns the chosen key or fails. *)
Definition promptSelection (stdin : ReadStream) (stdout : WriteStream)
    (message : string) (choices : Map string) : Async string :=
  fun w =>
    let a := stdin (asked w) message choices in
    ({| executed := executed w;
        asked := push (asked w) {| question := message; selections := choices; answer := a |} |},
     match a with
     | Chosen key => Return key
     | NoAnswer => Throw PromptFailed
     end).

(* ================================================================== *)
(** * [getSchemaDiff] *)
(* ================================================================== *)

(** The callback of [dbSchemaDesc.columns.forEach]; it pushes on [diffs]
    and on [mutedFields]. *)
Definition forEach_dbColumn (db : Database) (schemaDesc : SchemaDescription)
    (st : list SchemaDiff * list string) (dbColumn : SchemaDescriptionColumn)
  : Fallible (list SchemaDiff * list string) :=
  let '(diffs, mutedFields) := st in
  match find (fun column => String.eqb (column_handle column) (column_handle dbColumn))
             (sd_columns schemaDesc) with
  | None => Return (push diffs (drop_column schemaDesc dbColumn), mutedFields)
  | Some column =>
      (declared <- mapStringToColumnType (column_type column) ;;
       live <- mapStringToColumnType (column_type dbColumn) ;;
       if (bitand (compareTypes db declared live) Castable =? 0)%Z then
         Return (push diffs (alter_column schemaDesc dbColumn (column_type column)),
                 push mutedFields (column_handle column))
       else
         Return (diffs, push mutedFields (column_handle column)))%result
  end.

(** The list of columns the operator may copy a new column from. *)
Definition copyColumn_of (dbSchemaDesc : SchemaDescription) (column : SchemaDescriptionColumn)
  : list string :=
  match matchLocalizedHandle (column_handle column) with
  | Some match_ =>
      filter (fun handle =>
                match matchLocalizedHandle handle with
                | Some m2 => String.eqb (group1 m2) (group1 match_)
                | None => false
                end)
             (map column_handle (sd_columns dbSchemaDesc))
  | None => map column_handle (sd_columns dbSchemaDesc)
  end.

(** The callback of [schemaDesc.columns.forEach]. *)
Definition forEach_column (schemaDesc dbSchemaDesc : SchemaDescription)
    (mutedFields : list string) (diffs : list SchemaDiff) (column : SchemaDescriptionColumn)
  : list SchemaDiff :=
  if lacks mutedFields (column_handle column) then
    push diffs (add_column schemaDesc column (copyColumn_of dbSchemaDesc column))
  else diffs.

(** The callback of [dbSchemaDesc.indexes.forEach]. *)
Definition forEach_dbIndex (schemaDesc : SchemaDescription)
    (st : list SchemaDiff * list string) (dbIndex : SchemaDescriptionIndex)
  : list SchemaDiff * list string :=
  let '(diffs, mutedIndexes) := st in
  match find (fun index => String.eqb (sdi_handle index) (sdi_handle dbIndex))
             (sd_indexes schemaDesc) with
  | None => (push diffs (drop_index schemaDesc dbIndex), push mutedIndexes (sdi_handle dbIndex))
  | Some _ => (diffs, push mutedIndexes (sdi_handle dbIndex))
  end.

(** The callback of [schemaDesc.indexes.forEach]. *)
Definition forEach_index (schemaDesc : SchemaDescription)
    (mutedIndexes : list string) (diffs : list SchemaDiff) (index : SchemaDescriptionIndex)
  : list SchemaDiff :=
  if lacks mutedIndexes (sdi_handle index) then push diffs (add_index schemaDesc index)
  else diffs.

(** The body of the loop over the declared schemas. *)
Definition diff_schema {L} (context : PluginInitContext L)
    (diffs : list SchemaDiff) (schema : Schema) : Async (list SchemaDiff) :=
  let database := database context in
  let schemaDesc := schemaToSchemaDescription context schema in
  (exists_ <- execute_collectionExists database (schema_handle schema) ;;
   if negb exists_ then
     retA (push diffs (add_collection schemaDesc))
   else
     desc <- execute_describeCollection database (schema_handle schema) ;;
     dbSchemaDesc <- liftA (databaseDescriptionToSchemaDescription context desc) ;;
     '(diffs, mutedFields) <-
        liftA (foldR (forEach_dbColumn database schemaDesc) (sd_columns dbSchemaDesc) (diffs, [])) ;;
     let diffs :=
       fold_left (forEach_column schemaDesc dbSchemaDesc mutedFields) (sd_columns schemaDesc) diffs in
     let '(diffs, mutedIndexes) :=
       fold_left (forEach_dbIndex schemaDesc) (sd_indexes dbSchemaDesc) (diffs, []) in
     let diffs :=
       fold_left (forEach_index schemaDesc mutedIndexes) (sd_indexes schemaDesc) diffs in
     retA diffs)%async.

Definition getSchemaDiff {L} (context : PluginInitContext L) (schemas : list Schema)
  : Async (list SchemaDiff) :=
  foldA (diff_schema context) schemas [].

(* ================================================================== *)
(** * [executeSchemaMigration] *)
(* ================================================================== *)

(** The three local collections of [executeSchemaMigration]. *)
Record Batch : Type :=
  { createCollections : list CreateCollectionQuery;
    alterCollections : Map AlterCollectionQuery;
    muteNewColumn : list string }.

Definition set_alterCollections (b : Batch) (m : Map AlterCollectionQuery) : Batch :=
  {| createCollections := createCollections b;
     alterCollections := m;
     muteNewColumn := muteNewColumn b |}.

(** [if (alterCollections.has(h) === false) alterCollections.set(h, q.alterCollection(h))] *)
Definition ensure_alter (collectionHandle : string) (m : Map AlterCollectionQuery)
  : Map AlterCollectionQuery :=
  if negb (Map_has collectionHandle m)
  then Map_set collectionHandle (q_alterCollection collectionHandle) m
  else m.

(** [alterCollections.set(h, change(alterCollections.get(h)!))]; the entry
    exists, it has just been ensured. *)
Definition amend_alter (collectionHandle : string)
    (change : AlterCollectionQuery -> AlterCollectionQuery) (m : Map AlterCollectionQuery)
  : Map AlterCollectionQuery :=
  match Map_get collectionHandle m with
  | Some alter => Map_set collectionHandle (change alter) m
  | None => m
  end.

(** [q.column(column.handle, mapStringToColumnType(column.type))] *)
Definition column_of (column : SchemaDescriptionColumn) : Fallible Column :=
  (type <- mapStringToColumnType (column_type column) ;;
   Return (q_column (column_handle column) type))%result.

(** [q.index(index.handle, mapStringToIndexType(index.type)).columns(...columns)]
    with [columns] the sorts read from the keys of [index.columns]. *)
Definition index_of (index : SchemaDescriptionIndex) : Fallible Index :=
  let columns := map (fun name => q_sort name (get name (sdi_columns index)))
                     (keys (sdi_columns index)) in
  (type <- mapStringToIndexType (sdi_type index) ;;
   Return (q_index (sdi_handle index) type columns))%result.

(** [stdin && stdout] *)
Definition terminal (stdin : option ReadStream) (stdout : option WriteStream)
  : option (ReadStream * WriteStream) :=
  match stdin, stdout with
  | Some i, Some o => Some (i, o)
  | _, _ => None
  end.

(** The question about a new column, in the [add_column] branch: which
    column to copy from. [None] stands for [undefined], no copy. *)
Definition choose_copy (stdin : option ReadStream) (stdout : option WriteStream)
    (collectionHandle columnName : string) (copyColumn : list string)
  : Async (option string) :=
  if (0 <? List.length copyColumn)%nat then
    match terminal stdin stdout with
    | Some (stdin, stdout) =>
        let choices :=
          [("empty", ("Leave `" ++ columnName ++ "` empty")%string)]
            ++ map (fun copy =>
                      (copy, ("Copy content from `" ++ collectionHandle ++ "." ++ copy ++ "`")%string))
                   copyColumn
            ++ [("abort", "Abort migration")] in
        (choice <-
           rethrowA
             (promptSelection stdin stdout
                ("Schema has a new field `" ++ columnName ++ "`, how do we initialize it?")
                (Map_new choices))
             UserAborted ;;
         if String.eqb choice "abort" then throwA UserAborted
         else if String.eqb choice "empty" then retA None
         else retA (Some choice))%async
    | None => throwA AdditionsNeedTTY
    end
  else retA None.

(** The question about a column that is no longer declared, in the
    [drop_column] branch. *)
Definition confirm_drop (stdin : ReadStream) (stdout : WriteStream) (columnName : string)
  : Async unit :=
  let choices :=
    [("drop", ("Drop `" ++ columnName ++ "`")%string); ("abort", "Abort migration")] in
  (choice <-
     rethrowA
       (promptSelection stdin stdout
          ("Field `" ++ columnName ++ "` is no longer defined in schema, confirm deletion?")
          (Map_new choices))
       UserAborted ;;
   if String.eqb choice "abort" then throwA UserAborted else retA tt)%async.

(** The body of the loop over the diffs. *)
Definition migrate_diff (stdin : option ReadStream) (stdout : option WriteStream)
    (b : Batch) (diff : SchemaDiff) : Async Batch :=
  match diff with
  | add_collection collection =>
      liftA (columns <- mapR column_of (sd_columns collection) ;;
             indexes <- mapR index_of (sd_indexes collection) ;;
             Return {| createCollections :=
                         push (createCollections b)
                              {| create_collection := handle collection;
                                 create_columns := columns;
                                 create_indexes := indexes |};
                       alterCollections := alterCollections b;
                       muteNewColumn := muteNewColumn b |})%result
  | add_column collection column copyColumn =>
      let collectionHandle := handle collection in
      let columnName := (collectionHandle ++ "." ++ column_handle column)%string in
      if lacks (muteNewColumn b) columnName then
        let alters := ensure_alter collectionHandle (alterCollections b) in
        (choice <- choose_copy stdin stdout collectionHandle columnName copyColumn ;;
         new <- liftA (column_of column) ;;
         retA (set_alterCollections b
                 (amend_alter collectionHandle (addColumn new choice) alters)))%async
      else retA b
  | alter_column collection column type =>
      let collectionHandle := handle collection in
      let alters := ensure_alter collectionHandle (alterCollections b) in
      (new <- liftA (column_of {| column_handle := column_handle column; column_type := type |}) ;;
       retA (set_alterCollections b
               (amend_alter collectionHandle (alterColumn (column_handle column) new) alters)))%async
  | drop_column collection column =>
      match terminal stdin stdout with
      | Some (stdin, stdout) =>
          let collectionHandle := handle collection in
          let columnName := (collectionHandle ++ "." ++ column_handle column)%string in
          (_ <- confirm_drop stdin stdout columnName ;;
           let alters := ensure_alter collectionHandle (alterCollections b) in
           retA (set_alterCollections b
                   (amend_alter collectionHandle (dropColumn (column_handle column)) alters)))%async
      | None => throwA DeletionsNeedTTY
      end
  | add_index collection index =>
      let collectionHandle := handle collection in
      let alters := ensure_alter collectionHandle (alterCollections b) in
      (new <- liftA (index_of index) ;;
       retA (set_alterCollections b
               (amend_alter collectionHandle (addIndex new) alters)))%async
  | drop_index collection index =>
      let collectionHandle := handle collection in
      let alters := ensure_alter collectionHandle (alterCollections b) in
      retA (set_alterCollections b
              (amend_alter collectionHandle (dropIndex (sdi_handle index)) alters))
  end.

(** The queries of the batch, in the order in which they are sent. *)
Definition queries_of (b : Batch) : list Query :=
  map CreateCollection (createCollections b)
    ++ map AlterCollection (Map_values (alterCollections b)).

(** [await Promise.all(queries)]: every query of the batch is sent, and
    the whole fails when one of them is rejected. *)
Definition dispatch (db : Database) (queries : list Query) : Async unit :=
  fun w =>
    ({| executed := executed w ++ queries; asked := asked w |},
     match find (fun q => negb (acknowledges db q)) queries with
     | Some q => Throw (Rejected q)
     | None => Return tt
     end).

Definition executeSchemaMigration {L} (context : PluginInitContext L) (diffs : list SchemaDiff)
    (stdin : option ReadStream) (stdout : option WriteStream) : Async unit :=
  let start := {| createCollections := []; alterCollections := []; muteNewColumn := [] |} in
  let diffs := JS.sort (fun a b => 0%Z) diffs in
  (b <- foldA (migrate_diff stdin stdout) diffs start ;;
   dispatch (database context) (queries_of b))%async.

End Embedding.

(* ================================================================== *)
(** * The words of the specification *)
(* ================================================================== *)

(** ** Expansion of localized fields and indexes *)

(** The columns one declared field stands for. *)
Definition expand_field (locales : list string) (field : Field) : list SchemaDescriptionColumn :=
  if String.eqb (field_type field) "relation" then []
  else if localized field then
    map (fun code => {| column_handle := field_handle field ++ "__" ++ code;
                        column_type := field_type field |}) locales
  else [{| column_handle := field_handle field; column_type := field_type field |}].

(** The index references at least one localized field. *)
Definition references_localized (schema : Schema) (index : SchemaIndex) : bool :=
  existsb (fun name => is_localized (find_field schema name)) (keys (fields_of index)).


(** The indexes one declared index stands for. *)
Definition expand_index (locales : list string) (schema : Schema) (index : SchemaIndex)
  : list SchemaDescriptionIndex :=
  if references_localized schema index then
    map (fun code => {| sdi_handle := sindex_handle index ++ "__" ++ code;
                        sdi_type := sindex_type index;
                        sdi_columns := localized_fields schema index code |}) locales
  else [{| sdi_handle := sindex_handle index;
           sdi_type := sindex_type index;
           sdi_columns := fields_of index |}].

(** ** The diffs of one declared collection *)

(** What the loop over the declared columns emits, among [columns]. *)
Definition columns_to_add (schemaDesc dbSchemaDesc : SchemaDescription)
    (mutedFields : list string) (columns : list SchemaDescriptionColumn) : list SchemaDiff :=
  flat_map (fun column =>
              if lacks mutedFields (column_handle column)
              then [add_column schemaDesc column (copyColumn_of dbSchemaDesc column)]
              else []) columns.

(** What the loop over the live indexes emits. *)
Definition indexes_to_drop (schemaDesc dbSchemaDesc : SchemaDescription) : list SchemaDiff :=
  flat_map (fun dbIndex =>
              match find (fun index => String.eqb (sdi_handle index) (sdi_handle dbIndex))
                         (sd_indexes schemaDesc) with
              | None => [drop_index schemaDesc dbIndex]
              | Some _ => []
              end) (sd_indexes dbSchemaDesc).

(** What the loop over the declared indexes emits. *)
Definition indexes_to_add (schemaDesc dbSchemaDesc : SchemaDescription) : list SchemaDiff :=
  flat_map (fun index =>
              if lacks (map sdi_handle (sd_indexes dbSchemaDesc)) (sdi_handle index)
              then [add_index schemaDesc index]
              else []) (sd_indexes schemaDesc).

(** The diffs of a collection that exists, loop after loop: what the
    loop over the live columns emits, then the columns to add, then the
    indexes to drop, then the indexes to add. *)
Definition existing_collection_diffs (Castable : Z) (IndexType_value : IndexType.t -> string)
    {L} (context : PluginInitContext L) (schema : Schema) : Fallible (list SchemaDiff) :=
  let db := database context in
  let schemaDesc := schemaToSchemaDescription context schema in
  (dbSchemaDesc <- databaseDescriptionToSchemaDescription IndexType_value context
                     (describeCollection db (schema_handle schema)) ;;
   each <- mapR (forEach_dbColumn Castable db schemaDesc ([], [])) (sd_columns dbSchemaDesc) ;;
   Return (concat (map fst each)
           ++ columns_to_add schemaDesc dbSchemaDesc (concat (map snd each))
                (sd_columns schemaDesc)
           ++ indexes_to_drop schemaDesc dbSchemaDesc
           ++ indexes_to_add schemaDesc dbSchemaDesc))%result.

(** [each] holds what the loop over the live columns emits and mutes
    for each of them. *)
Definition each_of (Castable : Z) (db : Database) (schemaDesc : SchemaDescription)
    (dbColumns : list SchemaDescriptionColumn)
    (each : list (list SchemaDiff * list string)) : Prop :=
  Forall2 (fun x r => forEach_dbColumn Castable db schemaDesc ([], []) x = Return r)
          dbColumns each.

(** [segment] is what the run of [getSchemaDiff] over the schemas
    [pre ++ schema :: post] emits while it handles [schema], from the
    world [w1] to the world [w2]: the diffs of the run are those of
    [pre], then [segment], then those of [post]. *)
Definition emitted_for (Castable : Z) (IndexType_value : IndexType.t -> string)
    {L} (context : PluginInitContext L) (pre : list Schema) (schema : Schema) (post : list Schema)
    (w w1 w2 : World) (segment : list SchemaDiff) : Prop :=
  exists before after w3,
    getSchemaDiff Castable IndexType_value context pre w = (w1, Return before) /\
    getSchemaDiff Castable IndexType_value context [schema] w1 = (w2, Return segment) /\
    getSchemaDiff Castable IndexType_value context post w2 = (w3, Return after) /\
    getSchemaDiff Castable IndexType_value context (pre ++ schema :: post) w
      = (w3, Return (before ++ segment ++ after)).

(** The column a column-level diff is about. *)
Definition diff_column (d : SchemaDiff) : option SchemaDescriptionColumn :=
  match d with
  | add_column _ column _ | drop_column _ column | alter_column _ column _ => Some column
  | _ => None
  end.

(** [d] is a column-level diff for the column handle [h]. *)
Definition on_column (h : string) (d : SchemaDiff) : bool :=
  match diff_column d with
  | Some column => String.eqb (column_handle column) h
  | None => false
  end.

Definition is_add_collection (d : SchemaDiff) : bool :=
  match d with add_collection _ => true | _ => false end.
Definition is_add_column (d : SchemaDiff) : bool :=
  match d with add_column _ _ _ => true | _ => false end.
Definition is_drop_column (d : SchemaDiff) : bool :=
  match d with drop_column _ _ => true | _ => false end.
Definition is_alter_column (d : SchemaDiff) : bool :=
  match d with alter_column _ _ _ => true | _ => false end.

(** The handle of the collection a diff is about. *)
Definition diff_collection (d : SchemaDiff) : string :=
  match d with
  | add_collection c | add_column c _ _ | drop_column c _ | alter_column c _ _
  | add_index c _ | drop_index c _ => handle c
  end.

(** ** Copy candidates *)

(** The base of a handle that has the form of a localized one. *)
Definition locale_base (h : string) : option string :=
  option_map group1 (matchLocalizedHandle h).

(** The live columns a new column may be copied from: those with the
    locale base of the new column when it has one, all of them otherwise. *)
Definition copy_candidates (live : list string) (new : string) : list string :=
  match locale_base new with
  | Some base =>
      filter (fun h => match locale_base h with
                       | Some b => String.eqb b base
                       | None => false
                       end) live
  | None => live
  end.

(** ** A small blog, for the worked examples *)

Definition nothing_yet : World := {| executed := []; asked := [] |}.

(** The flags of a comparison: bit 0 says equal, bit 1 castable. *)
Definition blog_Castable : Z := 2.

Definition blog_compareTypes (a b : ColumnType.t) : Z :=
  match a, b with
  | ColumnType.Int64, ColumnType.Int64 | ColumnType.Text, ColumnType.Text
  | ColumnType.Float64, ColumnType.Float64 | ColumnType.DateTime, ColumnType.DateTime => 3
  | ColumnType.Float64, ColumnType.Int64 => 2
  | _, _ => 0
  end.

(** The collection [Post] exists, with the columns [id], [title] and
    [legacy] and a primary index; no other collection exists. *)
Definition blog_database : Database :=
  {| collectionExists := fun h => String.eqb h "Post";
     describeCollection := fun h =>
       {| collection := q_collection h None;
          columns := [q_column "id" ColumnType.Int64; q_column "title" ColumnType.Text;
                      q_column "legacy" ColumnType.Text];
          indexes := [q_index "Post_id" IndexType.Primary [q_sort "id" (Some asc)]] |};
     compareTypes := blog_compareTypes;
     acknowledges := fun _ => true |}.

Definition blog : PluginInitContext unit :=
  {| database := blog_database; locales := [("en", tt); ("fr", tt)] |}.

(** The declared [Post]: [title] is now an integer, [summary] is new,
    [legacy] is gone. *)
Definition Post : Schema :=
  {| schema_handle := "Post";
     fields := [ {| field_handle := "id"; field_type := "int"; localized := false |};
                 {| field_handle := "title"; field_type := "int"; localized := false |};
                 {| field_handle := "summary"; field_type := "text"; localized := false |};
                 {| field_handle := "author"; field_type := "relation"; localized := false |} ];
     schema_indexes :=
       [ {| sindex_handle := "Post_id"; sindex_type := "primary"; fields_of := [("id", asc)] |} ] |}.

(** A declared collection that does not exist yet. *)
Definition Tag : Schema :=
  {| schema_handle := "Tag";
     fields := [ {| field_handle := "id"; field_type := "int"; localized := false |};
                 {| field_handle := "label"; field_type := "text"; localized := true |} ];
     schema_indexes :=
       [ {| sindex_handle := "Tag_label"; sindex_type := "unique";
            fields_of := [("label", asc)] |} ] |}.

(** The description of the live [Post]. *)
Definition Post_live : SchemaDescription :=
  {| handle := "Post";
     sd_columns := [ {| column_handle := "id"; column_type := "int" |};
                     {| column_handle := "title"; column_type := "text" |};
                     {| column_handle := "legacy"; column_type := "text" |} ];
     sd_indexes := [ {| sdi_handle := "Post_id"; sdi_type := "primary";
                        sdi_columns := [("id", asc)] |} ] |}.

(** The diffs of [Post]: [title] changes its type, [legacy] goes,
    [summary] comes and may be copied from any live column. *)
Definition Post_segment : list SchemaDiff :=
  let declared := schemaToSchemaDescription blog Post in
  [ alter_column declared {| column_handle := "title"; column_type := "text" |} "int";
    drop_column declared {| column_handle := "legacy"; column_type := "text" |};
    add_column declared {| column_handle := "summary"; column_type := "text" |}
      ["id"; "title"; "legacy"] ].

(** The world once [Post] has been looked at. *)
Definition Post_described : World :=
  {| executed := [CollectionExists "Post"; DescribeCollection "Post"]; asked := [] |}.

(** ** A wiki whose schema declares a column twice

    The field [title] is localized and the only locale is [en], so it
    stands for the column [title__en]; the field [title__en] is declared
    as well. The live collection has the column [id] only. *)

Definition wiki_database : Database :=
  {| collectionExists := fun h => String.eqb h "Page";
     describeCollection := fun h =>
       {| collection := q_collection h None;
          columns := [q_column "id" ColumnType.Int64];
          indexes := [] |};
     compareTypes := blog_compareTypes;
     acknowledges := fun _ => true |}.

Definition wiki : PluginInitContext unit :=
  {| database := wiki_database; locales := [("en", tt)] |}.

Definition Page : Schema :=
  {| schema_handle := "Page";
     fields := [ {| field_handle := "id"; field_type := "int"; localized := false |};
                 {| field_handle := "title"; field_type := "text"; localized := true |};
                 {| field_handle := "title__en"; field_type := "text"; localized := false |} ];
     schema_indexes := [] |}.

Definition Page_segment : list SchemaDiff :=
  let declared := schemaToSchemaDescription wiki Page in
  [ add_column declared {| column_handle := "title__en"; column_type := "text" |} [];
    add_column declared {| column_handle := "title__en"; column_type := "text" |} [] ].

Definition Page_described : World :=
  {| executed := [CollectionExists "Page"; DescribeCollection "Page"]; asked := [] |}.

(** ** Logical and live descriptions *)

(** The logical description of a declared schema: one column for each
    field that is not a relation, under the handle of the field, and the
    declared indexes. *)
Definition logical_description (schema : Schema) : SchemaDescription :=
  {| handle := schema_handle schema;
     sd_columns :=
       flat_map (fun field =>
                   if String.eqb (field_type field) "relation" then []
                   else [{| column_handle := field_handle field;
                            column_type := field_type field |}]) (fields schema);
     sd_indexes :=
       map (fun index => {| sdi_handle := sindex_handle index;
                            sdi_type := sindex_type index;
                            sdi_columns := fields_of index |}) (schema_indexes schema) |}.

(** The live description that equals a description: the columns and the
    indexes of the collection that [executeSchemaMigration] creates from
    it. *)
Definition live_description (description : SchemaDescription)
  : Fallible DescribeCollectionQueryResult :=
  (columns <- mapR column_of (sd_columns description) ;;
   indexes <- mapR index_of (sd_indexes description) ;;
   Return {| collection := q_collection (handle description) None;
             columns := columns;
             indexes := indexes |})%result.

(** A collection of news with a localized title and an index on it. *)
Definition News : Schema :=
  {| schema_handle := "News";
     fields := [ {| field_handle := "title"; field_type := "text"; localized := true |} ];
     schema_indexes :=
       [ {| sindex_handle := "News_title"; sindex_type := "index";
            fields_of := [("title", asc)] |} ] |}.

(** The live collection created from the expansion of [News] for the
    locales [en] and [fr]. *)
Definition News_live : DescribeCollectionQueryResult :=
  {| collection := q_collection "News" None;
     columns := [q_column "title__en" ColumnType.Text; q_column "title__fr" ColumnType.Text];
     indexes := [q_index "News_title__en" IndexType.Index [q_sort "title__en" (Some asc)];
                 q_index "News_title__fr" IndexType.Index [q_sort "title__fr" (Some asc)]] |}.

(** What [databaseDescriptionToSchemaDescription] makes of it. *)
Definition News_collapsed : SchemaDescription :=
  {| handle := "News";
     sd_columns := [ {| column_handle := "title__en"; column_type := "text" |};
                     {| column_handle := "title__fr"; column_type := "text" |} ];
     sd_indexes := [ {| sdi_handle := "News_title__en"; sdi_type := "index";
                        sdi_columns := [("title", asc)] |};
                     {| sdi_handle := "News_title__fr"; sdi_type := "index";
                        sdi_columns := [("title", asc)] |} ] |}.

(** ** Diffs and the queries built from them *)

(** [d] is a diff other than [add_collection] about the collection [h]. *)
Definition targets (h : string) (d : SchemaDiff) : bool :=
  negb (is_add_collection d) && String.eqb (diff_collection d) h.

(** The [CreateCollection] query [q] is the one built from the
    description of an [add_collection] diff. *)
Definition creates (d : SchemaDiff) (q : CreateCollectionQuery) : Prop :=
  match d with
  | add_collection collection =>
      create_collection q = handle collection /\
      mapR column_of (sd_columns collection) = Return (create_columns q) /\
      mapR index_of (sd_indexes collection) = Return (create_indexes q)
  | _ => False
  end.

(** The sub-operation [c] is the one a diff is folded into. A new column
    without copy candidates is added empty. *)
Definition realises (d : SchemaDiff) (c : Change) : Prop :=
  match d, c with
  | add_column _ column copyColumn, AddColumn new choice =>
      column_of column = Return new /\ (copyColumn = [] -> choice = None)
  | alter_column _ column type, AlterColumn oldName new =>
      oldName = column_handle column /\
      column_of {| column_handle := column_handle column; column_type := type |} = Return new
  | drop_column _ column, DropColumn columnName => columnName = column_handle column
  | add_index _ index, AddIndex new => index_of index = Return new
  | drop_index _ index, DropIndex indexName => indexName = sdi_handle index
  | _, _ => False
  end.

(** The sub-operations gathered so far for the collection [h]. *)
Definition changes_for (h : string) (m : Map AlterCollectionQuery) : list Change :=
  match Map_get h m with
  | Some alter => changes alter
  | None => []
  end.

(** An interactive decision that aborts the migration: the operator
    chooses [abort], or the prompt fails. *)
Definition aborts (x : Interaction) : Prop :=
  answer x = Chosen "abort" \/ answer x = NoAnswer.

(** The locals of [executeSchemaMigration] before the loop. *)
Definition empty_batch : Batch :=
  {| createCollections := []; alterCollections := []; muteNewColumn := [] |}.

(** The batch was sent: the function returned, or the database rejected
    one of its queries. *)
Definition dispatched (r : Fallible unit) : Prop :=
  r = Return tt \/ exists q, r = Throw (Rejected q).

(** What one turn of the loop over the diffs makes of the batch. *)
Definition folded (b : Batch) (d : SchemaDiff) (b' : Batch) : Prop :=
  muteNewColumn b' = [] /\
  if is_add_collection d then
    alterCollections b' = alterCollections b /\
    exists q, creates d q /\ createCollections b' = push (createCollections b) q
  else
    createCollections b' = createCollections b /\
    exists c, realises d c /\
      alterCollections b' =
        amend_alter (diff_collection d) (with_change c)
          (ensure_alter (diff_collection d) (alterCollections b)).

(** An operator who confirms every deletion and leaves every new column
    empty. *)
Definition agreeing_operator : ReadStream :=
  fun _ _ choices => if Map_has "drop" choices then Chosen "drop" else Chosen "empty".

(** An operator who confirms every deletion and has every new column
    copied from the column [legacy]. *)
Definition copying_operator : ReadStream :=
  fun _ _ choices => if Map_has "drop" choices then Chosen "drop" else Chosen "legacy".

(** An operator who aborts at the first question. *)
Definition aborting_operator : ReadStream := fun _ _ _ => Chosen "abort".

(** Between the worlds [w] and [w'] no query was sent and only questions
    were asked, none without a terminal; an aborting answer makes the
    result [r] the abort error; and [r] is not the rejection of a query. *)
Definition only_asked (stdin : option ReadStream) (stdout : option WriteStream)
    (w w' : World) {A} (r : Fallible A) : Prop :=
  executed w' = executed w /\
  exists new,
    asked w' = asked w ++ new /\
    (terminal stdin stdout = None -> new = []) /\
    ((exists x, In x new /\ aborts x) -> r = Throw UserAborted) /\
    (forall q, r <> Throw (Rejected q)).

(** The entries of the map of [AlterCollection] queries have distinct
    keys, and each query is about the collection it is filed under. *)
Definition well_keyed (m : Map AlterCollectionQuery) : Prop :=
  NoDup (keys m) /\ Forall (fun e => alter_collection (snd e) = fst e) m.

(** ** Migrating the blog *)

(** What [getSchemaDiff] returns for the declared [Post] and [Tag]. *)
Definition blog_diffs : list SchemaDiff :=
  Post_segment ++ [add_collection (schemaToSchemaDescription blog Tag)].

(** The world after the migration of the blog with an operator who
    agrees to everything. *)
Definition blog_migrated : World :=
  Eval vm_compute in
    fst (executeSchemaMigration blog blog_diffs (Some agreeing_operator) (Some tty) nothing_yet).

(** The world after the migration of [Post] with an operator who
    aborts. *)
Definition blog_aborted : World :=
  Eval vm_compute in
    fst (executeSchemaMigration blog Post_segment (Some aborting_operator) (Some tty) nothing_yet).

(** A new column for [Post] that has nothing to be copied from. *)
Definition summary_alone : list SchemaDiff :=
  [ add_column (schemaToSchemaDescription blog Post)
      {| column_handle := "summary"; column_type := "text" |} [] ].

(** A diff that cannot be handled without an operator. *)
Definition needs_operator (d : SchemaDiff) : Prop :=
  match d with
  | drop_column _ _ => True
  | add_column _ _ copyColumn => copyColumn <> []
  | _ => False
  end.

(* ================================================================== *)
(** * More of the schema code *)
(* ================================================================== *)

(** ** [defaultIndexHandle] *)

(** [array.join(separator)] on an array of strings. *)
Fixpoint join (separator : string) (array : list string) : string :=
  match array with
  | [] => EmptyString
  | [x] => x
  | x :: rest => (x ++ separator ++ join separator rest)%string
  end.

(** [handle] is [None] for [undefined]; the empty string is as falsy as
    [undefined]. *)
Definition defaultIndexHandle (collection : string) (handle : option string)
    (type : IndexType.t) (fields : Obj Direction) : string :=
  let default :=
    (collection ++ "_" ++ join "_" (keys fields) ++ "_"
       ++ match type with
          | IndexType.Primary => "pk"
          | IndexType.Unique => "uniq"
          | IndexType.Index => "idx"
          end)%string in
  match handle with
  | Some h => if String.eqb h EmptyString then default else h
  | None => default
  end.

(** ** More words about diffs *)

Definition is_drop_index (d : SchemaDiff) : bool :=
  match d with drop_index _ _ => true | _ => false end.
Definition is_add_index (d : SchemaDiff) : bool :=
  match d with add_index _ _ => true | _ => false end.

(** The description a diff carries. *)
Definition diff_description (d : SchemaDiff) : SchemaDescription :=
  match d with
  | add_collection c | add_column c _ _ | drop_column c _ | alter_column c _ _
  | add_index c _ | drop_index c _ => c
  end.

(** The diff is decided by the operator: a [drop_column], or an
    [add_column] with copy candidates. *)
Definition needs_operatorb (d : SchemaDiff) : bool :=
  match d with
  | drop_column _ _ => true
  | add_column _ _ copyColumn => (0 <? List.length copyColumn)%nat
  | _ => false
  end.

(** The queries [getSchemaDiff] sends for one declared schema. *)
Definition introspection (db : Database) (schema : Schema) : list Query :=
  CollectionExists (schema_handle schema)
  :: (if collectionExists db (schema_handle schema)
      then [DescribeCollection (schema_handle schema)] else []).

(** A live column is in step with the declared description: a declared
    column bears its handle, both types are known, and the comparison of
    the declared with the live type has the flag [Castable]. *)
Definition in_step (Castable : Z) (db : Database) (schemaDesc : SchemaDescription)
    (dbColumn : SchemaDescriptionColumn) : Prop :=
  exists column declared live,
    find (fun column => String.eqb (column_handle column) (column_handle dbColumn))
         (sd_columns schemaDesc) = Some column /\
    mapStringToColumnType (column_type column) = Return declared /\
    mapStringToColumnType (column_type dbColumn) = Return live /\
    bitand (compareTypes db declared live) Castable <> 0%Z.

(** ** More worked examples *)

(** A declaration of [Post] that is the live collection. *)
Definition Post_unchanged : Schema :=
  {| schema_handle := "Post";
     fields := [ {| field_handle := "id"; field_type := "int"; localized := false |};
                 {| field_handle := "title"; field_type := "html"; localized := false |};
                 {| field_handle := "legacy"; field_type := "text"; localized := false |} ];
     schema_indexes :=
       [ {| sindex_handle := "Post_id"; sindex_type := "primary"; fields_of := [("id", asc)] |} ] |}.

(** A database whose collection [Flag] has a boolean column and a blob. *)
Definition flag_database : Database :=
  {| collectionExists := fun _ => true;
     describeCollection := fun h =>
       {| collection := q_collection h None;
          columns := if String.eqb h "Flag"
                     then [q_column "id" ColumnType.Int64; q_column "raised" ColumnType.Boolean]
                     else [q_column "id" ColumnType.Int64; q_column "data" ColumnType.Blob];
          indexes := [] |};
     compareTypes := blog_compareTypes;
     acknowledges := fun q => match q with CreateCollection _ => true | _ => false end |}.

Definition flags : PluginInitContext unit :=
  {| database := flag_database; locales := [("en", tt)] |}.

Definition Flag : Schema :=
  {| schema_handle := "Flag";
     fields := [ {| field_handle := "id"; field_type := "int"; localized := false |} ];
     schema_indexes := [] |}.

Definition File : Schema :=
  {| schema_handle := "File";
     fields := [ {| field_handle := "id"; field_type := "int"; localized := false |};
                 {| field_handle := "data"; field_type := "text"; localized := false |} ];
     schema_indexes := [] |}.

(** A schema with a field type [mapStringToColumnType] does not know. *)
Definition Place : Schema :=
  {| schema_handle := "Place";
     fields := [ {| field_handle := "id"; field_type := "int"; localized := false |};
                 {| field_handle := "position"; field_type := "geo"; localized := false |} ];
     schema_indexes := [] |}.

(** ** The columns of a described index *)



(* ================================================================== *)
(** * Properties *)
(* ================================================================== *)

(** ** Arrays and objects *)

Lemma fold_left_emit {A B} (f : list A -> B -> list A) (g : B -> list A) :
  (forall acc x, f acc x = acc ++ g x) ->
  forall l a, fold_left f l a = a ++ flat_map g l.
Proof.
  intros Hf l; induction l as [|x l IH]; intros a; simpl.
  - now rewrite app_nil_r.
  - rewrite IH, Hf, <- app_assoc. reflexivity.
Qed.

Lemma fold_left_push_map {A B} (mk : B -> A) (l : list B) (a : list A) :
  fold_left (fun acc x => push acc (mk x)) l a = a ++ map mk l.
Proof.
  rewrite (fold_left_emit _ (fun x => [mk x])) by reflexivity.
  assert (H : flat_map (fun x => [mk x]) l = map mk l)
    by (induction l; simpl; congruence).
  now rewrite H.
Qed.

Lemma fold_left_orb {B} (p : B -> bool) (l : list B) (b : bool) :
  fold_left (fun acc x => acc || p x) l b = b || existsb p l.
Proof.
  revert b; induction l as [|x l IH]; intros b; simpl.
  - now rewrite orb_false_r.
  - rewrite IH. now rewrite orb_assoc.
Qed.

Lemma insert_sorted_noop {A} (x : A) (l : list A) :
  insert_sorted (fun _ _ => 0%Z) x l = l ++ [x].
Proof. induction l as [|y l IH]; simpl; [reflexivity | now rewrite IH]. Qed.

(** Sorting with a comparator that always answers 0 changes nothing. *)
Lemma sort_noop {A} (l : list A) : JS.sort (fun _ _ => 0%Z) l = l.
Proof.
  unfold JS.sort.
  rewrite (fold_left_emit _ (fun x => [x])).
  - simpl. induction l; simpl; congruence.
  - intros acc x. apply insert_sorted_noop.
Qed.

Lemma has_true_iff {V} (key : string) (o : Obj V) :
  has key o = true <-> In key (keys o).
Proof.
  unfold has. induction o as [|[k w] o IH]; simpl.
  - split; [discriminate | tauto].
  - destruct (String.eqb_spec k key) as [->|Hne].
    + split; auto.
    + rewrite IH. split; [auto | intros [H|H]; [contradiction | exact H]].
Qed.


Lemma keys_replace {V} (key : string) (v : V) (o : Obj V) :
  keys (replace key v o) = keys o.
Proof.
  induction o as [|[k w] o IH]; simpl; [reflexivity|].
  destruct (String.eqb k key); simpl; [reflexivity | now rewrite IH].
Qed.

Lemma get_replace {V} (key key' : string) (v : V) (o : Obj V) :
  has key o = true ->
  get key' (replace key v o) = if String.eqb key key' then Some v else get key' o.
Proof.
  unfold has. induction o as [|[k w] o IH]; simpl; [discriminate|].
  destruct (String.eqb_spec k key) as [->|Hne]; intros H; simpl.
  - destruct (String.eqb_spec key key'); reflexivity.
  - rewrite (IH H).
    destruct (String.eqb_spec k key'), (String.eqb_spec key key'); congruence.
Qed.



Lemma get_app_new {V} (key key' : string) (v : V) (o : Obj V) :
  get key o = None ->
  get key' (o ++ [(key, v)]) = if String.eqb key key' then Some v else get key' o.
Proof.
  induction o as [|[k w] o IH]; simpl.
  - reflexivity.
  - destruct (String.eqb_spec k key) as [->|Hne]; [discriminate|]. intros H.
    rewrite (IH H).
    destruct (String.eqb_spec k key'), (String.eqb_spec key key'); congruence.
Qed.

Lemma has_false_get {V} (key : string) (o : Obj V) : has key o = false -> get key o = None.
Proof. unfold has. destruct (get key o); [discriminate | reflexivity]. Qed.



(** Reading an entry of a [Map] after [set]. *)
Lemma Map_get_set {V} (key key' : string) (v : V) (m : Map V) :
  Map_get key' (Map_set key v m) = if String.eqb key key' then Some v else Map_get key' m.
Proof.
  unfold Map_get, Map_set. destruct (has key m) eqn:Hhas.
  - now apply get_replace.
  - apply get_app_new. now apply has_false_get.
Qed.

(** ** Handles of localized columns, on examples *)

Example matchLocalizedHandle_examples :
  map matchLocalizedHandle
      ["title__en"; "title__en-US"; "a__b__FR"; "title"; "__en"; "title__e1"; "ti tle__en";
       "title__en_US"]
  = [Some {| group1 := "title"; group2 := "en" |};
     Some {| group1 := "title"; group2 := "en-US" |};
     Some {| group1 := "a__b"; group2 := "FR" |};
     None; None; None; None; None].
Proof. reflexivity. Qed.

Example copy_candidates_of_a_localized_column :
  copy_candidates ["id"; "title__en"; "slug__en"; "title"] "title__fr" = ["title__en"].
Proof. reflexivity. Qed.

Example copy_candidates_of_a_plain_column :
  copy_candidates ["id"; "title__en"; "slug__en"] "summary" = ["id"; "title__en"; "slug__en"].
Proof. reflexivity. Qed.

(** Array indices come first among the keys of an object. *)
Example keys_of_an_object :
  keys (set "1" desc (set "b" asc (set "10" asc (set "a" asc (set "b" desc [])))))
  = ["1"; "10"; "b"; "a"].
Proof. reflexivity. Qed.

(** ** Expansion of a declared schema *)



(** ** The loops of [getSchemaDiff] *)

Section DiffLoops.

Variable Castable : Z.
Variable IndexType_value : IndexType.t -> string.

(** The loops only push on [diffs] and on the muted handles. *)
Lemma forEach_dbColumn_pushes (db : Database) (schemaDesc : SchemaDescription)
    (diffs : list SchemaDiff) (muted : list string) (dbColumn : SchemaDescriptionColumn) :
  forEach_dbColumn Castable db schemaDesc (diffs, muted) dbColumn =
  match forEach_dbColumn Castable db schemaDesc ([], []) dbColumn with
  | Return (d, m) => Return (diffs ++ d, muted ++ m)
  | Throw e => Throw e
  end.
Proof.
  unfold forEach_dbColumn, push.
  destruct (find _ _) as [column|]; [|simpl; now rewrite app_nil_r].
  destruct (mapStringToColumnType (column_type column)); [|reflexivity]; simpl.
  destruct (mapStringToColumnType (column_type dbColumn)); [|reflexivity]; simpl.
  destruct (_ =? 0)%Z; simpl; now rewrite ?app_nil_r.
Qed.

Lemma forEach_dbColumn_fold (db : Database) (schemaDesc : SchemaDescription)
    (dbColumns : list SchemaDescriptionColumn) :
  forall diffs muted,
    foldR (forEach_dbColumn Castable db schemaDesc) dbColumns (diffs, muted) =
    match mapR (forEach_dbColumn Castable db schemaDesc ([], [])) dbColumns with
    | Return each => Return (diffs ++ concat (map fst each), muted ++ concat (map snd each))
    | Throw e => Throw e
    end.
Proof.
  induction dbColumns as [|c cols IH]; intros diffs muted; cbn [foldR mapR].
  - simpl. now rewrite !app_nil_r.
  - rewrite forEach_dbColumn_pushes.
    destruct (forEach_dbColumn Castable db schemaDesc ([], []) c) as [[d m]|e]; cbn [bindR];
      [|reflexivity].
    rewrite IH.
    destruct (mapR _ cols) as [each|e]; simpl; [|reflexivity].
    now rewrite !app_assoc.
Qed.

Lemma forEach_dbIndex_fold (schemaDesc : SchemaDescription)
    (dbIndexes : list SchemaDescriptionIndex) :
  forall diffs muted,
    fold_left (forEach_dbIndex schemaDesc) dbIndexes (diffs, muted) =
    (diffs ++ flat_map (fun dbIndex =>
                 match find (fun index => String.eqb (sdi_handle index) (sdi_handle dbIndex))
                            (sd_indexes schemaDesc) with
                 | None => [drop_index schemaDesc dbIndex]
                 | Some _ => []
                 end) dbIndexes,
     muted ++ map sdi_handle dbIndexes).
Proof.
  induction dbIndexes as [|i idxs IH]; intros diffs muted; cbn [fold_left flat_map map].
  - now rewrite !app_nil_r.
  - unfold forEach_dbIndex at 2. unfold push.
    destruct (find _ _); rewrite IH; simpl; now rewrite <- ?app_assoc.
Qed.

(** One turn of the loop over the declared schemas. *)
Lemma diff_schema_run {L} (context : PluginInitContext L) (diffs : list SchemaDiff)
    (schema : Schema) (w : World) :
  diff_schema Castable IndexType_value context diffs schema w =
  if collectionExists (database context) (schema_handle schema) then
    (sent (DescribeCollection (schema_handle schema))
          (sent (CollectionExists (schema_handle schema)) w),
     match existing_collection_diffs Castable IndexType_value context schema with
     | Return d => Return (diffs ++ d)
     | Throw e => Throw e
     end)
  else
    (sent (CollectionExists (schema_handle schema)) w,
     Return (diffs ++ [add_collection (schemaToSchemaDescription context schema)])).
Proof.
  unfold diff_schema, existing_collection_diffs, columns_to_add, indexes_to_drop,
    indexes_to_add, bindA, execute_collectionExists, execute_describeCollection, liftA, retA.
  destruct (collectionExists _ _); simpl; [|reflexivity].
  destruct (databaseDescriptionToSchemaDescription _ _ _) as [dbd|e]; simpl; [|reflexivity].
  rewrite forEach_dbColumn_fold.
  destruct (mapR _ _) as [each|e]; simpl; [|reflexivity].
  rewrite forEach_dbIndex_fold. simpl.
  unfold forEach_index, forEach_column, push.
  rewrite (fold_left_emit _ (fun column =>
             if lacks (concat (map snd each)) (column_handle column)
             then [add_column (schemaToSchemaDescription context schema) column
                     (copyColumn_of dbd column)]
             else [])).
  2:{ intros acc x. destruct (lacks _ _); [reflexivity | now rewrite app_nil_r]. }
  rewrite (fold_left_emit _ (fun index =>
             if lacks (map sdi_handle (sd_indexes dbd)) (sdi_handle index)
             then [add_index (schemaToSchemaDescription context schema) index]
             else [])).
  2:{ intros acc x. destruct (lacks _ _); [reflexivity | now rewrite app_nil_r]. }
  now rewrite <- !app_assoc.
Qed.

Lemma getSchemaDiff_from {L} (context : PluginInitContext L) (schemas : list Schema) :
  forall diffs w,
    foldA (diff_schema Castable IndexType_value context) schemas diffs w =
    match getSchemaDiff Castable IndexType_value context schemas w with
    | (w', Return d) => (w', Return (diffs ++ d))
    | (w', Throw e) => (w', Throw e)
    end.
Proof.
  unfold getSchemaDiff.
  induction schemas as [|s rest IH]; intros diffs w; simpl.
  - unfold retA. now rewrite app_nil_r.
  - unfold bindA. rewrite !diff_schema_run.
    destruct (collectionExists _ _).
    + destruct (existing_collection_diffs _ _ _ _) as [d|e]; [|reflexivity].
      rewrite (IH (diffs ++ d)), (IH ([] ++ d)).
      destruct (foldA _ rest [] _) as [w' [d'|e]]; [|reflexivity].
      now rewrite <- app_assoc.
    + rewrite (IH (diffs ++ _)), (IH ([] ++ _)).
      destruct (foldA _ rest [] _) as [w' [d'|e]]; [|reflexivity].
      now rewrite <- app_assoc.
Qed.

(** A run over several schemas is the run over the first ones followed
    by the run over the others. *)
Lemma getSchemaDiff_app {L} (context : PluginInitContext L) (pre post : list Schema) (w : World) :
  getSchemaDiff Castable IndexType_value context (pre ++ post) w =
  match getSchemaDiff Castable IndexType_value context pre w with
  | (w1, Return before) =>
      match getSchemaDiff Castable IndexType_value context post w1 with
      | (w2, Return after) => (w2, Return (before ++ after))
      | (w2, Throw e) => (w2, Throw e)
      end
  | (w1, Throw e) => (w1, Throw e)
  end.
Proof.
  unfold getSchemaDiff at 1 2. generalize (@nil SchemaDiff) as diffs.
  revert w. induction pre as [|s pre IH]; intros w diffs; simpl.
  - unfold retA. apply getSchemaDiff_from.
  - unfold bindA.
    destruct (diff_schema _ _ _ _ _ _) as [w' [d|e]]; [apply IH | reflexivity].
Qed.

(** The run over one schema. *)
Lemma getSchemaDiff_one {L} (context : PluginInitContext L) (schema : Schema) (w : World) :
  getSchemaDiff Castable IndexType_value context [schema] w =
  if collectionExists (database context) (schema_handle schema) then
    (sent (DescribeCollection (schema_handle schema))
          (sent (CollectionExists (schema_handle schema)) w),
     existing_collection_diffs Castable IndexType_value context schema)
  else
    (sent (CollectionExists (schema_handle schema)) w,
     Return [add_collection (schemaToSchemaDescription context schema)]).
Proof.
  unfold getSchemaDiff. simpl. unfold bindA. rewrite diff_schema_run.
  destruct (collectionExists _ _); [|reflexivity].
  now destruct (existing_collection_diffs _ _ _ _).
Qed.

(** Every schema of a run that returns has its segment. *)
Lemma getSchemaDiff_segments {L} (context : PluginInitContext L)
    (pre : list Schema) (schema : Schema) (post : list Schema) (w w' : World)
    (diffs : list SchemaDiff) :
  getSchemaDiff Castable IndexType_value context (pre ++ schema :: post) w = (w', Return diffs) ->
  exists w1 w2 segment,
    emitted_for Castable IndexType_value context pre schema post w w1 w2 segment.
Proof.
  intros H. rewrite getSchemaDiff_app in H.
  destruct (getSchemaDiff _ _ context pre w) as [w1 [before|e]] eqn:E1; [|discriminate].
  change (schema :: post) with ([schema] ++ post) in H.
  rewrite getSchemaDiff_app in H.
  destruct (getSchemaDiff _ _ context [schema] w1) as [w2 [segment|e]] eqn:E2; [|discriminate].
  destruct (getSchemaDiff _ _ context post w2) as [w3 [after|e]] eqn:E3; [|discriminate].
  exists w1, w2, segment, before, after, w3.
  split; [exact E1|]. split; [exact E2|]. split; [exact E3|].
  rewrite getSchemaDiff_app, E1.
  change (schema :: post) with ([schema] ++ post).
  now rewrite getSchemaDiff_app, E2, E3.
Qed.

End DiffLoops.

(** ** The diffs of one declared collection *)

(** C5. While [getSchemaDiff] handles a declared collection that the
    database says does not exist, it emits exactly one diff, the
    [add_collection] of the expanded description of the schema, and the
    only query it sends is [CollectionExists]: the collection is not
    described, and nothing is asked. *)
Theorem getSchemaDiff_add_collection :
  forall (Castable : Z) (IndexType_value : IndexType.t -> string)
         {L} (context : PluginInitContext L) (pre : list Schema) (schema : Schema)
         (post : list Schema) (w w1 w2 : World) (segment : list SchemaDiff),
    emitted_for Castable IndexType_value context pre schema post w w1 w2 segment ->
    collectionExists (database context) (schema_handle schema) = false ->
    segment = [add_collection (schemaToSchemaDescription context schema)] /\
    executed w2 = executed w1 ++ [CollectionExists (schema_handle schema)] /\
    asked w2 = asked w1.
Proof.
  intros Castable IndexType_value L context pre schema post w w1 w2 segment
    (before & after & w3 & _ & Hone & _) Hnone.
  rewrite getSchemaDiff_one, Hnone in Hone.
  injection Hone as <- <-. repeat split.
Qed.

Lemma getSchemaDiff_add_collection_witness :
  emitted_for blog_Castable mapIndexTypeToString blog [Post] Tag []
    nothing_yet
    {| executed := [CollectionExists "Post"; DescribeCollection "Post"]; asked := [] |}
    {| executed := [CollectionExists "Post"; DescribeCollection "Post"; CollectionExists "Tag"];
       asked := [] |}
    [add_collection (schemaToSchemaDescription blog Tag)] /\
  collectionExists (database blog) (schema_handle Tag) = false /\
  [add_collection (schemaToSchemaDescription blog Tag)]
    = [add_collection (schemaToSchemaDescription blog Tag)] /\
  [CollectionExists "Post"; DescribeCollection "Post"; CollectionExists "Tag"]
    = [CollectionExists "Post"; DescribeCollection "Post"] ++ [CollectionExists "Tag"] /\
  @nil Interaction = [].
Proof.
  assert (H : emitted_for blog_Castable mapIndexTypeToString blog [Post] Tag []
                nothing_yet
                {| executed := [CollectionExists "Post"; DescribeCollection "Post"]; asked := [] |}
                {| executed := [CollectionExists "Post"; DescribeCollection "Post";
                                CollectionExists "Tag"];
                   asked := [] |}
                [add_collection (schemaToSchemaDescription blog Tag)]).
  { eexists _, [], _. repeat split; vm_compute; reflexivity. }
  split; [exact H|]. split; [reflexivity|].
  exact (getSchemaDiff_add_collection _ _ _ _ _ _ _ _ _ _ H eq_refl).
Defined.

Lemma emitted_for_existing (Castable : Z) (IndexType_value : IndexType.t -> string)
    {L} (context : PluginInitContext L) (pre : list Schema) (schema : Schema)
    (post : list Schema) (w w1 w2 : World) (segment : list SchemaDiff) :
  emitted_for Castable IndexType_value context pre schema post w w1 w2 segment ->
  collectionExists (database context) (schema_handle schema) = true ->
  existing_collection_diffs Castable IndexType_value context schema = Return segment.
Proof.
  intros (before & after & w3 & _ & Hone & _) Hex.
  rewrite getSchemaDiff_one, Hex in Hone. now injection Hone.
Qed.

Lemma mapR_Forall2 {E A B} (f : A -> Result E B) (l : list A) :
  forall rs, mapR f l = Return rs -> Forall2 (fun x r => f x = Return r) l rs.
Proof.
  induction l as [|x l IH]; simpl; intros rs H.
  - injection H as <-. constructor.
  - destruct (f x) as [y|e] eqn:Hx; [|discriminate]. simpl in H.
    destruct (mapR f l) as [ys|e]; [|discriminate]. simpl in H.
    injection H as <-. constructor; auto.
Qed.

Lemma Forall2_In_left {A B} (R : A -> B -> Prop) (l : list A) (l' : list B) (x : A) :
  Forall2 R l l' -> In x l -> exists y, In y l' /\ R x y.
Proof.
  induction 1 as [|a b l l' Hab _ IH]; simpl; [tauto|].
  intros [<-|Hin]; [exists b; auto|].
  destruct (IH Hin) as [y [Hy HR]]. exists y; auto.
Qed.

Lemma lacks_true_iff (array : list string) (s : string) :
  lacks array s = true <-> ~ In s array.
Proof.
  unfold lacks. rewrite negb_true_iff, <- not_true_iff_false, existsb_exists.
  split; intros H.
  - intros Hin. apply H. exists s. split; [exact Hin | apply String.eqb_refl].
  - intros [x [Hin Heq]]. apply String.eqb_eq in Heq. subst x. auto.
Qed.

Lemma lacks_false_iff (array : list string) (s : string) :
  lacks array s = false <-> In s array.
Proof.
  rewrite <- not_true_iff_false, lacks_true_iff.
  split; [|tauto]. intros H.
  destruct (in_dec string_dec s array); tauto.
Qed.

Lemma find_handle_None (h : string) (cols : list SchemaDescriptionColumn) :
  find (fun column => String.eqb (column_handle column) h) cols = None <->
  ~ In h (map column_handle cols).
Proof.
  induction cols as [|c cols IH]; simpl; [tauto|].
  destruct (String.eqb_spec (column_handle c) h) as [->|Hne].
  - split; [discriminate | tauto].
  - rewrite IH. tauto.
Qed.

Lemma find_handle_Some (h : string) (cols : list SchemaDescriptionColumn)
    (column : SchemaDescriptionColumn) :
  find (fun column => String.eqb (column_handle column) h) cols = Some column ->
  In column cols /\ column_handle column = h.
Proof.
  intros H. apply find_some in H. now rewrite String.eqb_eq in H.
Qed.

Lemma filter_none {A} (p : A -> bool) (l : list A) :
  Forall (fun x => p x = false) l -> filter p l = [].
Proof.
  induction 1 as [|x l Hx _ IH]; simpl; [reflexivity | now rewrite Hx].
Qed.

Lemma filter_all {A} (p : A -> bool) (l : list A) :
  Forall (fun x => p x = true) l -> filter p l = l.
Proof.
  induction 1 as [|x l Hx _ IH]; simpl; [reflexivity | now rewrite Hx, IH].
Qed.

Lemma Forall_flat_map {A B} (P : B -> Prop) (g : A -> list B) (l : list A) :
  (forall x, In x l -> Forall P (g x)) -> Forall P (flat_map g l).
Proof.
  induction l as [|x l IH]; simpl; intros H; [constructor|].
  apply Forall_app. split; [apply H; now left | apply IH; intros y Hy; apply H; now right].
Qed.

(** ** The loop over the live columns *)

Section LiveColumns.

Variable Castable : Z.
Variable db : Database.
Variable schemaDesc : SchemaDescription.

(** What the loop emits and mutes for one live column. *)
Lemma forEach_dbColumn_cases (dbColumn : SchemaDescriptionColumn)
    (d : list SchemaDiff) (m : list string) :
  forEach_dbColumn Castable db schemaDesc ([], []) dbColumn = Return (d, m) ->
  (~ In (column_handle dbColumn) (map column_handle (sd_columns schemaDesc))
   /\ d = [drop_column schemaDesc dbColumn] /\ m = []) \/
  (exists column declared live,
      find (fun column => String.eqb (column_handle column) (column_handle dbColumn))
           (sd_columns schemaDesc) = Some column
      /\ mapStringToColumnType (column_type column) = Return declared
      /\ mapStringToColumnType (column_type dbColumn) = Return live
      /\ m = [column_handle dbColumn]
      /\ d = if (bitand (compareTypes db declared live) Castable =? 0)%Z
             then [alter_column schemaDesc dbColumn (column_type column)]
             else []).
Proof.
  unfold forEach_dbColumn, push.
  destruct (find _ _) as [column|] eqn:Hfind.
  - destruct (find_handle_Some _ _ _ Hfind) as [_ Hh].
    destruct (mapStringToColumnType (column_type column)) as [declared|] eqn:H1;
      [|discriminate]; simpl.
    destruct (mapStringToColumnType (column_type dbColumn)) as [live|] eqn:H2;
      [|discriminate]; simpl.
    intros H. right. exists column, declared, live. rewrite Hh in H.
    destruct (_ =? 0)%Z; injection H as <- <-; auto.
  - apply find_handle_None in Hfind. simpl. intros H. injection H as <- <-. now left.
Qed.

(** The diffs of one live column are about that column. *)
Lemma forEach_dbColumn_about (dbColumn : SchemaDescriptionColumn)
    (d : list SchemaDiff) (m : list string) :
  forEach_dbColumn Castable db schemaDesc ([], []) dbColumn = Return (d, m) ->
  Forall (fun x => diff_column x = Some dbColumn) d.
Proof.
  intros H. apply forEach_dbColumn_cases in H.
  destruct H as [(_ & -> & _)|(column & declared & live & _ & _ & _ & _ & ->)].
  - repeat constructor.
  - destruct (_ =? 0)%Z; repeat constructor.
Qed.

Lemma on_column_about (h : string) (dbColumn : SchemaDescriptionColumn) (d : list SchemaDiff) :
  Forall (fun x => diff_column x = Some dbColumn) d ->
  filter (on_column h) d = if String.eqb (column_handle dbColumn) h then d else [].
Proof.
  intros H. destruct (String.eqb (column_handle dbColumn) h) eqn:Heq.
  - apply filter_all. eapply Forall_impl; [|exact H].
    intros x Hx. unfold on_column. now rewrite Hx.
  - apply filter_none. eapply Forall_impl; [|exact H].
    intros x Hx. unfold on_column. now rewrite Hx.
Qed.

(** No diff for a handle that no live column bears. *)
Lemma live_columns_other (h : string) dbColumns each :
  each_of Castable db schemaDesc dbColumns each ->
  ~ In h (map column_handle dbColumns) ->
  filter (on_column h) (concat (map fst each)) = [].
Proof.
  induction 1 as [|c [d m] cols rs Hc _ IH]; simpl; [reflexivity|].
  intros Hnot. rewrite filter_app, IH by tauto.
  rewrite (on_column_about h c d) by (eapply forEach_dbColumn_about; eauto).
  destruct (String.eqb_spec (column_handle c) h); [tauto | reflexivity].
Qed.

(** The diffs for the handle of a live column are those of that column,
    as long as no other live column bears the handle. *)
Lemma live_columns_on (dbColumn : SchemaDescriptionColumn)
    (d : list SchemaDiff) (m : list string) dbColumns each :
  each_of Castable db schemaDesc dbColumns each ->
  NoDup (map column_handle dbColumns) ->
  In dbColumn dbColumns ->
  forEach_dbColumn Castable db schemaDesc ([], []) dbColumn = Return (d, m) ->
  filter (on_column (column_handle dbColumn)) (concat (map fst each)) = d.
Proof.
  intros Heach Hnodup Hin Hd.
  induction Heach as [|c [d' m'] cols rs Hc Hrest IH]; simpl in *; [tauto|].
  inversion Hnodup as [|? ? Hnotin Hnodup']; subst.
  rewrite filter_app.
  rewrite (on_column_about _ c d') by (eapply forEach_dbColumn_about; eauto).
  destruct Hin as [->|Hin].
  - rewrite Hd in Hc. injection Hc as <- <-.
    rewrite String.eqb_refl.
    rewrite (live_columns_other _ cols rs Hrest Hnotin). apply app_nil_r.
  - destruct (String.eqb_spec (column_handle c) (column_handle dbColumn)) as [Heq|_].
    + exfalso. apply Hnotin. rewrite Heq. now apply in_map.
    + simpl. now apply IH.
Qed.

(** The muted handles are those of the live columns that are declared. *)
Lemma mutedFields_iff (h : string) dbColumns each :
  each_of Castable db schemaDesc dbColumns each ->
  In h (concat (map snd each)) <->
  In h (map column_handle dbColumns) /\ In h (map column_handle (sd_columns schemaDesc)).
Proof.
  induction 1 as [|c [d m] cols rs Hc _ IH]; simpl; [tauto|].
  rewrite in_app_iff, IH.
  apply forEach_dbColumn_cases in Hc.
  destruct Hc as [(Hnot & _ & ->)|(column & declared & live & Hfind & _ & _ & -> & _)].
  - simpl. split; [tauto|]. intros [[<-|H] H']; tauto.
  - apply find_handle_Some in Hfind. destruct Hfind as [Hin Hh].
    assert (In (column_handle c) (map column_handle (sd_columns schemaDesc)))
      by (rewrite <- Hh; now apply in_map).
    simpl. split; [intros [[<-|[]]|H']; tauto | tauto].
Qed.

End LiveColumns.

(** ** The other loops of an existing collection *)

Lemma existing_collection_diffs_inv (Castable : Z) (IndexType_value : IndexType.t -> string)
    {L} (context : PluginInitContext L) (schema : Schema) (segment : list SchemaDiff) :
  existing_collection_diffs Castable IndexType_value context schema = Return segment ->
  exists dbSchemaDesc each,
    databaseDescriptionToSchemaDescription IndexType_value context
      (describeCollection (database context) (schema_handle schema)) = Return dbSchemaDesc /\
    each_of Castable (database context) (schemaToSchemaDescription context schema)
      (sd_columns dbSchemaDesc) each /\
    segment =
      concat (map fst each)
      ++ columns_to_add (schemaToSchemaDescription context schema) dbSchemaDesc
           (concat (map snd each)) (sd_columns (schemaToSchemaDescription context schema))
      ++ indexes_to_drop (schemaToSchemaDescription context schema) dbSchemaDesc
      ++ indexes_to_add (schemaToSchemaDescription context schema) dbSchemaDesc.
Proof.
  unfold existing_collection_diffs. intros H.
  destruct (databaseDescriptionToSchemaDescription _ _ _) as [dbd|e]; [|discriminate].
  simpl in H.
  destruct (mapR _ _) as [each|e] eqn:Heach; [|discriminate]. simpl in H.
  injection H as <-. exists dbd, each. split; [reflexivity|]. split; [|reflexivity].
  now apply mapR_Forall2.
Qed.

Lemma indexes_to_drop_not_on (schemaDesc dbSchemaDesc : SchemaDescription) :
  Forall (fun x => diff_column x = None) (indexes_to_drop schemaDesc dbSchemaDesc).
Proof.
  apply Forall_flat_map. intros x _. destruct (find _ _); repeat constructor.
Qed.

Lemma indexes_to_add_not_on (schemaDesc dbSchemaDesc : SchemaDescription) :
  Forall (fun x => diff_column x = None) (indexes_to_add schemaDesc dbSchemaDesc).
Proof.
  apply Forall_flat_map. intros x _. destruct (lacks _ _); repeat constructor.
Qed.

Lemma filter_on_column_none (h : string) (l : list SchemaDiff) :
  Forall (fun x => diff_column x = None) l -> filter (on_column h) l = [].
Proof.
  intros H. apply filter_none. eapply Forall_impl; [|exact H].
  intros x Hx. unfold on_column. now rewrite Hx.
Qed.

(** No column is added under a handle that is muted, nor under a handle
    that no declared column bears. *)
Lemma columns_to_add_muted (h : string) (schemaDesc dbSchemaDesc : SchemaDescription)
    (muted : list string) (columns : list SchemaDescriptionColumn) :
  In h muted \/ ~ In h (map column_handle columns) ->
  filter (on_column h) (columns_to_add schemaDesc dbSchemaDesc muted columns) = [].
Proof.
  intros H. apply filter_none. apply Forall_flat_map. intros column Hin.
  destruct (lacks muted (column_handle column)) eqn:Hl; repeat constructor.
  unfold on_column; simpl. apply String.eqb_neq. intros Heq. subst h.
  apply lacks_true_iff in Hl. destruct H as [H|H]; [tauto|].
  apply H. now apply in_map.
Qed.

(** The column-level diffs of a segment for one handle. *)
Lemma segment_on_column (h : string) (schemaDesc dbSchemaDesc : SchemaDescription)
    (each : list (list SchemaDiff * list string)) (columns : list SchemaDescriptionColumn) :
  filter (on_column h)
    (concat (map fst each)
     ++ columns_to_add schemaDesc dbSchemaDesc (concat (map snd each)) columns
     ++ indexes_to_drop schemaDesc dbSchemaDesc
     ++ indexes_to_add schemaDesc dbSchemaDesc)
  = filter (on_column h) (concat (map fst each))
    ++ filter (on_column h)
         (columns_to_add schemaDesc dbSchemaDesc (concat (map snd each)) columns).
Proof.
  rewrite !filter_app.
  rewrite (filter_on_column_none h _ (indexes_to_drop_not_on _ _)).
  rewrite (filter_on_column_none h _ (indexes_to_add_not_on _ _)).
  now rewrite !app_nil_r.
Qed.

(** C1. While [getSchemaDiff] handles a declared collection that exists,
    for a live column whose handle also names a declared column (the live
    column names being distinct, as they are in a table), the two types
    map to column types, and the column-level diffs emitted for that
    handle are exactly one [alter_column], carrying the live column and
    the declared type, when the comparison of the declared with the live
    type lacks [Castable], and none at all when it has it. *)
Theorem getSchemaDiff_alter_column :
  forall (Castable : Z) (IndexType_value : IndexType.t -> string)
         {L} (context : PluginInitContext L) (pre : list Schema) (schema : Schema)
         (post : list Schema) (w w1 w2 : World) (segment : list SchemaDiff)
         (dbSchemaDesc : SchemaDescription) (dbColumn column : SchemaDescriptionColumn),
    emitted_for Castable IndexType_value context pre schema post w w1 w2 segment ->
    collectionExists (database context) (schema_handle schema) = true ->
    databaseDescriptionToSchemaDescription IndexType_value context
      (describeCollection (database context) (schema_handle schema)) = Return dbSchemaDesc ->
    NoDup (map column_handle (sd_columns dbSchemaDesc)) ->
    In dbColumn (sd_columns dbSchemaDesc) ->
    find (fun column => String.eqb (column_handle column) (column_handle dbColumn))
         (sd_columns (schemaToSchemaDescription context schema)) = Some column ->
    exists declared live,
      mapStringToColumnType (column_type column) = Return declared /\
      mapStringToColumnType (column_type dbColumn) = Return live /\
      filter (on_column (column_handle dbColumn)) segment =
        if (bitand (compareTypes (database context) declared live) Castable =? 0)%Z
        then [alter_column (schemaToSchemaDescription context schema) dbColumn
                (column_type column)]
        else [].
Proof.
  intros Castable IndexType_value L context pre schema post w w1 w2 segment
    dbd dbColumn column Hem Hex Hdbd Hnodup Hin Hfind.
  apply emitted_for_existing in Hem; [|exact Hex].
  apply existing_collection_diffs_inv in Hem.
  destruct Hem as (dbd' & each & Hdbd' & Heach & ->).
  rewrite Hdbd in Hdbd'. injection Hdbd' as <-.
  destruct (Forall2_In_left _ _ _ _ Heach Hin) as ([d m] & _ & Hstep).
  destruct (forEach_dbColumn_cases _ _ _ _ _ _ Hstep)
    as [(Hnot & _)|(column' & declared & live & Hfind' & H1 & H2 & Hm & Hd)].
  - apply find_handle_None in Hnot. congruence.
  - rewrite Hfind in Hfind'. injection Hfind' as <-.
    exists declared, live. split; [exact H1|]. split; [exact H2|].
    rewrite segment_on_column.
    rewrite (live_columns_on _ _ _ _ _ _ _ _ Heach Hnodup Hin Hstep).
    rewrite columns_to_add_muted.
    + now rewrite app_nil_r.
    + left. apply (mutedFields_iff _ _ _ _ _ _ Heach). split.
      * now apply in_map.
      * apply find_handle_Some in Hfind. destruct Hfind as [Hc <-]. now apply in_map.
Qed.

Lemma Post_emitted :
  emitted_for blog_Castable mapIndexTypeToString blog [] Post [Tag]
    nothing_yet nothing_yet Post_described Post_segment.
Proof. eexists [], _, _. repeat split; vm_compute; reflexivity. Defined.

Lemma Post_live_described :
  databaseDescriptionToSchemaDescription mapIndexTypeToString blog
    (describeCollection (database blog) (schema_handle Post)) = Return Post_live.
Proof. reflexivity. Defined.

Lemma Post_live_distinct : NoDup (map column_handle (sd_columns Post_live)).
Proof.
  repeat constructor; simpl; intuition discriminate.
Defined.

Lemma getSchemaDiff_alter_column_witness :
  emitted_for blog_Castable mapIndexTypeToString blog [] Post [Tag]
    nothing_yet nothing_yet Post_described Post_segment /\
  collectionExists (database blog) (schema_handle Post) = true /\
  databaseDescriptionToSchemaDescription mapIndexTypeToString blog
    (describeCollection (database blog) (schema_handle Post)) = Return Post_live /\
  NoDup (map column_handle (sd_columns Post_live)) /\
  In {| column_handle := "title"; column_type := "text" |} (sd_columns Post_live) /\
  find (fun column => String.eqb (column_handle column) "title")
       (sd_columns (schemaToSchemaDescription blog Post))
    = Some {| column_handle := "title"; column_type := "int" |} /\
  exists declared live,
    mapStringToColumnType "int" = Return declared /\
    mapStringToColumnType "text" = Return live /\
    filter (on_column "title") Post_segment =
      if (bitand (compareTypes (database blog) declared live) blog_Castable =? 0)%Z
      then [alter_column (schemaToSchemaDescription blog Post)
              {| column_handle := "title"; column_type := "text" |} "int"]
      else [].
Proof.
  assert (Hin : In {| column_handle := "title"; column_type := "text" |}
                   (sd_columns Post_live)) by (simpl; auto).
  assert (Hfind : find (fun column => String.eqb (column_handle column) "title")
                       (sd_columns (schemaToSchemaDescription blog Post))
                  = Some {| column_handle := "title"; column_type := "int" |})
    by reflexivity.
  repeat (split; [first [exact Post_emitted | exact Post_live_described
                        | exact Post_live_distinct | exact Hin | exact Hfind
                        | reflexivity]|]).
  exact (getSchemaDiff_alter_column _ _ _ _ _ _ _ _ _ _ _ _ _
           Post_emitted eq_refl Post_live_described Post_live_distinct Hin Hfind).
Defined.

(** ** The columns to add *)

Lemma copyColumn_of_candidates (dbSchemaDesc : SchemaDescription)
    (column : SchemaDescriptionColumn) :
  copyColumn_of dbSchemaDesc column =
  copy_candidates (map column_handle (sd_columns dbSchemaDesc)) (column_handle column).
Proof.
  unfold copyColumn_of, copy_candidates, locale_base.
  destruct (matchLocalizedHandle (column_handle column)) as [m|]; simpl; [|reflexivity].
  apply filter_ext. intros h. now destruct (matchLocalizedHandle h).
Qed.

Lemma flat_map_ext_In {A B} (f g : A -> list B) (l : list A) :
  (forall x, In x l -> f x = g x) -> flat_map f l = flat_map g l.
Proof.
  induction l as [|x l IH]; simpl; intros H; [reflexivity|].
  rewrite (H x), IH; auto.
Qed.

Lemma flat_map_if {A B} (p : A -> bool) (g : A -> B) (l : list A) :
  flat_map (fun x => if p x then [g x] else []) l = map g (filter p l).
Proof.
  induction l as [|x l IH]; simpl; [reflexivity|].
  destruct (p x); simpl; now rewrite IH.
Qed.

(** Among the declared columns, the muted handles are those of the live
    columns. *)
Lemma lacks_mutedFields (Castable : Z) (db : Database) (schemaDesc : SchemaDescription)
    (dbColumns : list SchemaDescriptionColumn) (each : list (list SchemaDiff * list string))
    (column : SchemaDescriptionColumn) :
  each_of Castable db schemaDesc dbColumns each ->
  In column (sd_columns schemaDesc) ->
  lacks (concat (map snd each)) (column_handle column)
  = lacks (map column_handle dbColumns) (column_handle column).
Proof.
  intros Heach Hin.
  pose proof (mutedFields_iff _ _ _ (column_handle column) _ _ Heach) as Hiff.
  assert (Hd : In (column_handle column) (map column_handle (sd_columns schemaDesc)))
    by now apply in_map.
  destruct (lacks (map column_handle dbColumns) (column_handle column)) eqn:Hl.
  - apply lacks_true_iff in Hl. apply lacks_true_iff. tauto.
  - apply lacks_false_iff in Hl. apply lacks_false_iff. tauto.
Qed.

Lemma live_columns_no_add (Castable : Z) (db : Database) (schemaDesc : SchemaDescription)
    (dbColumns : list SchemaDescriptionColumn) (each : list (list SchemaDiff * list string)) :
  each_of Castable db schemaDesc dbColumns each ->
  Forall (fun x => is_add_column x = false) (concat (map fst each)).
Proof.
  induction 1 as [|c [d m] cols rs Hc _ IH]; simpl; [constructor|].
  apply Forall_app. split; [|exact IH].
  apply forEach_dbColumn_cases in Hc.
  destruct Hc as [(_ & -> & _)|(column & declared & live & _ & _ & _ & _ & ->)].
  - repeat constructor.
  - destruct (_ =? 0)%Z; repeat constructor.
Qed.

(** C6. While [getSchemaDiff] handles a declared collection that exists,
    the [add_column] diffs it emits are, in the order of the declared
    columns, exactly one for each declared column whose handle is the
    handle of no live column; the diff carries that column and, as its
    copy candidates, the live column handles that have the locale base of
    the new handle when the new handle has the form of a localized one,
    and all the live column handles otherwise. *)
Theorem getSchemaDiff_add_column :
  forall (Castable : Z) (IndexType_value : IndexType.t -> string)
         {L} (context : PluginInitContext L) (pre : list Schema) (schema : Schema)
         (post : list Schema) (w w1 w2 : World) (segment : list SchemaDiff)
         (dbSchemaDesc : SchemaDescription),
    emitted_for Castable IndexType_value context pre schema post w w1 w2 segment ->
    collectionExists (database context) (schema_handle schema) = true ->
    databaseDescriptionToSchemaDescription IndexType_value context
      (describeCollection (database context) (schema_handle schema)) = Return dbSchemaDesc ->
    let schemaDesc := schemaToSchemaDescription context schema in
    let live := map column_handle (sd_columns dbSchemaDesc) in
    filter is_add_column segment =
    map (fun column => add_column schemaDesc column (copy_candidates live (column_handle column)))
        (filter (fun column => lacks live (column_handle column)) (sd_columns schemaDesc)).
Proof.
  intros Castable IndexType_value L context pre schema post w w1 w2 segment
    dbd Hem Hex Hdbd schemaDesc live.
  apply emitted_for_existing in Hem; [|exact Hex].
  apply existing_collection_diffs_inv in Hem.
  destruct Hem as (dbd' & each & Hdbd' & Heach & ->).
  rewrite Hdbd in Hdbd'. injection Hdbd' as <-.
  fold schemaDesc in Heach |- *.
  rewrite !filter_app.
  rewrite (filter_none _ _ (live_columns_no_add _ _ _ _ _ Heach)).
  rewrite (filter_none is_add_column (indexes_to_drop _ _)).
  2:{ apply Forall_flat_map. intros x _. destruct (find _ _); repeat constructor. }
  rewrite (filter_none is_add_column (indexes_to_add _ _)).
  2:{ apply Forall_flat_map. intros x _. destruct (lacks _ _); repeat constructor. }
  rewrite !app_nil_r. simpl.
  rewrite filter_all.
  2:{ apply Forall_flat_map. intros x _. destruct (lacks _ _); repeat constructor. }
  unfold columns_to_add.
  rewrite <- flat_map_if. apply flat_map_ext_In. intros column Hin.
  rewrite (lacks_mutedFields _ _ _ _ _ _ Heach Hin).
  now rewrite copyColumn_of_candidates.
Qed.

Lemma getSchemaDiff_add_column_witness :
  emitted_for blog_Castable mapIndexTypeToString blog [] Post [Tag]
    nothing_yet nothing_yet Post_described Post_segment /\
  collectionExists (database blog) (schema_handle Post) = true /\
  databaseDescriptionToSchemaDescription mapIndexTypeToString blog
    (describeCollection (database blog) (schema_handle Post)) = Return Post_live /\
  filter is_add_column Post_segment =
    map (fun column =>
           add_column (schemaToSchemaDescription blog Post) column
             (copy_candidates (map column_handle (sd_columns Post_live))
                              (column_handle column)))
        (filter (fun column =>
                   lacks (map column_handle (sd_columns Post_live)) (column_handle column))
                (sd_columns (schemaToSchemaDescription blog Post))).
Proof.
  split; [exact Post_emitted|]. split; [reflexivity|].
  split; [exact Post_live_described|].
  exact (getSchemaDiff_add_column _ _ _ _ _ _ _ _ _ _ _
           Post_emitted eq_refl Post_live_described).
Defined.

(** ** At most one column-level diff for a handle *)

Lemma live_columns_members (Castable : Z) (db : Database) (schemaDesc : SchemaDescription)
    (dbColumns : list SchemaDescriptionColumn) (each : list (list SchemaDiff * list string))
    (x : SchemaDiff) :
  each_of Castable db schemaDesc dbColumns each ->
  In x (concat (map fst each)) ->
  exists c, In c dbColumns /\
    ((x = drop_column schemaDesc c
      /\ ~ In (column_handle c) (map column_handle (sd_columns schemaDesc)))
     \/ (exists t, x = alter_column schemaDesc c t
         /\ In (column_handle c) (map column_handle (sd_columns schemaDesc)))).
Proof.
  induction 1 as [|c [d m] cols rs Hc _ IH]; simpl; [tauto|].
  rewrite in_app_iff. intros [Hx|Hx].
  - exists c. split; [now left|].
    apply forEach_dbColumn_cases in Hc.
    destruct Hc as [(Hnot & -> & _)|(column & declared & live & Hfind & _ & _ & _ & ->)].
    + destruct Hx as [<-|[]]. now left.
    + destruct (_ =? 0)%Z; [|destruct Hx].
      destruct Hx as [<-|[]]. right. exists (column_type column). split; [reflexivity|].
      apply find_handle_Some in Hfind. destruct Hfind as [Hin <-]. now apply in_map.
  - destruct (IH Hx) as [c2 [Hin Hc2]]. exists c2. split; [now right | exact Hc2].
Qed.

Lemma columns_to_add_members (schemaDesc dbSchemaDesc : SchemaDescription)
    (muted : list string) (columns : list SchemaDescriptionColumn) (x : SchemaDiff) :
  In x (columns_to_add schemaDesc dbSchemaDesc muted columns) ->
  exists column, In column columns
    /\ x = add_column schemaDesc column (copyColumn_of dbSchemaDesc column)
    /\ ~ In (column_handle column) muted.
Proof.
  unfold columns_to_add. rewrite in_flat_map. intros [column [Hin Hx]].
  destruct (lacks muted (column_handle column)) eqn:Hl; [|destruct Hx].
  destruct Hx as [<-|[]]. exists column. apply lacks_true_iff in Hl. auto.
Qed.

(** The column-level diffs of a segment come from the loop over the live
    columns or from the loop over the declared columns. *)
Lemma segment_column_diffs (schemaDesc dbSchemaDesc : SchemaDescription)
    (each : list (list SchemaDiff * list string)) (columns : list SchemaDescriptionColumn)
    (x : SchemaDiff) :
  In x (concat (map fst each)
        ++ columns_to_add schemaDesc dbSchemaDesc (concat (map snd each)) columns
        ++ indexes_to_drop schemaDesc dbSchemaDesc
        ++ indexes_to_add schemaDesc dbSchemaDesc) ->
  diff_column x <> None ->
  In x (concat (map fst each))
  \/ In x (columns_to_add schemaDesc dbSchemaDesc (concat (map snd each)) columns).
Proof.
  rewrite !in_app_iff. intros [H|[H|[H|H]]] Hcol; auto; exfalso; apply Hcol.
  - pose proof (indexes_to_drop_not_on schemaDesc dbSchemaDesc) as Hall.
    rewrite Forall_forall in Hall. now apply Hall.
  - pose proof (indexes_to_add_not_on schemaDesc dbSchemaDesc) as Hall.
    rewrite Forall_forall in Hall. now apply Hall.
Qed.

Lemma columns_to_add_at_most_one (h : string) (schemaDesc dbSchemaDesc : SchemaDescription)
    (muted : list string) (columns : list SchemaDescriptionColumn) :
  NoDup (map column_handle columns) ->
  List.length (filter (on_column h) (columns_to_add schemaDesc dbSchemaDesc muted columns)) <= 1.
Proof.
  induction columns as [|c cols IH]; simpl; intros Hnodup; [lia|].
  inversion Hnodup as [|? ? Hnotin Hnodup2]; subst.
  rewrite filter_app, length_app.
  destruct (String.eqb_spec (column_handle c) h) as [<-|Hne].
  - fold (columns_to_add schemaDesc dbSchemaDesc muted cols).
    rewrite (columns_to_add_muted (column_handle c)) by (now right). simpl.
    destruct (lacks muted (column_handle c)); simpl; [|lia].
    destruct (on_column _ _); simpl; lia.
  - fold (columns_to_add schemaDesc dbSchemaDesc muted cols).
    specialize (IH Hnodup2).
    destruct (lacks muted (column_handle c)); simpl; [|lia].
    unfold on_column at 1; simpl.
    destruct (String.eqb_spec (column_handle c) h); [contradiction | simpl; lia].
Qed.

(** C9, as stated, fails: the declared [Page] stands for the column
    handle [title__en] twice, no live column bears it, and the run emits
    two [add_column] diffs for that one handle. *)
Lemma getSchemaDiff_adds_a_handle_twice :
  emitted_for blog_Castable mapIndexTypeToString wiki [] Page []
    nothing_yet nothing_yet Page_described Page_segment /\
  collectionExists (database wiki) (schema_handle Page) = true /\
  filter (on_column "title__en") Page_segment = Page_segment /\
  ~ List.length (filter (on_column "title__en") Page_segment) <= 1.
Proof.
  split; [eexists [], _, _; repeat split; vm_compute; reflexivity|].
  split; [reflexivity|]. split; [reflexivity|].
  simpl. lia.
Qed.

(** C9, amended. While [getSchemaDiff] handles a declared collection
    that exists, a handle that gets a [drop_column] diff gets no
    [alter_column] and no [add_column] diff, and a handle that gets an
    [alter_column] diff gets no [add_column] diff; and when the live
    column handles are pairwise distinct and the column handles of the
    expanded declared description are pairwise distinct, every handle
    gets at most one column-level diff. *)
Theorem getSchemaDiff_column_diffs_exclusive :
  forall (Castable : Z) (IndexType_value : IndexType.t -> string)
         {L} (context : PluginInitContext L) (pre : list Schema) (schema : Schema)
         (post : list Schema) (w w1 w2 : World) (segment : list SchemaDiff)
         (dbSchemaDesc : SchemaDescription),
    emitted_for Castable IndexType_value context pre schema post w w1 w2 segment ->
    collectionExists (database context) (schema_handle schema) = true ->
    databaseDescriptionToSchemaDescription IndexType_value context
      (describeCollection (database context) (schema_handle schema)) = Return dbSchemaDesc ->
    (forall h x y, In x segment -> In y segment ->
       is_drop_column x = true -> on_column h x = true ->
       is_alter_column y || is_add_column y = true -> on_column h y = false) /\
    (forall h x y, In x segment -> In y segment ->
       is_alter_column x = true -> on_column h x = true ->
       is_add_column y = true -> on_column h y = false) /\
    (NoDup (map column_handle (sd_columns dbSchemaDesc)) ->
     NoDup (map column_handle (sd_columns (schemaToSchemaDescription context schema))) ->
     forall h, List.length (filter (on_column h) segment) <= 1).
Proof.
  intros Castable IndexType_value L context pre schema post w w1 w2 segment
    dbd Hem Hex Hdbd.
  apply emitted_for_existing in Hem; [|exact Hex].
  apply existing_collection_diffs_inv in Hem.
  destruct Hem as (dbd2 & each & Hdbd2 & Heach & ->).
  rewrite Hdbd in Hdbd2. injection Hdbd2 as <-.
  set (schemaDesc := schemaToSchemaDescription context schema) in *.
  assert (Hmuted : forall h, In h (concat (map snd each)) ->
                             In h (map column_handle (sd_columns schemaDesc))).
  { intros h Hh. now apply (mutedFields_iff _ _ _ h _ _ Heach) in Hh. }
  split; [|split].
  - intros h x y Hx Hy Hdx Hox Hay.
    destruct (on_column h y) eqn:Hoy; [exfalso | reflexivity].
    apply segment_column_diffs in Hx; [|destruct x; discriminate].
    apply segment_column_diffs in Hy; [|destruct y; discriminate].
    assert (Hnotdecl : ~ In h (map column_handle (sd_columns schemaDesc))).
    { destruct Hx as [Hx|Hx].
      - destruct (live_columns_members _ _ _ _ _ _ Heach Hx)
          as (c & _ & [(-> & Hnot)|(t & -> & _)]); [|discriminate].
        unfold on_column in Hox; simpl in Hox. apply String.eqb_eq in Hox. now subst h.
      - destruct (columns_to_add_members _ _ _ _ _ Hx) as (col & _ & -> & _). discriminate. }
    apply Hnotdecl. destruct Hy as [Hy|Hy].
    + destruct (live_columns_members _ _ _ _ _ _ Heach Hy)
        as (c & _ & [(-> & _)|(t & -> & Hin)]); [discriminate|].
      unfold on_column in Hoy; simpl in Hoy. apply String.eqb_eq in Hoy. now subst h.
    + destruct (columns_to_add_members _ _ _ _ _ Hy) as (col & Hin & -> & _).
      unfold on_column in Hoy; simpl in Hoy. apply String.eqb_eq in Hoy. subst h.
      now apply in_map.
  - intros h x y Hx Hy Hax Hox Hay.
    destruct (on_column h y) eqn:Hoy; [exfalso | reflexivity].
    apply segment_column_diffs in Hx; [|destruct x; discriminate].
    apply segment_column_diffs in Hy; [|destruct y; discriminate].
    assert (Hm : In h (concat (map snd each))).
    { destruct Hx as [Hx|Hx].
      - destruct (live_columns_members _ _ _ _ _ _ Heach Hx)
          as (c & Hc & [(-> & _)|(t & -> & Hin)]); [discriminate|].
        unfold on_column in Hox; simpl in Hox. apply String.eqb_eq in Hox. subst h.
        apply (mutedFields_iff _ _ _ _ _ _ Heach). split; [now apply in_map | exact Hin].
      - destruct (columns_to_add_members _ _ _ _ _ Hx) as (col & _ & -> & _). discriminate. }
    destruct Hy as [Hy|Hy].
    + destruct (live_columns_members _ _ _ _ _ _ Heach Hy)
        as (c & _ & [(-> & _)|(t & -> & _)]); discriminate.
    + destruct (columns_to_add_members _ _ _ _ _ Hy) as (col & _ & -> & Hnot).
      unfold on_column in Hoy; simpl in Hoy. apply String.eqb_eq in Hoy. now subst h.
  - intros Hlive Hdecl h.
    rewrite segment_on_column, length_app.
    destruct (in_dec string_dec h (map column_handle (sd_columns dbd))) as [Hin|Hnot].
    + apply in_map_iff in Hin. destruct Hin as (c & <- & Hc).
      destruct (Forall2_In_left _ _ _ _ Heach Hc) as ([d m] & _ & Hstep).
      rewrite (live_columns_on _ _ _ _ _ _ _ _ Heach Hlive Hc Hstep).
      destruct (forEach_dbColumn_cases _ _ _ _ _ _ Hstep)
        as [(Hnotdecl & -> & _)|(column & declared & live & Hfind & _ & _ & _ & ->)].
      * rewrite columns_to_add_muted by (now right). simpl. lia.
      * rewrite columns_to_add_muted.
        -- destruct (_ =? 0)%Z; simpl; lia.
        -- left. apply (mutedFields_iff _ _ _ _ _ _ Heach). split; [now apply in_map|].
           apply find_handle_Some in Hfind. destruct Hfind as [Hcol <-]. now apply in_map.
    + rewrite (live_columns_other _ _ _ _ _ _ Heach Hnot). simpl.
      now apply columns_to_add_at_most_one.
Qed.

Lemma getSchemaDiff_column_diffs_exclusive_witness :
  emitted_for blog_Castable mapIndexTypeToString blog [] Post [Tag]
    nothing_yet nothing_yet Post_described Post_segment /\
  collectionExists (database blog) (schema_handle Post) = true /\
  databaseDescriptionToSchemaDescription mapIndexTypeToString blog
    (describeCollection (database blog) (schema_handle Post)) = Return Post_live /\
  NoDup (map column_handle (sd_columns Post_live)) /\
  NoDup (map column_handle (sd_columns (schemaToSchemaDescription blog Post))) /\
  forall h, List.length (filter (on_column h) Post_segment) <= 1.
Proof.
  assert (Hdecl : NoDup (map column_handle
                           (sd_columns (schemaToSchemaDescription blog Post))))
    by (repeat constructor; simpl; intuition discriminate).
  split; [exact Post_emitted|]. split; [reflexivity|].
  split; [exact Post_live_described|]. split; [exact Post_live_distinct|].
  split; [exact Hdecl|].
  exact (proj2 (proj2 (getSchemaDiff_column_diffs_exclusive _ _ _ _ _ _ _ _ _ _ _
                         Post_emitted eq_refl Post_live_described))
           Post_live_distinct Hdecl).
Defined.

(** ** From a live description back to a schema description *)

(** C3, as stated, fails: the expansion of the localized field [title]
    for the locales [en] and [fr], once live, is described with the two
    column handles [title__en] and [title__fr], not with the single
    handle [title] of the logical description. *)
Lemma collapse_keeps_the_locale_columns :
  live_description (schemaToSchemaDescription blog News) = Return News_live /\
  databaseDescriptionToSchemaDescription mapIndexTypeToString blog News_live
    = Return News_collapsed /\
  map column_handle (sd_columns News_collapsed) = ["title__en"; "title__fr"] /\
  map column_handle (sd_columns (logical_description News)) = ["title"] /\
  News_collapsed <> logical_description News.
Proof.
  repeat split; try reflexivity. discriminate.
Qed.

Lemma column_of_inv (column : SchemaDescriptionColumn) (c : Column) :
  column_of column = Return c ->
  getName c = column_handle column /\
  exists type, mapColumnTypeToFieldType (getType c) = Return type /\
               mapStringToColumnType type = mapStringToColumnType (column_type column).
Proof.
  unfold column_of. intros H.
  destruct (mapStringToColumnType (column_type column)) as [t|e] eqn:Ht; [|discriminate].
  simpl in H. injection H as <-. split; [reflexivity|]. simpl.
  unfold mapStringToColumnType in Ht.
  repeat match type of Ht with
         | (if ?b then _ else _) = _ => destruct b
         end;
    try discriminate; injection Ht as <-; eexists; split; reflexivity.
Qed.

(** The loop over the live columns keeps their names. *)
Lemma collapse_columns (declared : list SchemaDescriptionColumn) (live : list Column) :
  Forall2 (fun column c => column_of column = Return c) declared live ->
  forall acc,
  exists collapsed,
    foldR (fun columns column =>
             bindR (mapColumnTypeToFieldType (getType column))
                   (fun type => Return (push columns {| column_handle := getName column;
                                                        column_type := type |})))
          live acc = Return (acc ++ collapsed) /\
    Forall2 (fun c column =>
               column_handle c = column_handle column /\
               mapStringToColumnType (column_type c) = mapStringToColumnType (column_type column))
            collapsed declared.
Proof.
  induction 1 as [|column c declared live Hc _ IH]; intros acc; cbn [foldR].
  - exists []. split; [now rewrite app_nil_r | constructor].
  - destruct (column_of_inv _ _ Hc) as (Hname & type & Htype & Hsame).
    rewrite Htype. cbn [bindR].
    destruct (IH (push acc {| column_handle := getName c; column_type := type |}))
      as (collapsed & Hfold & Hall).
    exists ({| column_handle := getName c; column_type := type |} :: collapsed).
    split; [rewrite Hfold; unfold push; now rewrite <- app_assoc|].
    constructor; [simpl; auto | exact Hall].
Qed.

Lemma index_of_name (index : SchemaDescriptionIndex) (i : Index) :
  index_of index = Return i -> index_getName i = sdi_handle index.
Proof.
  unfold index_of. destruct (mapStringToIndexType (sdi_type index)); [|discriminate].
  simpl. intros H. now injection H as <-.
Qed.

(** C3, amended. Collapsing a live description that equals the expansion
    of a schema never fails and reproduces the handle of the collection
    and, one for one and in order, the column handles and the index
    handles of the expansion, not those of the logical description: the
    columns of a localized field stay one per locale. Every column comes
    back with a type name that stands for the same column type as the
    declared one. *)
Theorem collapse_reproduces_expansion :
  forall (IndexType_value : IndexType.t -> string)
         {L} (context : PluginInitContext L) (schema : Schema)
         (live : DescribeCollectionQueryResult),
    live_description (schemaToSchemaDescription context schema) = Return live ->
    exists collapsed,
      databaseDescriptionToSchemaDescription IndexType_value context live = Return collapsed /\
      handle collapsed = schema_handle schema /\
      Forall2 (fun c column =>
                 column_handle c = column_handle column /\
                 mapStringToColumnType (column_type c)
                 = mapStringToColumnType (column_type column))
              (sd_columns collapsed) (sd_columns (schemaToSchemaDescription context schema)) /\
      map sdi_handle (sd_indexes collapsed)
      = map sdi_handle (sd_indexes (schemaToSchemaDescription context schema)).
Proof.
  intros IndexType_value L context schema live.
  assert (Hhandle : handle (schemaToSchemaDescription context schema)
                    = schema_handle schema) by reflexivity.
  revert Hhandle. generalize (schemaToSchemaDescription context schema) as expansion.
  intros expansion Hhandle Hlive.
  unfold live_description in Hlive.
  destruct (mapR column_of (sd_columns expansion)) as [cs|e] eqn:Hcs; [|discriminate].
  simpl in Hlive.
  destruct (mapR index_of (sd_indexes expansion)) as [ixs|e] eqn:His; [|discriminate].
  simpl in Hlive. injection Hlive as <-.
  apply mapR_Forall2 in Hcs. apply mapR_Forall2 in His.
  destruct (collapse_columns _ _ Hcs []) as (collapsed & Hfold & Hall).
  unfold databaseDescriptionToSchemaDescription. cbn [columns indexes collection].
  rewrite Hfold. cbn [bindR app].
  eexists. split; [reflexivity|]. cbn [handle sd_columns sd_indexes].
  split; [exact Hhandle|]. split; [exact Hall|].
  rewrite fold_left_push_map. cbn [app]. rewrite map_map. cbn [sdi_handle].
  clear - His. induction His as [|index i idxs ixs Hi _ IH]; simpl; [reflexivity|].
  now rewrite IH, (index_of_name _ _ Hi).
Qed.

Lemma collapse_reproduces_expansion_witness :
  live_description (schemaToSchemaDescription blog News) = Return News_live /\
  exists collapsed,
    databaseDescriptionToSchemaDescription mapIndexTypeToString blog News_live
      = Return collapsed /\
    handle collapsed = schema_handle News /\
    Forall2 (fun c column =>
               column_handle c = column_handle column /\
               mapStringToColumnType (column_type c)
               = mapStringToColumnType (column_type column))
            (sd_columns collapsed) (sd_columns (schemaToSchemaDescription blog News)) /\
    map sdi_handle (sd_indexes collapsed)
    = map sdi_handle (sd_indexes (schemaToSchemaDescription blog News)).
Proof.
  split; [reflexivity|].
  exact (collapse_reproduces_expansion mapIndexTypeToString blog News News_live eq_refl).
Defined.

(** ** The loop of [executeSchemaMigration] *)

Lemma only_asked_nothing (stdin : option ReadStream) (stdout : option WriteStream)
    (w : World) {A} (r : Fallible A) :
  (forall q, r <> Throw (Rejected q)) -> only_asked stdin stdout w w r.
Proof.
  intros Hr. split; [reflexivity|]. exists []. rewrite app_nil_r.
  split; [reflexivity|]. split; [reflexivity|].
  split; [intros (x & [] & _) | exact Hr].
Qed.

(** A prompt whose failure is turned into the abort error. *)
Lemma prompt_run (stdin : ReadStream) (stdout : WriteStream) (message : string)
    (choices : Map string) (w : World) :
  rethrowA (promptSelection stdin stdout message choices) UserAborted w =
  ({| executed := executed w;
      asked := asked w ++ [{| question := message; selections := choices;
                              answer := stdin (asked w) message choices |}] |},
   match stdin (asked w) message choices with
   | Chosen key => Return key
   | NoAnswer => Throw UserAborted
   end).
Proof.
  unfold rethrowA, promptSelection, push.
  now destruct (stdin (asked w) message choices).
Qed.

Lemma choose_copy_spec (stdin : option ReadStream) (stdout : option WriteStream)
    (collectionHandle columnName : string) (copyColumn : list string)
    (w w' : World) (r : Fallible (option string)) :
  choose_copy stdin stdout collectionHandle columnName copyColumn w = (w', r) ->
  only_asked stdin stdout w w' r /\
  (forall choice, r = Return choice -> copyColumn = [] -> choice = None).
Proof.
  unfold choose_copy. destruct copyColumn as [|c copy]; cbn [List.length Nat.ltb Nat.leb].
  - unfold retA. intros H. injection H as <- <-.
    split; [apply only_asked_nothing; discriminate|].
    intros choice H _. now injection H as <-.
  - intros H. split; [|discriminate].
    destruct (terminal stdin stdout) as [[i o]|] eqn:Hterm.
    + unfold bindA in H. rewrite prompt_run in H.
      destruct (i (asked w) _ _) as [key|] eqn:Hanswer; cbv beta iota in H.
      * destruct (String.eqb_spec key "abort") as [->|Hne].
        -- unfold throwA in H. injection H as <- <-.
           split; [reflexivity|]. eexists. split; [reflexivity|].
           split; [intros Hn; congruence|]. split; [reflexivity | discriminate].
        -- destruct (String.eqb key "empty"); unfold retA in H; injection H as <- <-;
             (split; [reflexivity|]); eexists; (split; [reflexivity|]);
             (split; [intros Hn; congruence|]); (split; [|discriminate]);
             intros (x & [<-|[]] & [Hx|Hx]); simpl in Hx; congruence.
      * injection H as <- <-.
        split; [reflexivity|]. eexists. split; [reflexivity|].
        split; [intros Hn; congruence|]. split; [reflexivity | discriminate].
    + unfold throwA in H. injection H as <- <-.
      apply only_asked_nothing. discriminate.
Qed.

Lemma confirm_drop_spec (stdin : option ReadStream) (stdout : option WriteStream)
    (i : ReadStream) (o : WriteStream) (columnName : string)
    (w w' : World) (r : Fallible unit) :
  terminal stdin stdout = Some (i, o) ->
  confirm_drop i o columnName w = (w', r) ->
  only_asked stdin stdout w w' r.
Proof.
  intros Hterm H. unfold confirm_drop, bindA in H. rewrite prompt_run in H.
  destruct (i (asked w) _ _) as [key|] eqn:Hanswer; cbv beta iota in H.
  - destruct (String.eqb_spec key "abort") as [->|Hne];
      unfold throwA, retA in H; injection H as <- <-;
      (split; [reflexivity|]); eexists; (split; [reflexivity|]);
      rewrite Hterm; (split; [discriminate|]); (split; [|discriminate]).
    + reflexivity.
    + intros (x & [<-|[]] & [Hx|Hx]); simpl in Hx; congruence.
  - injection H as <- <-.
    split; [reflexivity|]. eexists. split; [reflexivity|].
    rewrite Hterm. split; [discriminate|]. split; [reflexivity | discriminate].
Qed.

Lemma only_asked_then (stdin : option ReadStream) (stdout : option WriteStream)
    (w w' : World) {A B} (a : A) (r : Fallible B) :
  only_asked stdin stdout w w' (Return (E := Error) a) ->
  (forall q, r <> Throw (Rejected q)) ->
  only_asked stdin stdout w w' r.
Proof.
  intros (Hex & new & Hnew & Hquiet & Habort & _) Hr.
  split; [exact Hex|]. exists new. split; [exact Hnew|]. split; [exact Hquiet|].
  split; [|exact Hr]. intros Hx. apply Habort in Hx. discriminate.
Qed.

Lemma column_of_not_rejected (column : SchemaDescriptionColumn) (q : Query) :
  column_of column <> Throw (Rejected q).
Proof.
  unfold column_of, mapStringToColumnType.
  repeat match goal with |- context [if ?c then _ else _] => destruct c end; discriminate.
Qed.

Lemma index_of_not_rejected (index : SchemaDescriptionIndex) (q : Query) :
  index_of index <> Throw (Rejected q).
Proof.
  unfold index_of, mapStringToIndexType.
  repeat match goal with |- context [if ?c then _ else _] => destruct c end; discriminate.
Qed.

Lemma mapR_not_rejected {A B} (f : A -> Fallible B) (l : list A) (q : Query) :
  (forall x, f x <> Throw (Rejected q)) -> mapR f l <> Throw (Rejected q).
Proof.
  intros Hf. induction l as [|x l IH]; simpl; [discriminate|].
  specialize (Hf x). destruct (f x); simpl; [|congruence].
  destruct (mapR f l); simpl; [discriminate | congruence].
Qed.

(** One turn of the loop over the diffs. *)
Lemma migrate_diff_spec (stdin : option ReadStream) (stdout : option WriteStream)
    (b : Batch) (d : SchemaDiff) (w w' : World) (r : Fallible Batch) :
  muteNewColumn b = [] ->
  migrate_diff stdin stdout b d w = (w', r) ->
  only_asked stdin stdout w w' r /\ (forall b', r = Return b' -> folded b d b').
Proof.
  intros Hmute H. unfold folded.
  destruct d as [c|c column copy|c column|c column type|c index|c index];
    cbn [migrate_diff is_add_collection diff_collection] in H |- *.
  - unfold liftA in H. injection H as <- <-.
    pose proof (fun q => mapR_not_rejected column_of (sd_columns c) q
                           (fun x => column_of_not_rejected x q)) as Hc.
    pose proof (fun q => mapR_not_rejected index_of (sd_indexes c) q
                           (fun x => index_of_not_rejected x q)) as Hi.
    destruct (mapR column_of (sd_columns c)) as [columns|e] eqn:Hcols; cbn [bindR].
    + destruct (mapR index_of (sd_indexes c)) as [indexes|e] eqn:Hidxs; cbn [bindR].
      * split; [apply only_asked_nothing; discriminate|].
        intros b' Hb. injection Hb as <-. cbn.
        split; [exact Hmute|]. split; [reflexivity|].
        eexists. split; [|reflexivity]. cbn. auto.
      * split; [apply only_asked_nothing; intros q Hq; apply (Hi q); congruence | discriminate].
    + split; [apply only_asked_nothing; intros q Hq; apply (Hc q); congruence | discriminate].
  - rewrite Hmute in H. cbn [lacks existsb negb] in H. unfold bindA in H.
    destruct (choose_copy _ _ _ _ _ w) as [w1 [choice|e]] eqn:Hchoice;
      apply choose_copy_spec in Hchoice; destruct Hchoice as [Hasked Hempty].
    + unfold liftA, retA in H.
      pose proof (column_of_not_rejected column) as Hc.
      destruct (column_of column) as [new|e] eqn:Hnew; injection H as <- <-.
      * split; [eapply only_asked_then; [exact Hasked | discriminate]|].
        intros b' Hb. injection Hb as <-. cbn.
        split; [exact Hmute|]. split; [reflexivity|].
        exists (AddColumn new choice). cbn. auto.
      * split; [eapply only_asked_then; [exact Hasked | intros q Hq; apply (Hc q); congruence] | discriminate].
    + injection H as <- <-. split; [|discriminate].
      destruct Hasked as (Hex & new & Hnew & Hquiet & Habort & Hrej).
      split; [exact Hex|]. exists new. repeat split; auto.
      * intros Hx. apply Habort in Hx. congruence.
      * intros q Hq. apply (Hrej q). congruence.
  - destruct (terminal stdin stdout) as [[i o]|] eqn:Hterm.
    + unfold bindA in H.
      destruct (confirm_drop i o _ w) as [w1 [[]|e]] eqn:Hconfirm;
        apply (confirm_drop_spec stdin stdout) in Hconfirm; try exact Hterm.
      * unfold retA in H. injection H as <- <-.
        split; [eapply only_asked_then; [exact Hconfirm | discriminate]|].
        intros b' Hb. injection Hb as <-. cbn.
        split; [exact Hmute|]. split; [reflexivity|].
        exists (DropColumn (column_handle column)). cbn. auto.
      * injection H as <- <-. split; [|discriminate].
        destruct Hconfirm as (Hex & new & Hnew & Hquiet & Habort & Hrej).
        split; [exact Hex|]. exists new. repeat split; auto.
        -- intros Hx. apply Habort in Hx. congruence.
        -- intros q Hq. apply (Hrej q). congruence.
    + unfold throwA in H. injection H as <- <-.
      split; [apply only_asked_nothing; discriminate | discriminate].
  - unfold bindA, liftA, retA in H.
    pose proof (column_of_not_rejected
                  {| column_handle := column_handle column; column_type := type |}) as Hc.
    destruct (column_of _) as [new|e] eqn:Hnew; injection H as <- <-.
    + split; [apply only_asked_nothing; discriminate|].
      intros b' Hb. injection Hb as <-. cbn.
      split; [exact Hmute|]. split; [reflexivity|].
      exists (AlterColumn (column_handle column) new). cbn. auto.
    + split; [apply only_asked_nothing; intros q Hq; apply (Hc q); congruence | discriminate].
  - unfold bindA, liftA, retA in H.
    pose proof (index_of_not_rejected index) as Hi.
    destruct (index_of index) as [new|e] eqn:Hnew; injection H as <- <-.
    + split; [apply only_asked_nothing; discriminate|].
      intros b' Hb. injection Hb as <-. cbn.
      split; [exact Hmute|]. split; [reflexivity|].
      exists (AddIndex new). cbn. auto.
    + split; [apply only_asked_nothing; intros q Hq; apply (Hi q); congruence | discriminate].
  - unfold retA in H. injection H as <- <-.
    split; [apply only_asked_nothing; discriminate|].
    intros b' Hb. injection Hb as <-. cbn.
    split; [exact Hmute|]. split; [reflexivity|].
    exists (DropIndex (sdi_handle index)). cbn. auto.
Qed.

(** ** The map of [AlterCollection] queries *)

Lemma replace_Forall {V} (P : string * V -> Prop) (key : string) (v : V) (m : Map V) :
  Forall P m -> (forall k, String.eqb k key = true -> P (k, v)) ->
  Forall P (replace key v m).
Proof.
  intros Hall Hnew. induction Hall as [|[k x] m Hx Hm IH]; simpl; [constructor|].
  destruct (String.eqb k key) eqn:Hk; constructor; auto.
Qed.

Lemma Map_set_keys {V} (key : string) (v : V) (m : Map V) :
  keys (Map_set key v m) = if has key m then keys m else keys m ++ [key].
Proof.
  unfold Map_set. destruct (has key m).
  - apply keys_replace.
  - unfold keys. now rewrite map_app.
Qed.

Lemma Map_set_well_keyed (h : string) (a : AlterCollectionQuery)
    (m : Map AlterCollectionQuery) :
  well_keyed m -> alter_collection a = h -> well_keyed (Map_set h a m).
Proof.
  intros [Hnodup Hall] Ha. split.
  - rewrite Map_set_keys. destruct (has h m) eqn:Hhas; [exact Hnodup|].
    apply NoDup_app; [exact Hnodup | repeat constructor; simpl; tauto|].
    intros k Hin [<-|[]].
    apply has_true_iff in Hin. congruence.
  - unfold Map_set. destruct (has h m).
    + apply replace_Forall; [exact Hall|].
      intros k Hk. apply String.eqb_eq in Hk. simpl. congruence.
    + apply Forall_app. split; [exact Hall | repeat constructor; exact Ha].
Qed.

Lemma Map_get_well_keyed (h : string) (a : AlterCollectionQuery)
    (m : Map AlterCollectionQuery) :
  well_keyed m -> Map_get h m = Some a -> alter_collection a = h.
Proof.
  intros [_ Hall]. unfold Map_get.
  induction Hall as [|[k x] m Hx _ IH]; simpl; [discriminate|].
  destruct (String.eqb_spec k h) as [->|_]; [|exact IH].
  intros H. injection H as <-. exact Hx.
Qed.

Lemma Map_get_ensure (h : string) (m : Map AlterCollectionQuery) :
  exists a, Map_get h (ensure_alter h m) = Some a /\ changes a = changes_for h m.
Proof.
  unfold ensure_alter, changes_for, Map_has, has, Map_get.
  destruct (get h m) as [a|] eqn:Hget; simpl.
  - exists a. now rewrite Hget.
  - exists (q_alterCollection h).
    fold (Map_get h (Map_set h (q_alterCollection h) m)).
    rewrite Map_get_set, String.eqb_refl. auto.
Qed.

Lemma ensure_alter_well_keyed (h : string) (m : Map AlterCollectionQuery) :
  well_keyed m -> well_keyed (ensure_alter h m).
Proof.
  intros Hm. unfold ensure_alter. destruct (negb (Map_has h m)); [|exact Hm].
  now apply Map_set_well_keyed.
Qed.

Lemma ensure_alter_keys (h k : string) (m : Map AlterCollectionQuery) :
  In k (keys (ensure_alter h m)) <-> k = h \/ In k (keys m).
Proof.
  unfold ensure_alter, Map_has. destruct (has h m) eqn:Hhas; simpl.
  - apply has_true_iff in Hhas. split; [auto | intros [->|H]; assumption].
  - rewrite Map_set_keys, Hhas, in_app_iff. simpl. intuition.
Qed.

Lemma changes_for_other (h h' : string) (m : Map AlterCollectionQuery) :
  h <> h' -> changes_for h' (ensure_alter h m) = changes_for h' m.
Proof.
  intros Hne. unfold ensure_alter, changes_for.
  destruct (negb (Map_has h m)); [|reflexivity].
  rewrite Map_get_set. now destruct (String.eqb_spec h h').
Qed.

(** Folding one sub-operation into the query of a collection. *)
Lemma amend_alter_spec (h : string) (c : Change) (m : Map AlterCollectionQuery) :
  well_keyed m ->
  let m' := amend_alter h (with_change c) (ensure_alter h m) in
  well_keyed m' /\
  (forall k, In k (keys m') <-> k = h \/ In k (keys m)) /\
  (forall h', changes_for h' m' =
              if String.eqb h h' then changes_for h' m ++ [c] else changes_for h' m).
Proof.
  intros Hm m'. subst m'. unfold amend_alter.
  destruct (Map_get_ensure h m) as (a & Hget & Hchanges). rewrite Hget.
  pose proof (ensure_alter_well_keyed h m Hm) as Hm1.
  pose proof (Map_get_well_keyed _ _ _ Hm1 Hget) as Ha.
  split; [|split].
  - apply Map_set_well_keyed; [exact Hm1 | exact Ha].
  - intros k. rewrite Map_set_keys.
    assert (Hhas : has h (ensure_alter h m) = true).
    { unfold has. fold (Map_get h (ensure_alter h m)). now rewrite Hget. }
    rewrite Hhas. apply ensure_alter_keys.
  - intros h'. unfold changes_for at 1. rewrite Map_get_set.
    destruct (String.eqb_spec h h') as [<-|Hne].
    + simpl. unfold push. now rewrite Hchanges.
    + fold (changes_for h' (ensure_alter h m)). now apply changes_for_other.
Qed.

Lemma only_asked_trans (stdin : option ReadStream) (stdout : option WriteStream)
    (w w1 w' : World) {A B} (a : A) (r : Fallible B) :
  only_asked stdin stdout w w1 (Return (E := Error) a) ->
  only_asked stdin stdout w1 w' r ->
  only_asked stdin stdout w w' r.
Proof.
  intros (Hex1 & new1 & Hnew1 & Hquiet1 & Habort1 & _)
         (Hex2 & new2 & Hnew2 & Hquiet2 & Habort2 & Hrej).
  split; [congruence|]. exists (new1 ++ new2).
  split; [rewrite Hnew2, Hnew1; symmetry; apply app_assoc|].
  split; [intros Hn; now rewrite Hquiet1, Hquiet2|].
  split; [|exact Hrej].
  intros (x & Hin & Hx). apply in_app_iff in Hin. destruct Hin as [Hin|Hin].
  - assert (Hfalse : Return (E := Error) a = Throw UserAborted) by (apply Habort1; eauto).
    discriminate.
  - apply Habort2. eauto.
Qed.

(** The loop over the diffs. *)
Lemma migrate_loop_spec (stdin : option ReadStream) (stdout : option WriteStream)
    (diffs : list SchemaDiff) :
  forall (b : Batch) (w w' : World) (r : Fallible Batch),
    muteNewColumn b = [] ->
    well_keyed (alterCollections b) ->
    foldA (migrate_diff stdin stdout) diffs b w = (w', r) ->
    only_asked stdin stdout w w' r /\
    forall b', r = Return b' ->
      muteNewColumn b' = [] /\
      well_keyed (alterCollections b') /\
      (exists qs, createCollections b' = createCollections b ++ qs /\
                  Forall2 creates (filter is_add_collection diffs) qs) /\
      (forall h, In h (keys (alterCollections b')) <->
                 In h (keys (alterCollections b))
                 \/ exists d, In d diffs /\ targets h d = true) /\
      (forall h, exists cs,
          changes_for h (alterCollections b') = changes_for h (alterCollections b) ++ cs /\
          Forall2 realises (filter (targets h) diffs) cs).
Proof.
  induction diffs as [|d ds IH]; intros b w w' r Hmute Hkeyed H; cbn [foldA] in H.
  - unfold retA in H. injection H as <- <-.
    split; [apply only_asked_nothing; discriminate|].
    intros b' Hb. injection Hb as <-.
    split; [exact Hmute|]. split; [exact Hkeyed|].
    split; [exists []; rewrite app_nil_r; split; [reflexivity | constructor]|].
    split.
    + intros h. split; [auto | intros [Hh|(d & [] & _)]; exact Hh].
    + intros h. exists []. rewrite app_nil_r. split; [reflexivity | constructor].
  - unfold bindA in H.
    destruct (migrate_diff stdin stdout b d w) as [w1 [b1|e]] eqn:Hstep;
      apply migrate_diff_spec in Hstep; try exact Hmute;
      destruct Hstep as [Hasked Hfolded].
    2:{ injection H as <- <-. split; [exact Hasked | discriminate]. }
    destruct (Hfolded b1 eq_refl) as [Hmute1 Hb1]. clear Hfolded.
    assert (Hkeyed1 : well_keyed (alterCollections b1)).
    { destruct (is_add_collection d).
      - destruct Hb1 as [-> _]. exact Hkeyed.
      - destruct Hb1 as (_ & c & _ & ->). now apply amend_alter_spec. }
    destruct (IH b1 w1 w' r Hmute1 Hkeyed1 H) as [Hasked2 Hrest].
    split; [eapply only_asked_trans; eauto|].
    intros b' Hb. destruct (Hrest b' Hb) as (Hm & Hk & (qs & Hqs & Hcreates) & Hkeys & Hchanges).
    split; [exact Hm|]. split; [exact Hk|].
    cbn [filter].
    destruct (is_add_collection d) eqn:Hadd.
    + destruct Hb1 as (Halters & q & Hq & Hcreate).
      assert (Htd : forall h, targets h d = false)
        by (intros h; unfold targets; now rewrite Hadd).
      split; [|split].
      * exists (q :: qs). split; [|now constructor].
        rewrite Hqs, Hcreate. unfold push. now rewrite <- app_assoc.
      * intros h. rewrite Hkeys, Halters. split.
        -- intros [Hh|(x & Hx & Ht)]; [now left | right; exists x; split; [now right | exact Ht]].
        -- intros [Hh|(x & [<-|Hx] & Ht)]; [now left | | right; eauto].
           unfold targets in Ht. rewrite Hadd in Ht. discriminate.
      * intros h. destruct (Hchanges h) as (cs & Hcs & Hall).
        exists cs. rewrite Hcs, Halters, Htd. auto.
    + destruct Hb1 as (Hcreate & c & Hc & Halters).
      assert (Htd : forall h, targets h d = String.eqb (diff_collection d) h)
        by (intros h; unfold targets; now rewrite Hadd).
      destruct (amend_alter_spec (diff_collection d) c (alterCollections b) Hkeyed)
        as (_ & Hkeys1 & Hchanges1).
      cbv zeta in Hkeys1, Hchanges1. rewrite <- Halters in Hkeys1, Hchanges1.
      split; [|split].
      * exists qs. split; [congruence | exact Hcreates].
      * intros h. rewrite Hkeys, Hkeys1. split.
        -- intros [[->|Hh]|(x & Hx & Ht)].
           ++ right. exists d. split; [now left|].
              unfold targets. now rewrite Hadd, String.eqb_refl.
           ++ now left.
           ++ right. exists x. split; [now right | exact Ht].
        -- intros [Hh|(x & [<-|Hx] & Ht)]; [auto | | right; eauto].
           left. left. unfold targets in Ht. rewrite Hadd in Ht.
           symmetry. now apply String.eqb_eq.
      * intros h. destruct (Hchanges h) as (cs & Hcs & Hall).
        rewrite Hcs, Hchanges1, Htd.
        destruct (String.eqb (diff_collection d) h).
        -- exists (c :: cs). split; [now rewrite <- app_assoc | now constructor].
        -- exists cs. auto.
Qed.

(** ** The whole of [executeSchemaMigration] *)

Lemma executeSchemaMigration_run {L} (context : PluginInitContext L) (diffs : list SchemaDiff)
    (stdin : option ReadStream) (stdout : option WriteStream) (w : World) :
  executeSchemaMigration context diffs stdin stdout w =
  match foldA (migrate_diff stdin stdout) diffs empty_batch w with
  | (w1, Return b) => dispatch (database context) (queries_of b) w1
  | (w1, Throw e) => (w1, Throw e)
  end.
Proof.
  unfold executeSchemaMigration, bindA. now rewrite sort_noop.
Qed.

Lemma empty_batch_well_keyed : well_keyed (alterCollections empty_batch).
Proof. split; constructor. Qed.

Lemma well_keyed_get (m : Map AlterCollectionQuery) (k : string) (a : AlterCollectionQuery) :
  NoDup (keys m) -> In (k, a) m -> Map_get k m = Some a.
Proof.
  unfold Map_get. induction m as [|[k0 a0] m IH]; simpl; [tauto|].
  intros Hnodup Hin. inversion Hnodup as [|? ? Hnotin Hnodup2]; subst.
  destruct Hin as [Heq|Hin].
  - injection Heq as -> ->. now rewrite String.eqb_refl.
  - destruct (String.eqb_spec k0 k) as [->|_]; [|now apply IH].
    exfalso. apply Hnotin. change k with (fst (k, a)). now apply in_map.
Qed.

Lemma well_keyed_values (m : Map AlterCollectionQuery) :
  well_keyed m -> map alter_collection (Map_values m) = keys m.
Proof.
  intros [_ Hall]. unfold Map_values, keys.
  induction Hall as [|[k a] m Ha _ IH]; simpl; [reflexivity|].
  simpl in Ha. now rewrite Ha, IH.
Qed.

(** Either the loop fails, and then nothing is sent, or it returns a
    batch, and then the batch is sent in a world where every question has
    been asked already. *)
Lemma executeSchemaMigration_spec {L} (context : PluginInitContext L)
    (diffs : list SchemaDiff) (stdin : option ReadStream) (stdout : option WriteStream)
    (w w' : World) (r : Fallible unit) :
  executeSchemaMigration context diffs stdin stdout w = (w', r) ->
  (~ dispatched r /\ (exists e, r = Throw e) /\ only_asked stdin stdout w w' r) \/
  (dispatched r /\
   exists w1 b,
     foldA (migrate_diff stdin stdout) diffs empty_batch w = (w1, Return b) /\
     only_asked stdin stdout w w1 (Return (E := Error) b) /\
     asked w' = asked w1 /\
     executed w' = executed w ++ queries_of b /\
     Forall2 creates (filter is_add_collection diffs) (createCollections b) /\
     well_keyed (alterCollections b) /\
     (forall h, In h (keys (alterCollections b)) <->
                exists d, In d diffs /\ targets h d = true) /\
     (forall h, Forall2 realises (filter (targets h) diffs)
                        (changes_for h (alterCollections b)))).
Proof.
  rewrite executeSchemaMigration_run. intros H.
  destruct (foldA (migrate_diff stdin stdout) diffs empty_batch w) as [w1 [b|e]] eqn:Hloop;
    apply migrate_loop_spec in Hloop; try reflexivity; try exact empty_batch_well_keyed;
    destruct Hloop as [Hasked Hbuilt].
  - right. unfold dispatch in H. injection H as <- <-.
    split.
    { unfold dispatched. destruct (find _ _); [right; eauto | now left]. }
    exists w1, b. split; [reflexivity|]. split; [exact Hasked|].
    split; [reflexivity|].
    destruct (Hbuilt b eq_refl) as (_ & Hk & (qs & Hqs & Hcreates) & Hkeys & Hchanges).
    destruct Hasked as (Hex & _). cbn [executed]. rewrite Hex.
    split; [reflexivity|]. simpl in Hqs. subst qs.
    split; [exact Hcreates|]. split; [exact Hk|]. split.
    + intros h. rewrite Hkeys. simpl. tauto.
    + intros h. destruct (Hchanges h) as (cs & Hcs & Hall).
      unfold changes_for at 2 in Hcs. simpl in Hcs. now rewrite Hcs.
  - left. injection H as <- <-.
    assert (Hnot : forall q, Throw (A := unit) e <> Throw (Rejected q)).
    { destruct Hasked as (_ & new & _ & _ & _ & Hrej).
      intros q Hq. apply (Hrej q). congruence. }
    split; [|split].
    + intros [Hd|(q & Hd)]; [discriminate | now apply (Hnot q)].
    + eauto.
    + destruct Hasked as (Hex & new & Hnew & Hquiet & Habort & Hrej).
      split; [exact Hex|]. exists new. repeat split; auto.
      intros Hx. apply Habort in Hx. congruence.
Qed.

(** The queries of a batch that was sent. *)
Lemma executeSchemaMigration_built {L} (context : PluginInitContext L)
    (diffs : list SchemaDiff) (stdin : option ReadStream) (stdout : option WriteStream)
    (w w' : World) (r : Fallible unit) :
  executeSchemaMigration context diffs stdin stdout w = (w', r) ->
  dispatched r ->
  exists created altered,
    executed w' = executed w ++ map CreateCollection created ++ map AlterCollection altered /\
    Forall2 creates (filter is_add_collection diffs) created /\
    NoDup (map alter_collection altered) /\
    (forall h, In h (map alter_collection altered) <->
               exists d, In d diffs /\ targets h d = true) /\
    (forall a, In a altered ->
               Forall2 realises (filter (targets (alter_collection a)) diffs) (changes a)).
Proof.
  intros H Hd. apply executeSchemaMigration_spec in H.
  destruct H as [(Hnot & _)|(_ & w1 & b & _ & _ & _ & Hex & Hcreates & Hk & Hkeys & Hchanges)];
    [contradiction|].
  exists (createCollections b), (Map_values (alterCollections b)).
  split; [exact Hex|]. split; [exact Hcreates|].
  rewrite (well_keyed_values _ Hk).
  split; [exact (proj1 Hk)|]. split; [exact Hkeys|].
  intros a Ha. unfold Map_values in Ha. apply in_map_iff in Ha.
  destruct Ha as ([k a0] & Heq & Hin). simpl in Heq. subst a0.
  assert (Hname : alter_collection a = k).
  { destruct Hk as [_ Hall]. rewrite Forall_forall in Hall. exact (Hall _ Hin). }
  rewrite Hname. specialize (Hchanges k). unfold changes_for in Hchanges.
  now rewrite (well_keyed_get _ _ _ (proj1 Hk) Hin) in Hchanges.
Qed.

(** C8. When [executeSchemaMigration] sends its batch, the batch is made
    of one [CreateCollection] query for each [add_collection] diff, in
    order and built from the description the diff carries, followed by
    [AlterCollection] queries about pairwise distinct collections, one
    for each collection that some other diff is about and no more; and
    the sub-operations of the query about a collection are, one for one
    and in order, what the diffs about that collection other than
    [add_collection] are folded into. *)
Theorem executeSchemaMigration_groups :
  forall {L} (context : PluginInitContext L) (diffs : list SchemaDiff)
         (stdin : option ReadStream) (stdout : option WriteStream)
         (w w' : World) (r : Fallible unit),
    executeSchemaMigration context diffs stdin stdout w = (w', r) ->
    dispatched r ->
    exists created altered,
      executed w' = executed w ++ map CreateCollection created ++ map AlterCollection altered /\
      Forall2 creates (filter is_add_collection diffs) created /\
      NoDup (map alter_collection altered) /\
      (forall h, In h (map alter_collection altered) <->
                 exists d, In d diffs /\ targets h d = true) /\
      (forall a, In a altered ->
                 Forall2 realises (filter (targets (alter_collection a)) diffs) (changes a)).
Proof.
  intros L context diffs stdin stdout w w' r H Hd.
  exact (executeSchemaMigration_built context diffs stdin stdout w w' r H Hd).
Qed.

Lemma executeSchemaMigration_groups_witness :
  executeSchemaMigration blog blog_diffs (Some agreeing_operator) (Some tty) nothing_yet
    = (blog_migrated, Return tt) /\
  dispatched (Return tt) /\
  exists created altered,
    executed blog_migrated
      = executed nothing_yet ++ map CreateCollection created ++ map AlterCollection altered /\
    Forall2 creates (filter is_add_collection blog_diffs) created /\
    NoDup (map alter_collection altered) /\
    (forall h, In h (map alter_collection altered) <->
               exists d, In d blog_diffs /\ targets h d = true) /\
    (forall a, In a altered ->
               Forall2 realises (filter (targets (alter_collection a)) blog_diffs) (changes a)).
Proof.
  assert (Hrun : executeSchemaMigration blog blog_diffs (Some agreeing_operator) (Some tty)
                   nothing_yet = (blog_migrated, Return tt)) by (vm_compute; reflexivity).
  assert (Hd : dispatched (Return tt)) by (now left).
  split; [exact Hrun|]. split; [exact Hd|].
  exact (executeSchemaMigration_groups _ _ _ _ _ _ _ Hrun Hd).
Defined.

(** C2. The sub-operations of an [AlterCollection] query follow the order
    of the diffs, which the sort with a comparator that always answers 0
    leaves as it is; no add-column comes first. For the diffs that
    [getSchemaDiff] returns for [Post], with an operator who confirms the
    deletion of [legacy] and has [summary] copied from [legacy], the
    query alters [title], then drops [legacy], and only then adds
    [summary], to be copied from the column it has just dropped. *)
Theorem executeSchemaMigration_keeps_the_order_of_the_diffs :
  getSchemaDiff blog_Castable mapIndexTypeToString blog [Post] nothing_yet
    = (Post_described, Return Post_segment) /\
  JS.sort (fun _ _ => 0%Z) Post_segment = Post_segment /\
  map is_add_column Post_segment = [false; false; true] /\
  let run := executeSchemaMigration blog Post_segment (Some copying_operator) (Some tty)
               nothing_yet in
  snd run = Return tt /\
  executed (fst run) =
    [AlterCollection
       {| alter_collection := "Post";
          changes := [AlterColumn "title" (q_column "title" ColumnType.Int64);
                      DropColumn "legacy";
                      AddColumn (q_column "summary" ColumnType.Text) (Some "legacy")] |}].
Proof. repeat split; vm_compute; reflexivity. Qed.

(** C4. When an interactive decision of a run of [executeSchemaMigration]
    aborts (the operator chooses [abort], or the prompt fails), the run
    throws the abort error and sends no query; and when a run has sent a
    query, it has sent its whole batch, after the loop over the diffs had
    returned in a world where every question of the run had been asked
    and no query sent. *)
Theorem executeSchemaMigration_abort :
  forall {L} (context : PluginInitContext L) (diffs : list SchemaDiff)
         (stdin : option ReadStream) (stdout : option WriteStream)
         (w w' : World) (r : Fallible unit),
    executeSchemaMigration context diffs stdin stdout w = (w', r) ->
    (forall new, asked w' = asked w ++ new ->
                 (exists x, In x new /\ aborts x) ->
                 r = Throw UserAborted /\ executed w' = executed w) /\
    (executed w' <> executed w ->
     dispatched r /\
     exists w1 b,
       foldA (migrate_diff stdin stdout) diffs empty_batch w = (w1, Return b) /\
       asked w1 = asked w' /\
       executed w1 = executed w /\
       executed w' = executed w1 ++ queries_of b).
Proof.
  intros L context diffs stdin stdout w w' r H.
  apply executeSchemaMigration_spec in H.
  destruct H as [(Hnot & _ & Hasked)
                |(Hd & w1 & b & Hloop & Hasked & Hsame & Hex & _)].
  - destruct Hasked as (Hex & new0 & Hnew0 & _ & Habort & _). split.
    + intros new Hnew Hx. rewrite Hnew0 in Hnew. apply app_inv_head in Hnew. subst new0.
      auto.
    + intros Hne. contradiction.
  - destruct Hasked as (Hex1 & new0 & Hnew0 & _ & Habort & _). split.
    + intros new Hnew Hx. rewrite Hsame, Hnew0 in Hnew. apply app_inv_head in Hnew.
      subst new0. apply Habort in Hx. discriminate.
    + intros _. split; [exact Hd|]. exists w1, b. rewrite Hex1. auto.
Qed.

Lemma executeSchemaMigration_abort_witness :
  executeSchemaMigration blog Post_segment (Some aborting_operator) (Some tty) nothing_yet
    = (blog_aborted, Throw UserAborted) /\
  (exists x, In x (asked blog_aborted) /\ aborts x) /\
  Throw (A := unit) UserAborted = Throw UserAborted /\
  executed blog_aborted = executed nothing_yet.
Proof.
  assert (Hrun : executeSchemaMigration blog Post_segment (Some aborting_operator) (Some tty)
                   nothing_yet = (blog_aborted, Throw UserAborted))
    by (vm_compute; reflexivity).
  assert (Hx : exists x, In x (asked blog_aborted) /\ aborts x).
  { eexists. split; [left; reflexivity | left; reflexivity]. }
  split; [exact Hrun|]. split; [exact Hx|].
  exact (proj1 (executeSchemaMigration_abort _ _ _ _ _ _ _ Hrun)
           (asked blog_aborted) eq_refl Hx).
Defined.

(** ** Without a terminal *)

Lemma migrate_diff_needs_operator (stdin : option ReadStream) (stdout : option WriteStream)
    (b : Batch) (d : SchemaDiff) (w : World) :
  terminal stdin stdout = None ->
  muteNewColumn b = [] ->
  needs_operator d ->
  exists e, migrate_diff stdin stdout b d w = (w, Throw e).
Proof.
  intros Hterm Hmute Hd. destruct d as [c|c column copy|c column|c column type|c index|c index];
    simpl in Hd; try contradiction; cbn [migrate_diff].
  - rewrite Hmute. cbn [lacks existsb negb]. unfold bindA, choose_copy.
    destruct copy as [|x copy]; [contradiction|]. cbn [List.length Nat.ltb Nat.leb].
    rewrite Hterm. unfold throwA. eauto.
  - rewrite Hterm. unfold throwA. eauto.
Qed.

Lemma migrate_loop_needs_operator (stdin : option ReadStream) (stdout : option WriteStream)
    (diffs : list SchemaDiff) :
  terminal stdin stdout = None ->
  forall (b : Batch) (w : World),
    muteNewColumn b = [] ->
    (exists d, In d diffs /\ needs_operator d) ->
    exists w1 e, foldA (migrate_diff stdin stdout) diffs b w = (w1, Throw e).
Proof.
  intros Hterm. induction diffs as [|d ds IH]; intros b w Hmute (x & Hin & Hx);
    [destruct Hin|]. cbn [foldA]. unfold bindA.
  destruct (migrate_diff stdin stdout b d w) as [w1 [b1|e]] eqn:Hstep; [|eauto].
  destruct Hin as [<-|Hin].
  - destruct (migrate_diff_needs_operator stdin stdout b d w Hterm Hmute Hx) as [e He].
    congruence.
  - apply migrate_diff_spec in Hstep; [|exact Hmute].
    destruct Hstep as [_ Hfolded]. destruct (Hfolded b1 eq_refl) as [Hmute1 _].
    apply IH; eauto.
Qed.

Lemma migrate_loop_adds_empty (stdin : option ReadStream) (stdout : option WriteStream)
    (diffs : list SchemaDiff) :
  (forall d, In d diffs ->
     exists c column new, d = add_column c column [] /\ column_of column = Return new) ->
  forall (b : Batch) (w : World),
    muteNewColumn b = [] ->
    exists b', foldA (migrate_diff stdin stdout) diffs b w = (w, Return b').
Proof.
  induction diffs as [|d ds IH]; intros Hall b w Hmute; cbn [foldA].
  - unfold retA. eauto.
  - destruct (Hall d (or_introl eq_refl)) as (c & column & new & -> & Hnew).
    unfold bindA. cbn [migrate_diff]. rewrite Hmute. cbn [lacks existsb negb].
    unfold bindA, choose_copy. cbn [List.length Nat.ltb Nat.leb]. unfold retA, liftA.
    rewrite Hnew. apply IH; [intros x Hx; apply Hall; now right | exact Hmute].
Qed.

(** C10. When [executeSchemaMigration] runs without the two streams of a
    terminal, nothing is asked; a [drop_column] diff, or an [add_column]
    diff with copy candidates, makes the run throw and send no query; a
    run over [add_column] diffs without copy candidates, of known types,
    sends its batch; and in a batch that is sent, the column of every
    [add_column] diff without copy candidates is added to its collection
    with nothing to copy from. *)
Theorem executeSchemaMigration_without_terminal :
  forall {L} (context : PluginInitContext L) (diffs : list SchemaDiff)
         (stdin : option ReadStream) (stdout : option WriteStream)
         (w w' : World) (r : Fallible unit),
    terminal stdin stdout = None ->
    executeSchemaMigration context diffs stdin stdout w = (w', r) ->
    asked w' = asked w /\
    ((exists d, In d diffs /\ needs_operator d) ->
     (exists e, r = Throw e) /\ executed w' = executed w) /\
    ((forall d, In d diffs ->
        exists c column new, d = add_column c column [] /\ column_of column = Return new) ->
     dispatched r) /\
    (dispatched r ->
     forall c column, In (add_column c column []) diffs ->
       exists a new,
         In (AlterCollection a) (executed w') /\
         alter_collection a = handle c /\
         column_of column = Return new /\
         In (AddColumn new None) (changes a)).
Proof.
  intros L context diffs stdin stdout w w' r Hterm H.
  pose proof H as Hrun. rewrite executeSchemaMigration_run in Hrun.
  pose proof (executeSchemaMigration_built context diffs stdin stdout w w' r H) as Hbuilt.
  apply executeSchemaMigration_spec in H.
  split; [|split; [|split]].
  - destruct H as [(_ & _ & Hasked)|(_ & w1 & b & _ & Hasked & Hsame & _)];
      destruct Hasked as (_ & new & Hnew & Hquiet & _);
      rewrite (Hquiet Hterm), app_nil_r in Hnew; congruence.
  - intros Hneeds.
    destruct H as [(_ & He & Hasked)|(_ & w1 & b & Hloop & _)].
    + split; [exact He | exact (proj1 Hasked)].
    + destruct (migrate_loop_needs_operator stdin stdout diffs Hterm empty_batch w
                  eq_refl Hneeds) as (w2 & e & Hthrow).
      congruence.
  - intros Hall.
    destruct (migrate_loop_adds_empty stdin stdout diffs Hall empty_batch w eq_refl)
      as [b Hloop].
    rewrite Hloop in Hrun. unfold dispatch in Hrun. injection Hrun as <- <-.
    unfold dispatched. destruct (find _ _); [right; eauto | now left].
  - intros Hd c column Hin.
    destruct (Hbuilt Hd) as (created & altered & Hex & _ & _ & Hkeys & Hchanges).
    assert (Htargets : targets (handle c) (add_column c column []) = true)
      by (unfold targets; simpl; apply String.eqb_refl).
    assert (Ha : In (handle c) (map alter_collection altered))
      by (apply Hkeys; eauto).
    apply in_map_iff in Ha. destruct Ha as (a & Hname & Ha).
    specialize (Hchanges a Ha). rewrite Hname in Hchanges.
    assert (Hfiltered : In (add_column c column []) (filter (targets (handle c)) diffs))
      by (apply filter_In; auto).
    destruct (Forall2_In_left _ _ _ _ Hchanges Hfiltered) as (change & Hchange & Hreal).
    destruct change as [new choice| | | |]; simpl in Hreal; try contradiction.
    destruct Hreal as [Hnew Hchoice]. rewrite (Hchoice eq_refl) in Hchange.
    exists a, new. split; [|auto].
    rewrite Hex, !in_app_iff. right. right. now apply in_map.
Qed.

Lemma executeSchemaMigration_without_terminal_witness :
  terminal None None = None /\
  executeSchemaMigration blog summary_alone None None nothing_yet
    = ({| executed :=
            [AlterCollection
               {| alter_collection := "Post";
                  changes := [AddColumn (q_column "summary" ColumnType.Text) None] |}];
          asked := [] |},
       Return tt) /\
  dispatched (Return tt) /\
  exists a new,
    In (AlterCollection a)
       [AlterCollection
          {| alter_collection := "Post";
             changes := [AddColumn (q_column "summary" ColumnType.Text) None] |}] /\
    alter_collection a = "Post" /\
    column_of {| column_handle := "summary"; column_type := "text" |} = Return new /\
    In (AddColumn new None) (changes a).
Proof.
  assert (Hrun : executeSchemaMigration blog summary_alone None None nothing_yet
                 = ({| executed :=
                         [AlterCollection
                            {| alter_collection := "Post";
                               changes := [AddColumn (q_column "summary" ColumnType.Text)
                                             None] |}];
                       asked := [] |},
                    Return tt)) by (vm_compute; reflexivity).
  assert (Hd : dispatched (Return tt)) by (now left).
  split; [reflexivity|]. split; [exact Hrun|]. split; [exact Hd|].
  exact (proj2 (proj2 (proj2
           (executeSchemaMigration_without_terminal blog summary_alone None None _ _ _
              eq_refl Hrun)))
           Hd _ _ (or_introl eq_refl)).
Defined.

(** ** Strings *)

Lemma length_append (a b : string) :
  String.length (a ++ b) = String.length a + String.length b.
Proof. induction a as [|c a IH]; simpl; [reflexivity | now rewrite IH]. Qed.

Lemma substring_prefix (a b : string) : substring 0 (String.length a) (a ++ b) = a.
Proof.
  induction a as [|c a IH]; simpl; [now destruct b | now rewrite IH].
Qed.

Lemma substring_skip (a b : string) (n m : nat) :
  substring (String.length a + n) m (a ++ b) = substring n m b.
Proof. induction a as [|c a IH]; simpl; [reflexivity | exact IH]. Qed.

Lemma substring_all (s : string) : substring 0 (String.length s) s = s.
Proof. induction s as [|c s IH]; simpl; [reflexivity | now rewrite IH]. Qed.

Lemma substring_split (s : string) :
  forall k m, k + m = String.length s -> s = (substring 0 k s ++ substring k m s)%string.
Proof.
  induction s as [|c s IH]; intros k m H; simpl in H.
  - assert (k = 0) by lia. assert (m = 0) by lia. subst. reflexivity.
  - destruct k as [|k]; simpl.
    + assert (m = S (String.length s)) by lia. subst m. simpl. now rewrite substring_all.
    + rewrite <- (IH k m) by lia. reflexivity.
Qed.

Lemma substring_two (s : string) :
  forall k a b, k + a + b <= String.length s ->
    substring k (a + b) s = (substring k a s ++ substring (k + a) b s)%string.
Proof.
  induction s as [|c s IH]; intros k a b H; simpl in H.
  - assert (k = 0) by lia. assert (a = 0) by lia. assert (b = 0) by lia. subst. reflexivity.
  - destruct k as [|k]; simpl.
    + destruct a as [|a]; simpl; [reflexivity|].
      rewrite (IH 0 a b) by lia. reflexivity.
    + apply IH. lia.
Qed.

Lemma substring_length (s : string) :
  forall k m, k + m <= String.length s -> String.length (substring k m s) = m.
Proof.
  induction s as [|c s IH]; intros k m H; simpl in H.
  - assert (k = 0) by lia. assert (m = 0) by lia. subst. reflexivity.
  - destruct k as [|k]; simpl; [|apply IH; lia].
    destruct m as [|m]; simpl; [reflexivity|]. rewrite IH by lia. reflexivity.
Qed.

Lemma is_locale_length (s : string) :
  is_locale s = true -> String.length s = 2 \/ String.length s = 5.
Proof.
  destruct s as [|a [|b [|c [|d [|e [|f s]]]]]]; simpl; try discriminate; auto.
Qed.

(** ** The pattern of localized handles *)

Lemma match_with_locale_sound (n : nat) (handle : string) (m : RegExpMatch) :
  match_with_locale n handle = Some m ->
  handle = (group1 m ++ "__" ++ group2 m)%string /\
  group1 m <> EmptyString /\
  all_chars is_handle_char (group1 m) = true /\
  is_locale (group2 m) = true.
Proof.
  unfold match_with_locale.
  destruct (Nat.ltb_spec (n + 2) (String.length handle)) as [Hlen|]; [|discriminate].
  destruct (all_chars _ _) eqn:Hbase; [|discriminate].
  destruct (String.eqb_spec (substring (String.length handle - (n + 2)) 2 handle) "__")
    as [Hsep|]; [|discriminate].
  destruct (is_locale _) eqn:Hloc; [|discriminate].
  cbn [andb]. intros H. injection H as <-. cbn [group1 group2].
  split; [|split; [|split; [exact Hbase | exact Hloc]]].
  - rewrite <- Hsep.
    replace (String.length handle - n) with (String.length handle - (n + 2) + 2) by lia.
    rewrite <- substring_two by lia.
    apply substring_split. lia.
  - intros Hempty.
    assert (Hl : String.length (substring 0 (String.length handle - (n + 2)) handle)
                 = String.length handle - (n + 2)) by (apply substring_length; lia).
    rewrite Hempty in Hl. simpl in Hl. lia.
Qed.

Lemma matchLocalizedHandle_sound_lemma :
  forall (handle : string) (m : RegExpMatch),
    matchLocalizedHandle handle = Some m ->
    handle = (group1 m ++ "__" ++ group2 m)%string /\
    group1 m <> EmptyString /\
    all_chars is_handle_char (group1 m) = true /\
    is_locale (group2 m) = true.
Proof.
  intros handle m. unfold matchLocalizedHandle.
  destruct (match_with_locale 2 handle) as [m2|] eqn:H2.
  - intros H. injection H as <-. now apply (match_with_locale_sound 2).
  - apply (match_with_locale_sound 5).
Qed.

Lemma match_with_locale_append (n : nat) (base locale : string) :
  base <> EmptyString ->
  all_chars is_handle_char base = true ->
  is_locale locale = true ->
  String.length locale = n ->
  match_with_locale n (base ++ "__" ++ locale)
  = Some {| group1 := base; group2 := locale |}.
Proof.
  intros Hne Hbase Hloc Hn. unfold match_with_locale.
  assert (Hlen : String.length (base ++ "__" ++ locale) = String.length base + (2 + n)).
  { rewrite !length_append, Hn. reflexivity. }
  assert (Hpos : 0 < String.length base) by (destruct base; [congruence | simpl; lia]).
  rewrite Hlen.
  destruct (Nat.ltb_spec (n + 2) (String.length base + (2 + n))) as [_|]; [|lia].
  replace (String.length base + (2 + n) - (n + 2)) with (String.length base) by lia.
  replace (String.length base + (2 + n) - n) with (String.length base + 2) by lia.
  rewrite substring_prefix, Hbase.
  rewrite <- (Nat.add_0_r (String.length base)) at 1.
  rewrite !substring_skip.
  assert (Hsep : substring 0 2 ("__" ++ locale) = "__") by (now destruct locale).
  assert (Htail : substring 2 n ("__" ++ locale) = locale)
    by (rewrite <- Hn; simpl; apply substring_all).
  rewrite Hsep, Htail, Hloc. reflexivity.
Qed.

Lemma match_with_locale_too_short (base locale : string) :
  is_locale locale = true ->
  String.length locale = 5 ->
  match_with_locale 2 (base ++ "__" ++ locale) = None.
Proof.
  intros Hloc Hn. unfold match_with_locale.
  assert (Hlen : String.length (base ++ "__" ++ locale) = String.length base + 7).
  { rewrite !length_append, Hn. reflexivity. }
  rewrite Hlen.
  destruct (2 + 2 <? String.length base + 7)%nat; [|reflexivity].
  replace (String.length base + 7 - (2 + 2)) with (String.length base + 3) by lia.
  rewrite substring_skip.
  destruct locale as [|a [|b [|c [|d [|e [|f s]]]]]]; try discriminate.
  simpl in Hloc. 
  destruct (Ascii.eqb_spec c "-") as [->|]; [|now rewrite !andb_false_r in Hloc].
  change (substring 3 2 ("__" ++ String a (String b (String "-" (String d (String e EmptyString))))))
    with (String b (String "-" EmptyString)).
  assert (Hsep : String.eqb (String b (String "-" EmptyString)) "__" = false).
  { apply String.eqb_neq. intros H. discriminate. }
  rewrite Hsep. now rewrite andb_false_r.
Qed.

Lemma matchLocalizedHandle_complete_lemma :
  forall (base locale : string),
    base <> EmptyString ->
    all_chars is_handle_char base = true ->
    is_locale locale = true ->
    matchLocalizedHandle (base ++ "__" ++ locale)
    = Some {| group1 := base; group2 := locale |}.
Proof.
  intros base locale Hne Hbase Hloc. unfold matchLocalizedHandle.
  destruct (is_locale_length locale Hloc) as [H2|H5].
  - now rewrite (match_with_locale_append 2 base locale).
  - rewrite (match_with_locale_too_short base locale Hloc H5).
    now apply match_with_locale_append.
Qed.

(** X1. A handle that [matchLocalizedHandle] accepts is its first group,
    two underscores and its second group; the first group is a non-empty
    run of letters, digits, underscores and hyphens, and the second a
    locale code of two letters, or of two letters, a hyphen and two
    letters. *)
Theorem matchLocalizedHandle_sound :
  forall (handle : string) (m : RegExpMatch),
    matchLocalizedHandle handle = Some m ->
    handle = (group1 m ++ "__" ++ group2 m)%string /\
    group1 m <> EmptyString /\
    all_chars is_handle_char (group1 m) = true /\
    is_locale (group2 m) = true.
Proof. exact matchLocalizedHandle_sound_lemma. Qed.

Lemma matchLocalizedHandle_sound_witness :
  matchLocalizedHandle "post_title__en-CA"
    = Some {| group1 := "post_title"; group2 := "en-CA" |} /\
  "post_title__en-CA" = ("post_title" ++ "__" ++ "en-CA")%string /\
  "post_title" <> EmptyString /\
  all_chars is_handle_char "post_title" = true /\
  is_locale "en-CA" = true.
Proof.
  split; [reflexivity|].
  exact (matchLocalizedHandle_sound "post_title__en-CA"
           {| group1 := "post_title"; group2 := "en-CA" |} eq_refl).
Defined.

(** X2. The handle [base__c] that [schemaToSchemaDescription] gives to the
    column of a localized field, for a non-empty [base] made of letters,
    digits, underscores and hyphens and a locale code [c], is matched by
    [matchLocalizedHandle], with [base] as its first group and [c] as its
    second, even when [base] itself contains double underscores. *)
Theorem matchLocalizedHandle_complete :
  forall (base locale : string),
    base <> EmptyString ->
    all_chars is_handle_char base = true ->
    is_locale locale = true ->
    matchLocalizedHandle (base ++ "__" ++ locale)
    = Some {| group1 := base; group2 := locale |}.
Proof. exact matchLocalizedHandle_complete_lemma. Qed.

Lemma matchLocalizedHandle_complete_witness :
  "a__b" <> EmptyString /\
  all_chars is_handle_char "a__b" = true /\
  is_locale "fr-CA" = true /\
  matchLocalizedHandle ("a__b" ++ "__" ++ "fr-CA")
    = Some {| group1 := "a__b"; group2 := "fr-CA" |}.
Proof.
  assert (Hne : "a__b" <> EmptyString) by discriminate.
  split; [exact Hne|]. split; [reflexivity|]. split; [reflexivity|].
  exact (matchLocalizedHandle_complete "a__b" "fr-CA" Hne eq_refl eq_refl).
Defined.

(** X3. For a new column whose handle is [base__c], with [base] a
    non-empty handle and [c] a locale code, the copy candidates are
    exactly the live columns of the form [base__c'] with [c'] a locale
    code: the columns of the same field for other locales. *)
Theorem copy_candidates_of_a_new_locale :
  forall (live : list string) (base code h : string),
    base <> EmptyString ->
    all_chars is_handle_char base = true ->
    is_locale code = true ->
    In h (copy_candidates live (base ++ "__" ++ code)) <->
    In h live /\ exists code', is_locale code' = true /\ h = (base ++ "__" ++ code')%string.
Proof.
  intros live base code h Hne Hbase Hcode.
  unfold copy_candidates, locale_base.
  rewrite (matchLocalizedHandle_complete_lemma base code Hne Hbase Hcode).
  cbn [option_map group1]. rewrite filter_In. split.
  - intros [Hin Hmatch]. split; [exact Hin|].
    destruct (matchLocalizedHandle h) as [m|] eqn:Hm; [|discriminate]. simpl in Hmatch.
    apply String.eqb_eq in Hmatch.
    destruct (matchLocalizedHandle_sound_lemma h m Hm) as (Hh & _ & _ & Hloc).
    exists (group2 m). split; [exact Hloc|]. now rewrite <- Hmatch.
  - intros [Hin (code' & Hloc & ->)]. split; [exact Hin|].
    rewrite (matchLocalizedHandle_complete_lemma base code' Hne Hbase Hloc).
    cbn [option_map group1]. apply String.eqb_refl.
Qed.

Lemma copy_candidates_of_a_new_locale_witness :
  "title" <> EmptyString /\
  all_chars is_handle_char "title" = true /\
  is_locale "fr" = true /\
  (In "title__en-CA" (copy_candidates ["id"; "title__en-CA"; "slug__en-CA"] "title__fr") <->
   In "title__en-CA" ["id"; "title__en-CA"; "slug__en-CA"] /\
   exists code', is_locale code' = true /\ "title__en-CA" = ("title" ++ "__" ++ code')%string).
Proof.
  assert (Hne : "title" <> EmptyString) by discriminate.
  split; [exact Hne|]. split; [reflexivity|]. split; [reflexivity|].
  exact (copy_candidates_of_a_new_locale ["id"; "title__en-CA"; "slug__en-CA"]
           "title" "fr" "title__en-CA" Hne eq_refl eq_refl).
Defined.

(** ** The indexes of an existing collection *)

Lemma find_index_lacks (h : string) (idxs : list SchemaDescriptionIndex) :
  match find (fun index => String.eqb (sdi_handle index) h) idxs with
  | None => true
  | Some _ => false
  end = lacks (map sdi_handle idxs) h.
Proof.
  unfold lacks. induction idxs as [|i idxs IH]; simpl; [reflexivity|].
  rewrite (String.eqb_sym h). destruct (String.eqb (sdi_handle i) h); simpl; [reflexivity|].
  exact IH.
Qed.

Lemma indexes_to_drop_map (schemaDesc dbSchemaDesc : SchemaDescription) :
  indexes_to_drop schemaDesc dbSchemaDesc =
  map (drop_index schemaDesc)
      (filter (fun dbIndex => lacks (map sdi_handle (sd_indexes schemaDesc)) (sdi_handle dbIndex))
              (sd_indexes dbSchemaDesc)).
Proof.
  unfold indexes_to_drop. rewrite <- flat_map_if. apply flat_map_ext_In. intros i _.
  rewrite <- find_index_lacks. now destruct (find _ _).
Qed.

Lemma indexes_to_add_map (schemaDesc dbSchemaDesc : SchemaDescription) :
  indexes_to_add schemaDesc dbSchemaDesc =
  map (add_index schemaDesc)
      (filter (fun index => lacks (map sdi_handle (sd_indexes dbSchemaDesc)) (sdi_handle index))
              (sd_indexes schemaDesc)).
Proof. unfold indexes_to_add. now rewrite <- flat_map_if. Qed.

(** The diffs of the loop over the live columns are [drop_column] and
    [alter_column] diffs that carry the declared description. *)
Lemma live_columns_kinds (Castable : Z) (db : Database) (schemaDesc : SchemaDescription)
    (dbColumns : list SchemaDescriptionColumn) (each : list (list SchemaDiff * list string)) :
  each_of Castable db schemaDesc dbColumns each ->
  Forall (fun x => is_drop_column x || is_alter_column x = true
                   /\ diff_description x = schemaDesc)
         (concat (map fst each)).
Proof.
  intros Heach. apply Forall_forall. intros x Hx.
  destruct (live_columns_members _ _ _ _ _ _ Heach Hx) as (c & _ & [(-> & _)|(t & -> & _)]);
    split; reflexivity.
Qed.

Lemma columns_to_add_kinds (schemaDesc dbSchemaDesc : SchemaDescription)
    (muted : list string) (columns : list SchemaDescriptionColumn) :
  Forall (fun x => is_add_column x = true /\ diff_description x = schemaDesc)
         (columns_to_add schemaDesc dbSchemaDesc muted columns).
Proof.
  apply Forall_forall. intros x Hx.
  destruct (columns_to_add_members _ _ _ _ _ Hx) as (c & _ & -> & _). split; reflexivity.
Qed.

Lemma Forall_map_kind {A} (P : SchemaDiff -> Prop) (mk : A -> SchemaDiff) (l : list A) :
  (forall x, P (mk x)) -> Forall P (map mk l).
Proof. intros H. apply Forall_forall. intros y Hy. apply in_map_iff in Hy.
  destruct Hy as (x & <- & _). apply H. Qed.

(** X4. While [getSchemaDiff] handles a declared collection that exists,
    the [drop_index] diffs it emits are, in the order of the live
    indexes, one for each live index whose handle is the handle of no
    declared index, and the [add_index] diffs are, in the order of the
    declared indexes, one for each declared index whose handle is the
    handle of no live index. Indexes are matched by handle alone: an
    index on both sides gets no diff, whatever its type and columns. *)
Theorem getSchemaDiff_index_diffs :
  forall (Castable : Z) (IndexType_value : IndexType.t -> string)
         {L} (context : PluginInitContext L) (pre : list Schema) (schema : Schema)
         (post : list Schema) (w w1 w2 : World) (segment : list SchemaDiff)
         (dbSchemaDesc : SchemaDescription),
    emitted_for Castable IndexType_value context pre schema post w w1 w2 segment ->
    collectionExists (database context) (schema_handle schema) = true ->
    databaseDescriptionToSchemaDescription IndexType_value context
      (describeCollection (database context) (schema_handle schema)) = Return dbSchemaDesc ->
    let schemaDesc := schemaToSchemaDescription context schema in
    filter is_drop_index segment =
      map (drop_index schemaDesc)
          (filter (fun dbIndex =>
                     lacks (map sdi_handle (sd_indexes schemaDesc)) (sdi_handle dbIndex))
                  (sd_indexes dbSchemaDesc)) /\
    filter is_add_index segment =
      map (add_index schemaDesc)
          (filter (fun index =>
                     lacks (map sdi_handle (sd_indexes dbSchemaDesc)) (sdi_handle index))
                  (sd_indexes schemaDesc)).
Proof.
  intros Castable IndexType_value L context pre schema post w w1 w2 segment
    dbd Hem Hex Hdbd schemaDesc.
  apply emitted_for_existing in Hem; [|exact Hex].
  apply existing_collection_diffs_inv in Hem.
  destruct Hem as (dbd2 & each & Hdbd2 & Heach & ->).
  rewrite Hdbd in Hdbd2. injection Hdbd2 as <-.
  fold schemaDesc in Heach |- *.
  pose proof (live_columns_kinds _ _ _ _ _ Heach) as Hlive.
  pose proof (columns_to_add_kinds schemaDesc dbd (concat (map snd each))
                (sd_columns schemaDesc)) as Hadds.
  rewrite indexes_to_drop_map, indexes_to_add_map.
  split; rewrite !filter_app.
  - rewrite (filter_none is_drop_index (concat (map fst each))).
    2:{ eapply Forall_impl; [|exact Hlive]. intros x [Hx _]. now destruct x. }
    rewrite (filter_none is_drop_index (columns_to_add _ _ _ _)).
    2:{ eapply Forall_impl; [|exact Hadds]. intros x [Hx _]. now destruct x. }
    rewrite (filter_all is_drop_index (map (drop_index schemaDesc) _))
      by (now apply Forall_map_kind).
    rewrite (filter_none is_drop_index (map (add_index schemaDesc) _))
      by (now apply Forall_map_kind).
    now rewrite app_nil_r.
  - rewrite (filter_none is_add_index (concat (map fst each))).
    2:{ eapply Forall_impl; [|exact Hlive]. intros x [Hx _]. now destruct x. }
    rewrite (filter_none is_add_index (columns_to_add _ _ _ _)).
    2:{ eapply Forall_impl; [|exact Hadds]. intros x [Hx _]. now destruct x. }
    rewrite (filter_none is_add_index (map (drop_index schemaDesc) _))
      by (now apply Forall_map_kind).
    rewrite (filter_all is_add_index (map (add_index schemaDesc) _))
      by (now apply Forall_map_kind).
    reflexivity.
Qed.

(** X5. The diffs [getSchemaDiff] emits for a declared schema all carry
    the expanded description of that schema; when the collection exists
    they come in four runs: the [drop_column] and [alter_column] diffs,
    then the [add_column] diffs, then the [drop_index] diffs, then the
    [add_index] diffs. *)
Theorem getSchemaDiff_segment_shape :
  forall (Castable : Z) (IndexType_value : IndexType.t -> string)
         {L} (context : PluginInitContext L) (pre : list Schema) (schema : Schema)
         (post : list Schema) (w w1 w2 : World) (segment : list SchemaDiff),
    emitted_for Castable IndexType_value context pre schema post w w1 w2 segment ->
    Forall (fun d => diff_description d = schemaToSchemaDescription context schema) segment /\
    (collectionExists (database context) (schema_handle schema) = true ->
     exists columns added dropped indexed,
       segment = columns ++ added ++ dropped ++ indexed /\
       Forall (fun d => is_drop_column d || is_alter_column d = true) columns /\
       Forall (fun d => is_add_column d = true) added /\
       Forall (fun d => is_drop_index d = true) dropped /\
       Forall (fun d => is_add_index d = true) indexed).
Proof.
  intros Castable IndexType_value L context pre schema post w w1 w2 segment Hem.
  destruct (collectionExists (database context) (schema_handle schema)) eqn:Hex.
  - apply emitted_for_existing in Hem; [|exact Hex].
    apply existing_collection_diffs_inv in Hem.
    destruct Hem as (dbd & each & _ & Heach & ->).
    pose proof (live_columns_kinds _ _ _ _ _ Heach) as Hlive.
    pose proof (columns_to_add_kinds (schemaToSchemaDescription context schema) dbd
                  (concat (map snd each))
                  (sd_columns (schemaToSchemaDescription context schema))) as Hadds.
    rewrite indexes_to_drop_map, indexes_to_add_map.
    split.
    + repeat (apply Forall_app; split).
      * eapply Forall_impl; [|exact Hlive]. now intros x [_ Hx].
      * eapply Forall_impl; [|exact Hadds]. now intros x [_ Hx].
      * now apply Forall_map_kind.
      * now apply Forall_map_kind.
    + intros _. eexists _, _, _, _. split; [reflexivity|].
      split; [eapply Forall_impl; [|exact Hlive]; now intros x [Hx _]|].
      split; [eapply Forall_impl; [|exact Hadds]; now intros x [Hx _]|].
      split; now apply Forall_map_kind.
  - destruct Hem as (before & after & w3 & _ & Hone & _).
    rewrite getSchemaDiff_one, Hex in Hone. injection Hone as <- <-.
    split; [repeat constructor | discriminate].
Qed.

Lemma getSchemaDiff_segment_shape_witness :
  emitted_for blog_Castable mapIndexTypeToString blog [] Post [Tag]
    nothing_yet nothing_yet Post_described Post_segment /\
  Forall (fun d => diff_description d = schemaToSchemaDescription blog Post) Post_segment.
Proof.
  split; [exact Post_emitted|].
  exact (proj1 (getSchemaDiff_segment_shape _ _ _ _ _ _ _ _ _ _ Post_emitted)).
Defined.

Lemma getSchemaDiff_index_diffs_witness :
  emitted_for blog_Castable mapIndexTypeToString blog [] Post [Tag]
    nothing_yet nothing_yet Post_described Post_segment /\
  collectionExists (database blog) (schema_handle Post) = true /\
  databaseDescriptionToSchemaDescription mapIndexTypeToString blog
    (describeCollection (database blog) (schema_handle Post)) = Return Post_live /\
  filter is_drop_index Post_segment =
    map (drop_index (schemaToSchemaDescription blog Post))
        (filter (fun dbIndex =>
                   lacks (map sdi_handle (sd_indexes (schemaToSchemaDescription blog Post)))
                         (sdi_handle dbIndex))
                (sd_indexes Post_live)) /\
  filter is_add_index Post_segment =
    map (add_index (schemaToSchemaDescription blog Post))
        (filter (fun index => lacks (map sdi_handle (sd_indexes Post_live)) (sdi_handle index))
                (sd_indexes (schemaToSchemaDescription blog Post))).
Proof.
  split; [exact Post_emitted|]. split; [reflexivity|].
  split; [exact Post_live_described|].
  exact (getSchemaDiff_index_diffs _ _ _ _ _ _ _ _ _ _ _
           Post_emitted eq_refl Post_live_described).
Defined.

(** ** Nothing to migrate *)

Lemma in_step_each (Castable : Z) (db : Database) (schemaDesc : SchemaDescription)
    (dbColumns : list SchemaDescriptionColumn) :
  Forall (in_step Castable db schemaDesc) dbColumns ->
  mapR (forEach_dbColumn Castable db schemaDesc ([], [])) dbColumns
  = Return (map (fun c => ([], [column_handle c])) dbColumns).
Proof.
  induction 1 as [|c cols Hc _ IH]; cbn [mapR map]; [reflexivity|].
  destruct Hc as (column & declared & live & Hfind & Hd & Hl & Hcast).
  unfold forEach_dbColumn at 1. rewrite Hfind, Hd. cbn [bindR]. rewrite Hl. cbn [bindR].
  destruct (Z.eqb_spec (bitand (compareTypes db declared live) Castable) 0) as [H0|_];
    [contradiction|].
  cbn [bindR]. rewrite IH. cbn [bindR]. unfold push. simpl.
  apply find_handle_Some in Hfind. destruct Hfind as [_ ->]. reflexivity.
Qed.

Lemma concat_nils {A B} (l : list A) : concat (map (fun _ : A => @nil B) l) = [].
Proof. induction l; simpl; auto. Qed.

Lemma concat_singletons {A B} (f : A -> B) (l : list A) :
  concat (map (fun x => [f x]) l) = map f l.
Proof. induction l; simpl; congruence. Qed.

Lemma flat_map_nothing {A B} (g : A -> list B) (l : list A) :
  (forall x, In x l -> g x = []) -> flat_map g l = [].
Proof.
  induction l as [|x l IH]; simpl; intros H; [reflexivity|].
  rewrite (H x), IH; auto.
Qed.

(** X6. When the collection of a declared schema exists, every live
    column is in step with the declaration (its handle is declared, both
    types are known and castable), every declared column handle is the
    handle of a live column, and the live and declared indexes have the
    same handles, [getSchemaDiff] returns no diff for the schema, after
    its two introspection queries. *)
Theorem getSchemaDiff_nothing_to_do :
  forall (Castable : Z) (IndexType_value : IndexType.t -> string)
         {L} (context : PluginInitContext L) (schema : Schema) (w : World)
         (dbSchemaDesc : SchemaDescription),
    collectionExists (database context) (schema_handle schema) = true ->
    databaseDescriptionToSchemaDescription IndexType_value context
      (describeCollection (database context) (schema_handle schema)) = Return dbSchemaDesc ->
    let schemaDesc := schemaToSchemaDescription context schema in
    Forall (in_step Castable (database context) schemaDesc) (sd_columns dbSchemaDesc) ->
    (forall column, In column (sd_columns schemaDesc) ->
       In (column_handle column) (map column_handle (sd_columns dbSchemaDesc))) ->
    (forall dbIndex, In dbIndex (sd_indexes dbSchemaDesc) ->
       In (sdi_handle dbIndex) (map sdi_handle (sd_indexes schemaDesc))) ->
    (forall index, In index (sd_indexes schemaDesc) ->
       In (sdi_handle index) (map sdi_handle (sd_indexes dbSchemaDesc))) ->
    getSchemaDiff Castable IndexType_value context [schema] w
    = (sent (DescribeCollection (schema_handle schema))
            (sent (CollectionExists (schema_handle schema)) w),
       Return []).
Proof.
  intros Castable IndexType_value L context schema w dbd Hex Hdbd schemaDesc
    Hstep Hcols Hlive Hdecl.
  rewrite getSchemaDiff_one, Hex. f_equal.
  unfold existing_collection_diffs. rewrite Hdbd. cbn [bindR].
  fold schemaDesc. rewrite (in_step_each _ _ _ _ Hstep). cbn [bindR].
  rewrite !map_map. cbn [fst snd].
  rewrite concat_nils, (concat_singletons column_handle).
  rewrite indexes_to_drop_map, indexes_to_add_map.
  unfold columns_to_add.
  rewrite (flat_map_nothing _ (sd_columns schemaDesc)).
  2:{ intros column Hin. apply Hcols in Hin. apply lacks_false_iff in Hin. now rewrite Hin. }
  rewrite (filter_none _ (sd_indexes dbd)).
  2:{ apply Forall_forall. intros i Hin. apply lacks_false_iff. now apply Hlive. }
  rewrite (filter_none _ (sd_indexes schemaDesc)).
  2:{ apply Forall_forall. intros i Hin. apply lacks_false_iff. now apply Hdecl. }
  reflexivity.
Qed.

Lemma getSchemaDiff_nothing_to_do_witness :
  collectionExists (database blog) (schema_handle Post_unchanged) = true /\
  databaseDescriptionToSchemaDescription mapIndexTypeToString blog
    (describeCollection (database blog) (schema_handle Post_unchanged)) = Return Post_live /\
  Forall (in_step blog_Castable (database blog) (schemaToSchemaDescription blog Post_unchanged))
         (sd_columns Post_live) /\
  getSchemaDiff blog_Castable mapIndexTypeToString blog [Post_unchanged] nothing_yet
  = (Post_described, Return []).
Proof.
  assert (Hstep : Forall (in_step blog_Castable (database blog)
                            (schemaToSchemaDescription blog Post_unchanged))
                         (sd_columns Post_live)).
  { repeat constructor; eexists _, _, _;
      (split; [reflexivity|]); (split; [reflexivity|]); (split; [reflexivity|]);
      vm_compute; discriminate. }
  split; [reflexivity|]. split; [reflexivity|]. split; [exact Hstep|].
  apply (getSchemaDiff_nothing_to_do blog_Castable mapIndexTypeToString blog Post_unchanged
           nothing_yet Post_live eq_refl eq_refl Hstep).
  - simpl. intuition (subst; simpl; auto).
  - simpl. intuition (subst; simpl; auto).
  - simpl. intuition (subst; simpl; auto).
Defined.

(** ** Types that cannot be diffed *)

Lemma foldR_throws {E A B} (f : A -> B -> Result E A) (l : list B) (x : B) :
  In x l -> (forall acc, exists e, f acc x = Throw e) ->
  forall acc, exists e, foldR f l acc = Throw e.
Proof.
  intros Hin Hx. induction l as [|y l IH]; [destruct Hin|]. intros acc. cbn [foldR].
  destruct Hin as [->|Hin].
  - destruct (Hx acc) as [e He]. rewrite He. simpl. eauto.
  - destruct (f acc y) as [acc2|e]; simpl; [now apply IH | eauto].
Qed.

Lemma mapR_throws {E A B} (f : A -> Result E B) (l : list A) (x : A) :
  In x l -> (exists e, f x = Throw e) -> exists e, mapR f l = Throw e.
Proof.
  intros Hin Hx. induction l as [|y l IH]; [destruct Hin|]. cbn [mapR].
  destruct Hin as [->|Hin].
  - destruct Hx as [e He]. rewrite He. simpl. eauto.
  - destruct (f y) as [z|e]; simpl; [|eauto].
    destruct (IH Hin) as [e He]. rewrite He. simpl. eauto.
Qed.

(** What a description that succeeds makes of the live columns and
    indexes. *)
Lemma described_columns (live : list Column) :
  forall acc r,
    foldR (fun columns column =>
             bindR (mapColumnTypeToFieldType (getType column))
                   (fun type => Return (push columns {| column_handle := getName column;
                                                        column_type := type |})))
          live acc = Return r ->
    exists described,
      r = acc ++ described /\
      Forall2 (fun c column =>
                 column_handle c = getName column /\
                 mapColumnTypeToFieldType (getType column) = Return (column_type c))
              described live.
Proof.
  induction live as [|c live IH]; intros acc r H; cbn [foldR] in H.
  - injection H as <-. exists []. split; [now rewrite app_nil_r | constructor].
  - destruct (mapColumnTypeToFieldType (getType c)) as [type|e] eqn:Htype; [|discriminate].
    cbn [bindR] in H. apply IH in H. destruct H as (described & -> & Hall).
    exists ({| column_handle := getName c; column_type := type |} :: described).
    split; [unfold push; now rewrite <- app_assoc|].
    constructor; [simpl; auto | exact Hall].
Qed.

Lemma databaseDescription_inv (IndexType_value : IndexType.t -> string)
    {L} (context : PluginInitContext L) (description : DescribeCollectionQueryResult)
    (d : SchemaDescription) :
  databaseDescriptionToSchemaDescription IndexType_value context description = Return d ->
  handle d = Collection_toString (collection description) /\
  Forall2 (fun c column =>
             column_handle c = getName column /\
             mapColumnTypeToFieldType (getType column) = Return (column_type c))
          (sd_columns d) (columns description) /\
  map sdi_handle (sd_indexes d) = map index_getName (indexes description) /\
  map sdi_type (sd_indexes d)
  = map (fun i => IndexType_value (index_getType i)) (indexes description).
Proof.
  unfold databaseDescriptionToSchemaDescription. intros H.
  destruct (foldR _ (columns description) []) as [cols|e] eqn:Hcols; [|discriminate].
  cbn [bindR] in H. injection H as <-. cbn [handle sd_columns sd_indexes].
  apply described_columns in Hcols. destruct Hcols as (described & -> & Hall).
  split; [reflexivity|]. split; [exact Hall|].
  rewrite fold_left_push_map. cbn [app]. rewrite !map_map. split; reflexivity.
Qed.

(** X7. [getSchemaDiff] cannot diff a live collection that has a column
    of a type without a field type name (a boolean or an unsigned
    integer): when a declared collection exists with such a column, the
    whole call throws, whatever the other declared schemas, and returns
    no diff at all. *)
Theorem getSchemaDiff_unknown_column_type :
  forall (Castable : Z) (IndexType_value : IndexType.t -> string)
         {L} (context : PluginInitContext L) (pre : list Schema) (schema : Schema)
         (post : list Schema) (w : World) (c : Column),
    collectionExists (database context) (schema_handle schema) = true ->
    In c (columns (describeCollection (database context) (schema_handle schema))) ->
    getType c = ColumnType.Boolean \/ getType c = ColumnType.UInt64 ->
    exists w' e,
      getSchemaDiff Castable IndexType_value context (pre ++ schema :: post) w = (w', Throw e).
Proof.
  intros Castable IndexType_value L context pre schema post w c Hex Hin Htype.
  rewrite getSchemaDiff_app.
  destruct (getSchemaDiff _ _ context pre w) as [w1 [before|e]]; [|eauto].
  change (schema :: post) with ([schema] ++ post).
  rewrite getSchemaDiff_app, getSchemaDiff_one, Hex.
  unfold existing_collection_diffs, databaseDescriptionToSchemaDescription.
  destruct (foldR_throws
              (fun columns column =>
                 bindR (mapColumnTypeToFieldType (getType column))
                       (fun type => Return (push columns {| column_handle := getName column;
                                                            column_type := type |})))
              _ c Hin) with (acc := @nil SchemaDescriptionColumn) as [e He].
  { intros acc. destruct Htype as [-> | ->]; simpl; eauto. }
  rewrite He. cbn [bindR]. eauto.
Qed.

Lemma getSchemaDiff_unknown_column_type_witness :
  collectionExists (database flags) (schema_handle Flag) = true /\
  In (q_column "raised" ColumnType.Boolean)
     (columns (describeCollection (database flags) (schema_handle Flag))) /\
  exists w' e,
    getSchemaDiff blog_Castable mapIndexTypeToString flags ([File] ++ Flag :: []) nothing_yet
    = (w', Throw e).
Proof.
  assert (Hin : In (q_column "raised" ColumnType.Boolean)
                   (columns (describeCollection (database flags) (schema_handle Flag))))
    by (simpl; auto).
  split; [reflexivity|]. split; [exact Hin|].
  exact (getSchemaDiff_unknown_column_type blog_Castable mapIndexTypeToString flags
           [File] Flag [] nothing_yet _ eq_refl Hin (or_introl eq_refl)).
Defined.

(** X8. A live column of type [Blob] whose handle is declared cannot be
    diffed either: its type is described as [blob], a name that
    [mapStringToColumnType] does not know, so [getSchemaDiff] throws when
    it compares the column with the declared one. *)
Theorem getSchemaDiff_blob_column :
  forall (Castable : Z) (IndexType_value : IndexType.t -> string)
         {L} (context : PluginInitContext L) (pre : list Schema) (schema : Schema)
         (post : list Schema) (w : World) (c : Column),
    collectionExists (database context) (schema_handle schema) = true ->
    In c (columns (describeCollection (database context) (schema_handle schema))) ->
    getType c = ColumnType.Blob ->
    In (getName c) (map column_handle (sd_columns (schemaToSchemaDescription context schema))) ->
    exists w' e,
      getSchemaDiff Castable IndexType_value context (pre ++ schema :: post) w = (w', Throw e).
Proof.
  intros Castable IndexType_value L context pre schema post w c Hex Hin Htype Hdecl.
  rewrite getSchemaDiff_app.
  destruct (getSchemaDiff _ _ context pre w) as [w1 [before|e]]; [|eauto].
  change (schema :: post) with ([schema] ++ post).
  rewrite getSchemaDiff_app, getSchemaDiff_one, Hex.
  unfold existing_collection_diffs.
  destruct (databaseDescriptionToSchemaDescription _ _ _) as [dbd|e] eqn:Hdbd;
    cbn [bindR]; [|eauto].
  apply databaseDescription_inv in Hdbd. destruct Hdbd as (_ & Hall & _).
  assert (Hlive : exists dbColumn, In dbColumn (sd_columns dbd)
                    /\ column_handle dbColumn = getName c /\ column_type dbColumn = "blob").
  { clear - Hall Hin Htype. induction Hall as [|x y xs ys [Hname Hty] _ IH]; [destruct Hin|].
    destruct Hin as [->|Hin].
    - exists x. rewrite Htype in Hty. simpl in Hty. injection Hty as <-.
      split; [now left | auto].
    - destruct (IH Hin) as (dbColumn & Hd & H). exists dbColumn. split; [now right | exact H]. }
  destruct Hlive as (dbColumn & Hd & Hname & Hty).
  destruct (mapR_throws (forEach_dbColumn Castable (database context)
                           (schemaToSchemaDescription context schema) ([], []))
              (sd_columns dbd) dbColumn Hd) as [e He].
  { unfold forEach_dbColumn.
    destruct (find _ _) as [column|] eqn:Hfind.
    - destruct (mapStringToColumnType (column_type column)); cbn [bindR]; [|eauto].
      rewrite Hty. simpl. eauto.
    - apply find_handle_None in Hfind. rewrite Hname in Hfind. contradiction. }
  rewrite He. cbn [bindR]. eauto.
Qed.

Lemma getSchemaDiff_blob_column_witness :
  collectionExists (database flags) (schema_handle File) = true /\
  In (q_column "data" ColumnType.Blob)
     (columns (describeCollection (database flags) (schema_handle File))) /\
  In "data" (map column_handle (sd_columns (schemaToSchemaDescription flags File))) /\
  exists w' e,
    getSchemaDiff blog_Castable mapIndexTypeToString flags ([] ++ File :: []) nothing_yet
    = (w', Throw e).
Proof.
  assert (Hin : In (q_column "data" ColumnType.Blob)
                   (columns (describeCollection (database flags) (schema_handle File))))
    by (simpl; auto).
  assert (Hdecl : In "data" (map column_handle
                               (sd_columns (schemaToSchemaDescription flags File))))
    by (simpl; auto).
  split; [reflexivity|]. split; [exact Hin|]. split; [exact Hdecl|].
  exact (getSchemaDiff_blob_column blog_Castable mapIndexTypeToString flags
           [] File [] nothing_yet _ eq_refl Hin eq_refl Hdecl).
Defined.

(** ** The queries of [getSchemaDiff] *)

(** X9. [getSchemaDiff] only looks: a call that returns has sent, for each
    declared schema in order, one [CollectionExists] query followed, when
    the collection exists, by one [DescribeCollection] query, nothing
    else, and it has asked the operator nothing. *)
Theorem getSchemaDiff_only_looks :
  forall (Castable : Z) (IndexType_value : IndexType.t -> string)
         {L} (context : PluginInitContext L) (schemas : list Schema) (w w' : World)
         (diffs : list SchemaDiff),
    getSchemaDiff Castable IndexType_value context schemas w = (w', Return diffs) ->
    executed w' = executed w ++ flat_map (introspection (database context)) schemas /\
    asked w' = asked w.
Proof.
  intros Castable IndexType_value L context schemas.
  induction schemas as [|s rest IH]; intros w w' diffs H.
  - unfold getSchemaDiff in H. simpl in H. injection H as <- _.
    simpl. now rewrite app_nil_r.
  - change (s :: rest) with ([s] ++ rest) in H. rewrite getSchemaDiff_app in H.
    destruct (getSchemaDiff _ _ context [s] w) as [w1 [d1|e]] eqn:Hone; [|discriminate].
    destruct (getSchemaDiff _ _ context rest w1) as [w2 [d2|e]] eqn:Hrest; [|discriminate].
    injection H as <- _. apply IH in Hrest. destruct Hrest as [Hex Hasked].
    rewrite getSchemaDiff_one in Hone. cbn [flat_map]. unfold introspection at 1.
    destruct (collectionExists (database context) (schema_handle s));
      injection Hone as <- _; rewrite Hex, Hasked; unfold sent, push; cbn [executed asked];
      split; try reflexivity; now rewrite <- !app_assoc.
Qed.

Lemma getSchemaDiff_only_looks_witness :
  getSchemaDiff blog_Castable mapIndexTypeToString blog [Post; Tag] nothing_yet
  = ({| executed := [CollectionExists "Post"; DescribeCollection "Post"; CollectionExists "Tag"];
        asked := [] |},
     Return blog_diffs) /\
  [CollectionExists "Post"; DescribeCollection "Post"; CollectionExists "Tag"]
  = executed nothing_yet ++ flat_map (introspection (database blog)) [Post; Tag] /\
  @nil Interaction = asked nothing_yet.
Proof.
  assert (Hrun : getSchemaDiff blog_Castable mapIndexTypeToString blog [Post; Tag] nothing_yet
                 = ({| executed := [CollectionExists "Post"; DescribeCollection "Post";
                                    CollectionExists "Tag"];
                       asked := [] |},
                    Return blog_diffs)) by (vm_compute; reflexivity).
  split; [exact Hrun|].
  exact (getSchemaDiff_only_looks _ _ _ _ _ _ _ Hrun).
Defined.

(** ** Names of types *)

(** X10. The names of the index types go back and forth: the name of an
    index type maps to that type, and a name that maps to an index type
    is the name of that type. *)
Theorem index_type_names_round_trip :
  (forall t, mapStringToIndexType (mapIndexTypeToString t) = Return t) /\
  (forall s t, mapStringToIndexType s = Return t -> mapIndexTypeToString t = s).
Proof.
  split.
  - intros []; reflexivity.
  - intros s t. unfold mapStringToIndexType.
    destruct (String.eqb_spec s "primary") as [->|_]; [intros H; now injection H as <-|].
    destruct (String.eqb_spec s "unique") as [->|_]; [intros H; now injection H as <-|].
    destruct (String.eqb_spec s "index") as [->|_]; [intros H; now injection H as <-|].
    discriminate.
Qed.

(** X11. A column created from a declared type name can always be
    described again: the column type the name maps to has a field type
    name, and that name maps to the same column type, though it need not
    be the declared name ([html] comes back as [text], [date] as
    [datetime]). *)
Theorem column_type_names_settle :
  forall s t,
    mapStringToColumnType s = Return t ->
    exists s',
      mapColumnTypeToFieldType t = Return s' /\
      mapStringToColumnType s' = Return t.
Proof.
  intros s t. unfold mapStringToColumnType.
  repeat match goal with
         | |- (if ?b then _ else _) = _ -> _ => destruct b
         end;
    try discriminate; intros H; injection H as <-; eexists; repeat split; reflexivity.
Qed.

Lemma column_type_names_settle_witness :
  mapStringToColumnType "html" = Return ColumnType.Text /\
  exists s',
    mapColumnTypeToFieldType ColumnType.Text = Return s' /\
    mapStringToColumnType s' = Return ColumnType.Text.
Proof.
  split; [reflexivity|].
  exact (column_type_names_settle "html" ColumnType.Text eq_refl).
Defined.

(** ** More on the expansion *)

Lemma schemaToSchemaDescription_flat {L} (context : PluginInitContext L) (schema : Schema) :
  schemaToSchemaDescription context schema =
  {| handle := schema_handle schema;
     sd_columns := flat_map (expand_field (keys (locales context))) (fields schema);
     sd_indexes := flat_map (expand_index (keys (locales context)) schema)
                            (schema_indexes schema) |}.
Proof.
  unfold schemaToSchemaDescription. f_equal.
  - rewrite (fold_left_emit _ (expand_field (keys (locales context)))); [reflexivity|].
    intros acc field. unfold expand_field.
    destruct (String.eqb (field_type field) "relation"); [now rewrite app_nil_r|].
    destruct (localized field); [|reflexivity].
    apply fold_left_push_map.
  - rewrite (fold_left_emit _ (expand_index (keys (locales context)) schema)); [reflexivity|].
    intros acc index. unfold expand_index, references_localized.
    rewrite fold_left_orb. simpl.
    destruct (existsb _ _); [|reflexivity].
    apply fold_left_push_map.
Qed.

Lemma flat_map_singleton_if {A B} (p : A -> bool) (g : A -> B) (l : list A) :
  flat_map (fun x => if p x then [] else [g x]) l
  = map g (filter (fun x => negb (p x)) l).
Proof.
  induction l as [|x l IH]; simpl; [reflexivity|].
  destruct (p x); simpl; now rewrite IH.
Qed.

(** X12. For a schema none of whose fields is localized the locales do
    not matter: the expansion is the logical description, one column per
    field that is not a relation and the declared indexes as they are. *)
Theorem schemaToSchemaDescription_without_localized_fields :
  forall {L} (context : PluginInitContext L) (schema : Schema),
    (forall field, In field (fields schema) -> localized field = false) ->
    schemaToSchemaDescription context schema = logical_description schema.
Proof.
  intros L context schema Hnone.
  rewrite schemaToSchemaDescription_flat. unfold logical_description. f_equal.
  - apply flat_map_ext_In. intros field Hin. unfold expand_field.
    now rewrite (Hnone field Hin).
  - assert (Hplain : forall name, is_localized (find_field schema name) = false).
    { intros name. unfold find_field.
      destruct (find _ (fields schema)) as [f|] eqn:Hfind; [|reflexivity].
      apply find_some in Hfind. simpl. apply Hnone. tauto. }
    assert (Hmap : forall l, flat_map (expand_index (keys (locales context)) schema) l
                   = map (fun index => {| sdi_handle := sindex_handle index;
                                          sdi_type := sindex_type index;
                                          sdi_columns := fields_of index |}) l).
    { induction l as [|i l IH]; simpl; [reflexivity|]. rewrite IH.
      unfold expand_index, references_localized.
      assert (Hex : existsb (fun name => is_localized (find_field schema name))
                            (keys (fields_of i)) = false).
      { induction (keys (fields_of i)) as [|n ns IHn]; simpl; [reflexivity|].
        now rewrite Hplain, IHn. }
      now rewrite Hex. }
    apply Hmap.
Qed.

Lemma schemaToSchemaDescription_without_localized_fields_witness :
  (forall field, In field (fields Post) -> localized field = false) /\
  schemaToSchemaDescription blog Post = logical_description Post.
Proof.
  assert (Hnone : forall field, In field (fields Post) -> localized field = false)
    by (simpl; intuition (subst; reflexivity)).
  split; [exact Hnone|].
  exact (schemaToSchemaDescription_without_localized_fields blog Post Hnone).
Defined.

(** X13. When no locale is configured, the localized fields and the
    indexes that reference one vanish from the expansion: it has the
    columns of the fields that are neither relations nor localized, and
    the indexes that reference no localized field, and nothing else. *)
Theorem schemaToSchemaDescription_without_locales :
  forall {L} (context : PluginInitContext L) (schema : Schema),
    locales context = [] ->
    sd_columns (schemaToSchemaDescription context schema)
    = map (fun field => {| column_handle := field_handle field;
                           column_type := field_type field |})
          (filter (fun field => negb (String.eqb (field_type field) "relation"
                                      || localized field))
                  (fields schema)) /\
    sd_indexes (schemaToSchemaDescription context schema)
    = map (fun index => {| sdi_handle := sindex_handle index;
                           sdi_type := sindex_type index;
                           sdi_columns := fields_of index |})
          (filter (fun index => negb (references_localized schema index))
                  (schema_indexes schema)).
Proof.
  intros L context schema Hempty.
  rewrite schemaToSchemaDescription_flat, Hempty. cbn [sd_columns sd_indexes keys map].
  split.
  - rewrite <- flat_map_singleton_if. apply flat_map_ext_In. intros field _.
    unfold expand_field.
    destruct (String.eqb (field_type field) "relation"), (localized field); reflexivity.
  - rewrite <- flat_map_singleton_if. apply flat_map_ext_In. intros index _.
    unfold expand_index. now destruct (references_localized schema index).
Qed.

Lemma schemaToSchemaDescription_without_locales_witness :
  locales {| database := blog_database; locales := @nil (string * unit) |} = [] /\
  sd_columns (schemaToSchemaDescription
                {| database := blog_database; locales := @nil (string * unit) |} Tag)
  = [{| column_handle := "id"; column_type := "int" |}] /\
  sd_indexes (schemaToSchemaDescription
                {| database := blog_database; locales := @nil (string * unit) |} Tag)
  = [].
Proof.
  split; [reflexivity|].
  exact (schemaToSchemaDescription_without_locales
           {| database := blog_database; locales := @nil (string * unit) |} Tag eq_refl).
Defined.

(** ** The description of a live collection *)


(** ** [defaultIndexHandle] *)

Lemma append_length_differs (a b c : string) :
  String.length b <> String.length c -> (a ++ b)%string <> (a ++ c)%string.
Proof.
  intros Hlen H. apply Hlen.
  assert (Hl : String.length (a ++ b) = String.length (a ++ c)) by now rewrite H.
  rewrite !length_append in Hl. lia.
Qed.

Lemma append_assoc (a b c : string) : ((a ++ b) ++ c)%string = (a ++ b ++ c)%string.
Proof. induction a as [|x a IH]; simpl; [reflexivity | now rewrite IH]. Qed.

Lemma append_assoc4 (a b c d e : string) :
  (a ++ b ++ c ++ d ++ e)%string = ((a ++ b ++ c ++ d) ++ e)%string.
Proof. now rewrite !append_assoc. Qed.

(** X15. [defaultIndexHandle] returns a handle that is given and not
    empty as it is; without one, or with the empty handle, it builds a
    name from the collection, the fields and the type of the index that
    is never empty and that tells the three types of index apart. *)
Theorem defaultIndexHandle_spec :
  forall (collection : string) (type : IndexType.t) (fields : Obj Direction),
    (forall h, h <> EmptyString -> defaultIndexHandle collection (Some h) type fields = h) /\
    defaultIndexHandle collection (Some EmptyString) type fields
    = defaultIndexHandle collection None type fields /\
    defaultIndexHandle collection None type fields <> EmptyString /\
    (forall type',
        defaultIndexHandle collection None type fields
        = defaultIndexHandle collection None type' fields -> type = type').
Proof.
  intros collection type fields. split; [|split; [reflexivity|split]].
  - intros h Hne. unfold defaultIndexHandle.
    destruct (String.eqb_spec h EmptyString); [contradiction | reflexivity].
  - unfold defaultIndexHandle. intros H.
    assert (Hl : String.length
                   (collection ++ "_" ++ join "_" (keys fields) ++ "_"
                    ++ match type with
                       | IndexType.Primary => "pk"
                       | IndexType.Unique => "uniq"
                       | IndexType.Index => "idx"
                       end) = 0) by now rewrite H.
    rewrite !length_append in Hl. simpl in Hl. lia.
  - intros type'. unfold defaultIndexHandle.
    rewrite !append_assoc4.
    destruct type, type'; try reflexivity; intros H; exfalso;
      revert H; apply append_length_differs; simpl; lia.
Qed.

(** ** The columns of a described index *)







(** ** More on the migration *)

Lemma migrate_diff_without_operator (stdin : option ReadStream) (stdout : option WriteStream)
    (b : Batch) (d : SchemaDiff) (w : World) :
  needs_operatorb d = false ->
  migrate_diff stdin stdout b d w = migrate_diff None None b d w.
Proof.
  destruct d as [c|c column copy|c column|c column type|c index|c index];
    cbn [needs_operatorb migrate_diff]; try reflexivity; [|discriminate].
  intros Hcopy. unfold choose_copy. now rewrite Hcopy.
Qed.

(** X17. When no diff needs a decision (no [drop_column], no
    [add_column] with copy candidates), the streams do not matter:
    [executeSchemaMigration] does with a terminal exactly what it does
    without one. *)
Theorem executeSchemaMigration_without_decisions :
  forall {L} (context : PluginInitContext L) (diffs : list SchemaDiff)
         (stdin : option ReadStream) (stdout : option WriteStream) (w : World),
    (forall d, In d diffs -> needs_operatorb d = false) ->
    executeSchemaMigration context diffs stdin stdout w
    = executeSchemaMigration context diffs None None w.
Proof.
  intros L context diffs stdin stdout w Hnone.
  rewrite !executeSchemaMigration_run.
  enough (Hloop : forall b w, foldA (migrate_diff stdin stdout) diffs b w
                              = foldA (migrate_diff None None) diffs b w)
    by now rewrite Hloop.
  induction diffs as [|d ds IH]; intros b w0; cbn [foldA]; [reflexivity|].
  unfold bindA. rewrite (migrate_diff_without_operator stdin stdout b d w0)
    by (apply Hnone; now left).
  destruct (migrate_diff None None b d w0) as [w1 [b1|e]]; [|reflexivity].
  apply IH. intros x Hx. apply Hnone. now right.
Qed.

Lemma executeSchemaMigration_without_decisions_witness :
  (forall d, In d summary_alone -> needs_operatorb d = false) /\
  executeSchemaMigration blog summary_alone (Some aborting_operator) (Some tty) nothing_yet
  = executeSchemaMigration blog summary_alone None None nothing_yet.
Proof.
  assert (Hnone : forall d, In d summary_alone -> needs_operatorb d = false)
    by (simpl; intuition (subst; reflexivity)).
  split; [exact Hnone|].
  exact (executeSchemaMigration_without_decisions blog summary_alone
           (Some aborting_operator) (Some tty) nothing_yet Hnone).
Defined.

Lemma choose_copy_asks (stdin : option ReadStream) (stdout : option WriteStream)
    (tin : ReadStream) (tout : WriteStream)
    (collectionHandle columnName : string) (copyColumn : list string)
    (w w' : World) (r : Fallible (option string)) :
  terminal stdin stdout = Some (tin, tout) ->
  choose_copy stdin stdout collectionHandle columnName copyColumn w = (w', r) ->
  exists new, asked w' = asked w ++ new /\
              List.length new = if (0 <? List.length copyColumn)%nat then 1 else 0.
Proof.
  intros Hterm. unfold choose_copy. rewrite Hterm.
  destruct (0 <? List.length copyColumn)%nat.
  - unfold bindA. rewrite prompt_run.
    destruct (tin (asked w) _ _) as [key|]; cbv beta iota.
    + destruct (String.eqb key "abort"); [|destruct (String.eqb key "empty")];
        unfold throwA, retA; intros H; injection H as <- _; eexists; split; reflexivity.
    + intros H. injection H as <- _. eexists; split; reflexivity.
  - unfold retA. intros H. injection H as <- _. exists []. now rewrite app_nil_r.
Qed.

Lemma migrate_diff_asks (stdin : option ReadStream) (stdout : option WriteStream)
    (tin : ReadStream) (tout : WriteStream)
    (b : Batch) (d : SchemaDiff) (w w' : World) (r : Fallible Batch) :
  terminal stdin stdout = Some (tin, tout) ->
  muteNewColumn b = [] ->
  migrate_diff stdin stdout b d w = (w', r) ->
  exists new, asked w' = asked w ++ new /\
              List.length new = if needs_operatorb d then 1 else 0.
Proof.
  intros Hterm Hmute H.
  assert (Hquiet : forall (r0 : Fallible Batch), (w, r0) = (w', r) ->
            exists new, asked w' = asked w ++ new /\ List.length new = 0).
  { intros r0 H0. injection H0 as <- _. exists []. now rewrite app_nil_r. }
  destruct d as [c|c column copy|c column|c column type|c index|c index];
    cbn [needs_operatorb migrate_diff] in H |- *.
  - exact (Hquiet _ H).
  - rewrite Hmute in H. cbn [lacks existsb negb] in H. unfold bindA in H.
    destruct (choose_copy _ _ _ _ _ w) as [w1 [choice|e]] eqn:Hchoice;
      apply (choose_copy_asks _ _ tin tout) in Hchoice; try exact Hterm.
    + unfold liftA, retA in H. destruct (column_of column); injection H as <- _; exact Hchoice.
    + injection H as <- _. exact Hchoice.
  - rewrite Hterm in H. unfold bindA, confirm_drop in H. unfold bindA in H.
    rewrite prompt_run in H.
    destruct (tin (asked w) _ _) as [key|]; cbv beta iota in H.
    + destruct (String.eqb key "abort"); unfold throwA, retA in H;
        injection H as <- _; eexists; split; reflexivity.
    + injection H as <- _. eexists; split; reflexivity.
  - unfold bindA, liftA, retA in H. destruct (column_of _); exact (Hquiet _ H).
  - unfold bindA, liftA, retA in H. destruct (index_of _); exact (Hquiet _ H).
  - exact (Hquiet _ H).
Qed.

Lemma migrate_loop_asks (stdin : option ReadStream) (stdout : option WriteStream)
    (tin : ReadStream) (tout : WriteStream) (diffs : list SchemaDiff) :
  terminal stdin stdout = Some (tin, tout) ->
  forall (b : Batch) (w w' : World) (r : Fallible Batch),
    muteNewColumn b = [] ->
    foldA (migrate_diff stdin stdout) diffs b w = (w', r) ->
    exists new,
      asked w' = asked w ++ new /\
      List.length new <= List.length (filter needs_operatorb diffs) /\
      (forall b', r = Return b' ->
                  List.length new = List.length (filter needs_operatorb diffs)).
Proof.
  intros Hterm. induction diffs as [|d ds IH]; intros b w w' r Hmute H; cbn [foldA] in H.
  - unfold retA in H. injection H as <- _. exists []. rewrite app_nil_r. simpl. auto.
  - unfold bindA in H.
    destruct (migrate_diff stdin stdout b d w) as [w1 [b1|e]] eqn:Hstep.
    + pose proof (migrate_diff_asks _ _ tin tout _ _ _ _ _ Hterm Hmute Hstep)
        as (new1 & Hnew1 & Hlen1).
      apply migrate_diff_spec in Hstep; [|exact Hmute].
      destruct Hstep as [_ Hfolded]. destruct (Hfolded b1 eq_refl) as [Hmute1 _].
      destruct (IH b1 w1 w' r Hmute1 H) as (new2 & Hnew2 & Hle & Heq).
      exists (new1 ++ new2). rewrite Hnew2, Hnew1, <- app_assoc, length_app, Hlen1.
      cbn [filter]. split; [reflexivity|].
      destruct (needs_operatorb d); cbn [List.length]; split; try lia;
        intros b' Hb; rewrite (Heq b' Hb); lia.
    + pose proof (migrate_diff_asks _ _ tin tout _ _ _ _ _ Hterm Hmute Hstep)
        as (new1 & Hnew1 & Hlen1).
      injection H as <- <-. exists new1. split; [exact Hnew1|]. rewrite Hlen1.
      cbn [filter]. split; [|discriminate].
      destruct (needs_operatorb d); cbn [List.length]; lia.
Qed.

(** X18. With a terminal, [executeSchemaMigration] asks at most one
    question for each diff that needs a decision and none for the
    others; when it reaches the dispatch it has asked exactly one
    question for each diff that needs a decision. *)
Theorem executeSchemaMigration_questions :
  forall {L} (context : PluginInitContext L) (diffs : list SchemaDiff)
         (stdin : option ReadStream) (stdout : option WriteStream)
         (tin : ReadStream) (tout : WriteStream)
         (w w' : World) (r : Fallible unit),
    terminal stdin stdout = Some (tin, tout) ->
    executeSchemaMigration context diffs stdin stdout w = (w', r) ->
    exists new,
      asked w' = asked w ++ new /\
      List.length new <= List.length (filter needs_operatorb diffs) /\
      (dispatched r -> List.length new = List.length (filter needs_operatorb diffs)).
Proof.
  intros L context diffs stdin stdout tin tout w w' r Hterm H.
  pose proof (executeSchemaMigration_spec context diffs stdin stdout w w' r H) as Hspec.
  rewrite executeSchemaMigration_run in H.
  destruct (foldA (migrate_diff stdin stdout) diffs empty_batch w) as [w1 [b|e]] eqn:Hloop;
    apply (migrate_loop_asks _ _ tin tout) in Hloop; try exact Hterm; try reflexivity;
    destruct Hloop as (new & Hnew & Hle & Heq).
  - unfold dispatch in H. injection H as <- _. exists new.
    split; [exact Hnew|]. split; [exact Hle|]. intros _. now apply (Heq b).
  - injection H as <- <-. exists new. split; [exact Hnew|]. split; [exact Hle|].
    intros Hd. destruct Hspec as [(Hnot & _)|(_ & w2 & b & Hret & _)]; [contradiction|].
    discriminate.
Qed.

Lemma executeSchemaMigration_questions_witness :
  terminal (Some agreeing_operator) (Some tty) = Some (agreeing_operator, tty) /\
  executeSchemaMigration blog blog_diffs (Some agreeing_operator) (Some tty) nothing_yet
    = (blog_migrated, Return tt) /\
  exists new,
    asked blog_migrated = asked nothing_yet ++ new /\
    List.length new <= List.length (filter needs_operatorb blog_diffs) /\
    (dispatched (Return tt) ->
     List.length new = List.length (filter needs_operatorb blog_diffs)).
Proof.
  assert (Hrun : executeSchemaMigration blog blog_diffs (Some agreeing_operator) (Some tty)
                   nothing_yet = (blog_migrated, Return tt)) by (vm_compute; reflexivity).
  split; [reflexivity|]. split; [exact Hrun|].
  exact (executeSchemaMigration_questions blog blog_diffs
           (Some agreeing_operator) (Some tty) agreeing_operator tty
           nothing_yet blog_migrated (Return tt) eq_refl Hrun).
Defined.

(** X19. When [executeSchemaMigration] reaches the dispatch, the
    queries the call has sent are the batch: the call returns exactly
    when the database acknowledges every query of the batch, and when it
    throws the rejection of a query, that query is one of the batch, so
    it was sent, and the database did not acknowledge it. *)
Theorem executeSchemaMigration_rejection :
  forall {L} (context : PluginInitContext L) (diffs : list SchemaDiff)
         (stdin : option ReadStream) (stdout : option WriteStream)
         (w w' : World) (r : Fallible unit),
    executeSchemaMigration context diffs stdin stdout w = (w', r) ->
    dispatched r ->
    exists batch,
      executed w' = executed w ++ batch /\
      (r = Return tt <-> forall q, In q batch -> acknowledges (database context) q = true) /\
      (forall q, r = Throw (Rejected q) ->
                 In q batch /\ acknowledges (database context) q = false).
Proof.
  intros L context diffs stdin stdout w w' r H Hd.
  pose proof (executeSchemaMigration_spec context diffs stdin stdout w w' r H) as Hspec.
  destruct Hspec as [(Hnot & _)|(_ & w1 & b & Hloop & Hasked & _ & Hex & _)];
    [contradiction|].
  rewrite executeSchemaMigration_run, Hloop in H. unfold dispatch in H.
  injection H as _ <-. exists (queries_of b). split; [exact Hex|].
  destruct (find _ (queries_of b)) as [q0|] eqn:Hfind.
  - apply find_some in Hfind. destruct Hfind as [Hin Hack].
    apply negb_true_iff in Hack. split.
    + split; [discriminate|]. intros Hall. rewrite (Hall q0 Hin) in Hack. discriminate.
    + intros q Hq. injection Hq as <-. auto.
  - split; [|discriminate]. split; [|reflexivity].
    intros _ q Hin. pose proof (find_none _ _ Hfind q Hin) as Hq.
    now apply negb_false_iff in Hq.
Qed.

Lemma executeSchemaMigration_rejection_witness :
  executeSchemaMigration flags blog_diffs (Some agreeing_operator) (Some tty) nothing_yet
    = ({| executed := executed blog_migrated; asked := asked blog_migrated |},
       Throw (Rejected (AlterCollection
                          {| alter_collection := "Post";
                             changes := [AlterColumn "title" (q_column "title" ColumnType.Int64);
                                         DropColumn "legacy";
                                         AddColumn (q_column "summary" ColumnType.Text) None]
                          |}))) /\
  exists batch,
    executed blog_migrated = executed nothing_yet ++ batch /\
    (Throw (Rejected (AlterCollection
                        {| alter_collection := "Post";
                           changes := [AlterColumn "title" (q_column "title" ColumnType.Int64);
                                       DropColumn "legacy";
                                       AddColumn (q_column "summary" ColumnType.Text) None]
                        |})) = Return tt
     <-> forall q, In q batch -> acknowledges (database flags) q = true) /\
    (forall q,
        Throw (A := unit)
              (Rejected (AlterCollection
                           {| alter_collection := "Post";
                              changes := [AlterColumn "title" (q_column "title" ColumnType.Int64);
                                          DropColumn "legacy";
                                          AddColumn (q_column "summary" ColumnType.Text) None]
                           |})) = Throw (Rejected q) ->
        In q batch /\ acknowledges (database flags) q = false).
Proof.
  assert (Hrun : executeSchemaMigration flags blog_diffs (Some agreeing_operator) (Some tty)
                   nothing_yet
                 = ({| executed := executed blog_migrated; asked := asked blog_migrated |},
                    Throw (Rejected (AlterCollection
                             {| alter_collection := "Post";
                                changes := [AlterColumn "title"
                                              (q_column "title" ColumnType.Int64);
                                            DropColumn "legacy";
                                            AddColumn (q_column "summary" ColumnType.Text)
                                              None] |}))))
    by (vm_compute; reflexivity).
  split; [exact Hrun|].
  exact (executeSchemaMigration_rejection flags blog_diffs _ _ _ _ _ Hrun
           (or_intror (ex_intro _ _ eq_refl))).
Defined.

(** ** From the declaration to the database *)

Lemma mapR_total {E A B} (f : A -> Result E B) (l : list A) :
  Forall (fun x => exists y, f x = Return y) l -> exists ys, mapR f l = Return ys.
Proof.
  induction 1 as [|x l [y Hy] _ [ys IH]]; simpl.
  - now exists [].
  - rewrite Hy, IH. simpl. now eexists.
Qed.

Lemma column_of_total (l : list SchemaDescriptionColumn) :
  Forall (fun c => exists t, mapStringToColumnType (column_type c) = Return t) l ->
  exists columns, mapR column_of l = Return columns.
Proof.
  intros H. apply mapR_total. eapply Forall_impl; [|exact H].
  intros c [t Ht]. unfold column_of. rewrite Ht. simpl. now eexists.
Qed.

Lemma index_of_total (l : list SchemaDescriptionIndex) :
  Forall (fun i => exists t, mapStringToIndexType (sdi_type i) = Return t) l ->
  exists indexes, mapR index_of l = Return indexes.
Proof.
  intros H. apply mapR_total. eapply Forall_impl; [|exact H].
  intros i [t Ht]. unfold index_of. rewrite Ht. simpl. now eexists.
Qed.

Lemma Forall2_map_eq {A B C} (f : A -> C) (g : B -> C) (l : list A) (l' : list B) :
  Forall2 (fun x y => g y = f x) l l' -> map g l' = map f l.
Proof. induction 1; simpl; congruence. Qed.

(** X20. Diffing and then migrating one declared schema whose collection
    does not exist, with every declared column and index type known:
    the only queries sent are the existence check and one creation, no
    question is asked whatever the streams are, and the collection
    created bears the declared handle and, one for one and in order,
    the names of the expanded columns, with the column types their
    declared types stand for, and the names of the expanded indexes. The
    call returns if the database acknowledges the creation and throws
    its rejection otherwise. *)
Theorem a_new_collection_is_created :
  forall (Castable : Z) (IndexType_value : IndexType.t -> string)
         {L} (context : PluginInitContext L) (schema : Schema)
         (stdin : option ReadStream) (stdout : option WriteStream) (w : World),
    collectionExists (database context) (schema_handle schema) = false ->
    Forall (fun c => exists t, mapStringToColumnType (column_type c) = Return t)
           (sd_columns (schemaToSchemaDescription context schema)) ->
    Forall (fun i => exists t, mapStringToIndexType (sdi_type i) = Return t)
           (sd_indexes (schemaToSchemaDescription context schema)) ->
    exists w1 diffs q,
      getSchemaDiff Castable IndexType_value context [schema] w = (w1, Return diffs) /\
      executeSchemaMigration context diffs stdin stdout w1
      = ({| executed := executed w ++ [CollectionExists (schema_handle schema);
                                       CreateCollection q];
            asked := asked w |},
         if acknowledges (database context) (CreateCollection q)
         then Return tt else Throw (Rejected (CreateCollection q))) /\
      create_collection q = schema_handle schema /\
      map getName (create_columns q)
      = map column_handle (sd_columns (schemaToSchemaDescription context schema)) /\
      map (fun c => Return (E := Error) (getType c)) (create_columns q)
      = map (fun c => mapStringToColumnType (column_type c))
            (sd_columns (schemaToSchemaDescription context schema)) /\
      map index_getName (create_indexes q)
      = map sdi_handle (sd_indexes (schemaToSchemaDescription context schema)).
Proof.
  intros Castable IndexType_value L context schema stdin stdout w Hnew Hcolumns Hindexes.
  destruct (column_of_total _ Hcolumns) as [columns Hc].
  destruct (index_of_total _ Hindexes) as [indexes Hi].
  exists (sent (CollectionExists (schema_handle schema)) w),
         [add_collection (schemaToSchemaDescription context schema)],
         {| create_collection := schema_handle schema;
            create_columns := columns; create_indexes := indexes |}.
  split; [rewrite getSchemaDiff_one, Hnew; reflexivity|].
  split.
  - rewrite executeSchemaMigration_run. cbn [foldA migrate_diff]. unfold bindA, liftA.
    rewrite Hc, Hi. cbn [bindR]. unfold retA, dispatch, queries_of, empty_batch, push.
    cbn [createCollections alterCollections app map Map_values find sent executed asked].
    unfold push. rewrite <- app_assoc. cbn [app].
    now destruct (acknowledges _ _).
  - cbn [create_collection create_columns create_indexes].
    split; [reflexivity|].
    apply mapR_Forall2 in Hc. apply mapR_Forall2 in Hi.
    split; [|split].
    + apply Forall2_map_eq. eapply Forall2_impl; [|exact Hc].
      intros c col Hcol. now apply column_of_inv in Hcol.
    + apply Forall2_map_eq. eapply Forall2_impl; [|exact Hc].
      intros c col Hcol. unfold column_of in Hcol.
      destruct (mapStringToColumnType (column_type c)); [|discriminate].
      simpl in Hcol. now injection Hcol as <-.
    + apply Forall2_map_eq. eapply Forall2_impl; [|exact Hi].
      intros i ix Hix. now apply index_of_name in Hix.
Qed.

Lemma a_new_collection_is_created_witness :
  collectionExists (database blog) (schema_handle Tag) = false /\
  exists w1 diffs q,
    getSchemaDiff blog_Castable mapIndexTypeToString blog [Tag] nothing_yet
    = (w1, Return diffs) /\
    executeSchemaMigration blog diffs None None w1
    = ({| executed := executed nothing_yet ++ [CollectionExists (schema_handle Tag);
                                               CreateCollection q];
          asked := asked nothing_yet |},
       if acknowledges (database blog) (CreateCollection q)
       then Return tt else Throw (Rejected (CreateCollection q))) /\
    create_collection q = schema_handle Tag /\
    map getName (create_columns q)
    = map column_handle (sd_columns (schemaToSchemaDescription blog Tag)) /\
    map (fun c => Return (E := Error) (getType c)) (create_columns q)
    = map (fun c => mapStringToColumnType (column_type c))
          (sd_columns (schemaToSchemaDescription blog Tag)) /\
    map index_getName (create_indexes q)
    = map sdi_handle (sd_indexes (schemaToSchemaDescription blog Tag)).
Proof.
  split; [reflexivity|].
  apply (a_new_collection_is_created blog_Castable mapIndexTypeToString blog Tag
           None None nothing_yet eq_refl).
  - repeat constructor; eexists; reflexivity.
  - repeat constructor; eexists; reflexivity.
Defined.

Lemma mapR_first_throw {E A B} (f : A -> Result E B) (l : list A) (x : A) (e : E) :
  In x l -> f x = Throw e ->
  exists x' e', In x' l /\ f x' = Throw e' /\ mapR f l = Throw e'.
Proof.
  intros Hin Hx. induction l as [|y l IH]; [destruct Hin|]. cbn [mapR].
  destruct (f y) as [z|e0] eqn:Hy.
  - destruct Hin as [->|Hin]; [congruence|].
    destruct (IH Hin) as (x' & e' & Hin' & Hx' & Hl).
    exists x', e'. rewrite Hl. simpl. auto.
  - exists y, e0. simpl. auto.
Qed.

Lemma expand_field_type (locales : list string) (field : Field) (c : SchemaDescriptionColumn) :
  In c (expand_field locales field) -> column_type c = field_type field.
Proof.
  unfold expand_field. destruct (String.eqb _ _); [intros []|].
  destruct (localized field).
  - rewrite in_map_iff. now intros (code & <- & _).
  - now intros [<-|[]].
Qed.

(** X21. A declared field type that [mapStringToColumnType] does not
    know does not disturb [getSchemaDiff] on a collection that does not
    exist: the diff is computed all the same, after the existence check
    alone. It is [executeSchemaMigration] that throws on that diff, with
    the error naming the unknown type of a declared field, whatever the
    streams are, without asking any question and without sending any
    query. *)
Theorem a_new_collection_of_unknown_type :
  forall (Castable : Z) (IndexType_value : IndexType.t -> string)
         {L} (context : PluginInitContext L) (schema : Schema)
         (stdin : option ReadStream) (stdout : option WriteStream) (w : World)
         (c : SchemaDescriptionColumn) (e : Error),
    collectionExists (database context) (schema_handle schema) = false ->
    In c (sd_columns (schemaToSchemaDescription context schema)) ->
    mapStringToColumnType (column_type c) = Throw e ->
    exists diffs f,
      getSchemaDiff Castable IndexType_value context [schema] w
      = (sent (CollectionExists (schema_handle schema)) w, Return diffs) /\
      executeSchemaMigration context diffs stdin stdout
        (sent (CollectionExists (schema_handle schema)) w)
      = (sent (CollectionExists (schema_handle schema)) w,
         Throw (UnknownFieldType (field_type f))) /\
      In f (fields schema) /\
      mapStringToColumnType (field_type f) = Throw (UnknownFieldType (field_type f)).
Proof.
  intros Castable IndexType_value L context schema stdin stdout w c e Hnew Hin Hc.
  assert (Hcol : column_of c = Throw e) by (unfold column_of; now rewrite Hc).
  destruct (mapR_first_throw column_of _ c e Hin Hcol) as (c' & e' & Hin' & Hc' & Hall).
  rewrite schemaToSchemaDescription_flat in Hin'. cbn [sd_columns] in Hin'.
  apply in_flat_map in Hin'. destruct Hin' as (f & Hf & Hcf).
  apply expand_field_type in Hcf.
  assert (Htype : mapStringToColumnType (field_type f) = Throw (UnknownFieldType (field_type f))
                  /\ e' = UnknownFieldType (field_type f)).
  { unfold column_of in Hc'. rewrite Hcf in Hc'.
    destruct (mapStringToColumnType (field_type f)) as [t|e0] eqn:Ht; [discriminate|].
    cbn [bindR] in Hc'. injection Hc' as <-.
    unfold mapStringToColumnType in Ht |- *.
    repeat match type of Ht with
           | (if ?b then _ else _) = _ => destruct b
           end; try discriminate.
    injection Ht as <-. auto. }
  destruct Htype as [Htype ->].
  exists [add_collection (schemaToSchemaDescription context schema)], f.
  split; [rewrite getSchemaDiff_one, Hnew; reflexivity|].
  split; [|auto].
  rewrite executeSchemaMigration_run. cbn [foldA migrate_diff]. unfold bindA, liftA.
  rewrite Hall. reflexivity.
Qed.

Lemma a_new_collection_of_unknown_type_witness :
  collectionExists (database blog) (schema_handle Place) = false /\
  In {| column_handle := "position"; column_type := "geo" |}
     (sd_columns (schemaToSchemaDescription blog Place)) /\
  mapStringToColumnType "geo" = Throw (UnknownFieldType "geo") /\
  exists diffs f,
    getSchemaDiff blog_Castable mapIndexTypeToString blog [Place] nothing_yet
    = (sent (CollectionExists (schema_handle Place)) nothing_yet, Return diffs) /\
    executeSchemaMigration blog diffs (Some agreeing_operator) (Some tty)
      (sent (CollectionExists (schema_handle Place)) nothing_yet)
    = (sent (CollectionExists (schema_handle Place)) nothing_yet,
       Throw (UnknownFieldType (field_type f))) /\
    In f (fields Place) /\
    mapStringToColumnType (field_type f) = Throw (UnknownFieldType (field_type f)).
Proof.
  assert (Hin : In {| column_handle := "position"; column_type := "geo" |}
                   (sd_columns (schemaToSchemaDescription blog Place)))
    by (right; left; reflexivity).
  split; [reflexivity|]. split; [exact Hin|]. split; [reflexivity|].
  exact (a_new_collection_of_unknown_type blog_Castable mapIndexTypeToString blog Place
           (Some agreeing_operator) (Some tty) nothing_yet
           {| column_handle := "position"; column_type := "geo" |}
           (UnknownFieldType "geo") eq_refl Hin eq_refl).
Defined.
